(** * A shallow embedding of the B-Tree of [btree.go]

    Go values are modelled as follows.
    - [int] is [Z]; every arithmetic expression of the modelled functions is
      bounded by a slice length, so no wrap-around can occur in them.
    - A slice is a [list]; indexing and slicing outside the range panics, as
      the Go runtime does.  Item and child slices never rely on spare
      capacity, so only the free list records its [cap].
    - A [*node] is a value of type [node]: a node owns its children
      exclusively, so in-place mutation through the pointer is modelled by
      returning the updated node to the owner, which stores it back.
    - An [Item] interface value is either nil or a user item: arguments and
      results that may be nil have type [option Item]; item slots of a node
      hold user items.
    - A run-time panic, and the exhaustion of the fuel that bounds the
      recursion of the model, are outcomes next to a normal return. *)

From Stdlib Require Import List ZArith Lia Bool.
Import ListNotations.
Local Open Scope Z_scope.

Set Implicit Arguments.

(** ** Outcomes *)

Inductive panic : Type :=
| IndexOutOfRange      (* runtime error: index or slice bounds out of range *)
| NilDereference       (* method call on a nil interface value *)
| NilStored            (* a nil item would enter an item slot *)
| InvalidType          (* panic("invalid type") *)
| BadDegree            (* panic("bad degree") *)
| MakeSliceOutOfRange. (* make([]T, 0, size) with a negative size *)

Inductive outcome (A : Type) : Type :=
| Ret (a : A)
| Panic (p : panic)
| OutOfFuel.

Arguments Panic {A} p.
Arguments OutOfFuel {A}.

Definition bind {A B : Type} (c : outcome A) (k : A -> outcome B) : outcome B :=
  match c with
  | Ret a => k a
  | Panic p => Panic p
  | OutOfFuel => OutOfFuel
  end.

Notation "x <- c ;; k" := (bind c (fun x => k))
  (at level 61, c at next level, right associativity).
Notation "' p <- c ;; k" := (bind c (fun x => match x with p => k end))
  (at level 61, p pattern, c at next level, right associativity).

(** ** Slices *)

Section Slices.
Variable A : Type.

Definition len (s : list A) : Z := Z.of_nat (length s).

(** [s[i]] *)
Definition index (s : list A) (i : Z) : outcome A :=
  if 0 <=? i then
    match nth_error s (Z.to_nat i) with
    | Some x => Ret x
    | None => Panic IndexOutOfRange
    end
  else Panic IndexOutOfRange.

(** [s[i] = x] *)
Definition assign (s : list A) (i : Z) (x : A) : outcome (list A) :=
  if (0 <=? i) && (i <? len s) then
    Ret (firstn (Z.to_nat i) s ++ x :: skipn (Z.to_nat (i + 1)) s)
  else Panic IndexOutOfRange.

(** [s[i:]] *)
Definition sliceFrom (s : list A) (i : Z) : outcome (list A) :=
  if (0 <=? i) && (i <=? len s) then Ret (skipn (Z.to_nat i) s)
  else Panic IndexOutOfRange.

(** [s[:i]] *)
Definition sliceTo (s : list A) (i : Z) : outcome (list A) :=
  if (0 <=? i) && (i <=? len s) then Ret (firstn (Z.to_nat i) s)
  else Panic IndexOutOfRange.

(** [insertAt]: append a zero slot, shift the tail right when
    [index < len], store at [index].  The store panics when [index] lies
    beyond the old length, the shift when it is negative. *)
Definition insertAt (s : list A) (i : Z) (x : A) : outcome (list A) :=
  if (0 <=? i) && (i <=? len s) then
    Ret (firstn (Z.to_nat i) s ++ x :: skipn (Z.to_nat i) s)
  else Panic IndexOutOfRange.

(** [removeAt]: read [s[index]], shift the tail left, drop the last slot.
    Returns the removed element and the shortened slice. *)
Definition removeAt (s : list A) (i : Z) : outcome (A * list A) :=
  x <- index s i ;;
  Ret (x, firstn (Z.to_nat i) s ++ skipn (Z.to_nat (i + 1)) s).

(** [pop]: remove and return the last element. *)
Definition pop (s : list A) : outcome (A * list A) :=
  let i := len s - 1 in
  x <- index s i ;;
  Ret (x, firstn (Z.to_nat i) s).
End Slices.

(** ** Items, nodes and the free list *)

Section BTree.
Variable Item : Type.
Variable Ctx : Type.
(** [Less a b ctx] is [a.Less(b, ctx)] for a non-nil receiver [a]. *)
Variable Less : Item -> Item -> Ctx -> bool.

(** The node of the source, without its back pointer [t]: the tree is
    reached through it only for the free list, which the model passes
    along explicitly. *)
Unset Elimination Schemes.
Inductive node : Type :=
| Node (items : list Item) (children : list node).
Set Elimination Schemes.

Definition items (n : node) : list Item :=
  match n with Node its _ => its end.
Definition children (n : node) : list node :=
  match n with Node _ chs => chs end.

(** [new(node)] *)
Definition blank : node := Node [] [].

Definition DefaultFreeListSize : Z := 32.

(** [FreeList]: the slice [freelist] together with its capacity. *)
Record FreeList : Type := mkFreeList {
  freelist : list node;
  capacity : Z
}.

Definition NewFreeList (size : Z) : outcome FreeList :=
  if size <? 0 then Panic MakeSliceOutOfRange
  else Ret (mkFreeList [] size).

Definition newNode (f : FreeList) : node * FreeList :=
  let index := len (freelist f) - 1 in
  if index <? 0 then (blank, f)
  else (nth (Z.to_nat index) (freelist f) blank,
        mkFreeList (firstn (Z.to_nat index) (freelist f)) (capacity f)).

Definition freeNode (f : FreeList) (n : node) : FreeList :=
  if len (freelist f) <? capacity f
  then mkFreeList (freelist f ++ [n]) (capacity f)
  else f.

(** Modelled from the spec: the tree's [newNode] (called as
    [n.t.newNode()]) is not in the source file.  "Nodes are created on
    demand from the free-list or fresh allocation": it takes a node from
    the tree's free list. *)
Definition BTree_newNode (f : FreeList) : node * FreeList := newNode f.

(** Modelled from the spec: the tree's [freeNode] (called as
    [n.t.freeNode(n)]) is not in the source file.  The free list is a
    "bounded stack of reusable blank node objects" and "the emptied node
    is handed to the free-list": the node is blanked, then released. *)
Definition BTree_freeNode (f : FreeList) (n : node) : FreeList :=
  freeNode f blank.

(** ** Binary search in an item slice *)

(** [item.Less(x, ctx)]: a nil receiver cannot be called. *)
Definition callLess (item : option Item) (x : Item) (ctx : Ctx) : outcome bool :=
  match item with
  | Some a => Ret (Less a x ctx)
  | None => Panic NilDereference
  end.

(** The loop of [find]; each round shrinks [j - i], so [len s] rounds of
    fuel are enough (lemma [find_loop_fuel]). *)
Fixpoint find_loop (fuel : nat) (s : list Item) (item : option Item)
         (ctx : Ctx) (i j : Z) : outcome Z :=
  if i <? j then
    match fuel with
    | O => OutOfFuel
    | S fuel' =>
        let h := i + Z.quot (j - i) 2 in
        sh <- index s h ;;
        lt <- callLess item sh ctx ;;
        if negb lt then find_loop fuel' s item ctx (h + 1) j
        else find_loop fuel' s item ctx i h
    end
  else Ret i.

(** [find].  The final test calls [s[i-1].Less(item, ctx)]; it is reached
    with [i > 0] only after the loop has called [item.Less], so [item] is
    not nil there. *)
Definition find (s : list Item) (item : option Item) (ctx : Ctx)
  : outcome (Z * bool) :=
  i <- find_loop (length s) s item ctx 0 (len s) ;;
  if 0 <? i then
    prev <- index s (i - 1) ;;
    match item with
    | Some x =>
        if negb (Less prev x ctx) then Ret (i - 1, true) else Ret (i, false)
    | None => Panic NilDereference
    end
  else Ret (i, false).

(** ** Split and insert *)

(** [split]: returns the pivot, the new sibling, the shrunk node and the
    free list. *)
Definition split (n : node) (i : Z) (f : FreeList)
  : outcome (Item * node * node * FreeList) :=
  item <- index (items n) i ;;
  let '(next, f') := BTree_newNode f in
  tl <- sliceFrom (items n) (i + 1) ;;
  let nextItems := items next ++ tl in
  nItems <- sliceTo (items n) i ;;
  if 0 <? len (children n) then
    ctl <- sliceFrom (children n) (i + 1) ;;
    let nextChildren := children next ++ ctl in
    nChildren <- sliceTo (children n) (i + 1) ;;
    Ret (item, Node nextItems nextChildren, Node nItems nChildren, f')
  else
    Ret (item, Node nextItems (children next), Node nItems (children n), f').

(** [maybeSplitChild]: returns whether a split occurred, the updated node
    and the free list. *)
Definition maybeSplitChild (n : node) (i maxItems : Z) (f : FreeList)
  : outcome (bool * node * FreeList) :=
  first <- index (children n) i ;;
  if len (items first) <? maxItems then Ret (false, n, f)
  else
    '(item, second, first', f') <- split first (Z.quot maxItems 2) f ;;
    chs <- assign (children n) i first' ;;
    its <- insertAt (items n) i item ;;
    chs' <- insertAt chs (i + 1) second ;;
    Ret (true, Node its chs', f').

(** [insert]: returns the replaced item (nil when none), the updated node
    and the free list. *)
Fixpoint insert (fuel : nat) (n : node) (item : Item) (maxItems : Z)
         (ctx : Ctx) (f : FreeList)
  : outcome (option Item * node * FreeList) :=
  match fuel with
  | O => OutOfFuel
  | S fuel' =>
      '(i, found) <- find (items n) (Some item) ctx ;;
      if found then
        out <- index (items n) i ;;
        its <- assign (items n) i item ;;
        Ret (Some out, Node its (children n), f)
      else if len (children n) =? 0 then
        its <- insertAt (items n) i item ;;
        Ret (None, Node its (children n), f)
      else
        '(didSplit, n1, f1) <- maybeSplitChild n i maxItems f ;;
        let descend (i : Z) :=
          child <- index (children n1) i ;;
          '(out, child', f2) <- insert fuel' child item maxItems ctx f1 ;;
          chs <- assign (children n1) i child' ;;
          Ret (out, Node (items n1) chs, f2) in
        if didSplit then
          inTree <- index (items n1) i ;;
          if Less item inTree ctx then descend i
          else if Less inTree item ctx then descend (i + 1)
          else
            out <- index (items n1) i ;;
            its <- assign (items n1) i item ;;
            Ret (Some out, Node its (children n1), f1)
        else descend i
  end.

(** [get] *)
Fixpoint get (fuel : nat) (n : node) (key : option Item) (ctx : Ctx)
  : outcome (option Item) :=
  match fuel with
  | O => OutOfFuel
  | S fuel' =>
      '(i, found) <- find (items n) key ctx ;;
      if found then
        out <- index (items n) i ;;
        Ret (Some out)
      else if 0 <? len (children n) then
        child <- index (children n) i ;;
        get fuel' child key ctx
      else Ret None
  end.

(** ** Extremal items *)

(** The loop of [min]: follow the first child down to a leaf.  A [*node]
    argument that may be nil is an [option node]. *)
Fixpoint min_loop (fuel : nat) (n : node) : outcome node :=
  if 0 <? len (children n) then
    match fuel with
    | O => OutOfFuel
    | S fuel' =>
        c <- index (children n) 0 ;;
        min_loop fuel' c
    end
  else Ret n.

(** [min] *)
Definition min (fuel : nat) (n : option node) : outcome (option Item) :=
  match n with
  | None => Ret None
  | Some n =>
      l <- min_loop fuel n ;;
      if len (items l) =? 0 then Ret None
      else
        x <- index (items l) 0 ;;
        Ret (Some x)
  end.

(** The loop of [max]: follow the last child down to a leaf.  The source
    indexes with [len(children)-1], where [children] names the slice type;
    it is read as the length of the node's own slice, [len(n.children)-1]. *)
Fixpoint max_loop (fuel : nat) (n : node) : outcome node :=
  if 0 <? len (children n) then
    match fuel with
    | O => OutOfFuel
    | S fuel' =>
        c <- index (children n) (len (children n) - 1) ;;
        max_loop fuel' c
    end
  else Ret n.

(** [max] *)
Definition max (fuel : nat) (n : option node) : outcome (option Item) :=
  match n with
  | None => Ret None
  | Some n =>
      l <- max_loop fuel n ;;
      if len (items l) =? 0 then Ret None
      else
        x <- index (items l) (len (items l) - 1) ;;
        Ret (Some x)
  end.

(** ** Remove *)

Definition toRemove : Type := Z.
Definition removeItem : toRemove := 0.
Definition removeMin : toRemove := 1.
Definition removeMax : toRemove := 2.

(** What the [switch typ] of [remove] decides: the call is finished at a
    leaf, or the walk goes on at child [i]. *)
Inductive target : Type :=
| Done (out : option Item) (n' : node)
| Descend (i : Z) (found : bool).

Definition removeTarget (n : node) (item : option Item) (typ : toRemove)
           (ctx : Ctx) : outcome target :=
  if typ =? removeMax then
    if len (children n) =? 0 then
      '(out, its) <- pop (items n) ;;
      Ret (Done (Some out) (Node its (children n)))
    else Ret (Descend (len (items n)) false)
  else if typ =? removeMin then
    if len (children n) =? 0 then
      '(out, its) <- removeAt (items n) 0 ;;
      Ret (Done (Some out) (Node its (children n)))
    else Ret (Descend 0 false)
  else if typ =? removeItem then
    '(i, found) <- find (items n) item ctx ;;
    if len (children n) =? 0 then
      if found then
        '(out, its) <- removeAt (items n) i ;;
        Ret (Done (Some out) (Node its (children n)))
      else Ret (Done None n)
    else Ret (Descend i found)
  else Panic InvalidType.

(** The three branches of [growChildAndRemove] that come before its final
    [n.remove]: steal from the left sibling, steal from the right sibling,
    or merge with a neighbour. *)
Definition growChild (n : node) (i minItems : Z) (f : FreeList)
  : outcome (node * FreeList) :=
  child <- index (children n) i ;;
  fromLeft <- (if 0 <? i then
                 l <- index (children n) (i - 1) ;;
                 Ret (minItems <? len (items l))
               else Ret false) ;;
  if fromLeft then
    stealFrom <- index (children n) (i - 1) ;;
    '(stolenItem, sItems) <- pop (items stealFrom) ;;
    sep <- index (items n) (i - 1) ;;
    cItems <- insertAt (items child) 0 sep ;;
    nItems <- assign (items n) (i - 1) stolenItem ;;
    '(sChildren, cChildren) <-
      (if 0 <? len (children stealFrom) then
         '(c, sChildren) <- pop (children stealFrom) ;;
         cChildren <- insertAt (children child) 0 c ;;
         Ret (sChildren, cChildren)
       else Ret (children stealFrom, children child)) ;;
    chs <- assign (children n) (i - 1) (Node sItems sChildren) ;;
    chs' <- assign chs i (Node cItems cChildren) ;;
    Ret (Node nItems chs', f)
  else
    fromRight <- (if i <? len (items n) then
                    r <- index (children n) (i + 1) ;;
                    Ret (minItems <? len (items r))
                  else Ret false) ;;
    if fromRight then
      stealFrom <- index (children n) (i + 1) ;;
      '(stolenItem, sItems) <- removeAt (items stealFrom) 0 ;;
      sep <- index (items n) i ;;
      let cItems := items child ++ [sep] in
      nItems <- assign (items n) i stolenItem ;;
      '(sChildren, cChildren) <-
        (if 0 <? len (children stealFrom) then
           '(c, sChildren) <- removeAt (children stealFrom) 0 ;;
           Ret (sChildren, children child ++ [c])
         else Ret (children stealFrom, children child)) ;;
      chs <- assign (children n) (i + 1) (Node sItems sChildren) ;;
      chs' <- assign chs i (Node cItems cChildren) ;;
      Ret (Node nItems chs', f)
    else
      '(i, child) <- (if len (items n) <=? i then
                        c <- index (children n) (i - 1) ;;
                        Ret (i - 1, c)
                      else Ret (i, child)) ;;
      '(mergeItem, nItems) <- removeAt (items n) i ;;
      '(mergeChild, nChildren) <- removeAt (children n) (i + 1) ;;
      let cItems := (items child ++ [mergeItem]) ++ items mergeChild in
      let cChildren := children child ++ children mergeChild in
      chs <- assign nChildren i (Node cItems cChildren) ;;
      Ret (Node nItems chs, BTree_freeNode f mergeChild).

(** [remove] and [growChildAndRemove]: each returns the removed item (nil
    when none), the updated node and the free list.  In the branch that
    pulls the predecessor, a nil result would be stored in the item slot;
    [remove] in mode [removeMax] never returns nil (lemma
    [remove_extremum_not_nil]), so the model marks that case as a panic of
    its own. *)
Fixpoint remove (fuel : nat) (n : node) (item : option Item)
         (minItems : Z) (typ : toRemove) (ctx : Ctx) (f : FreeList)
         {struct fuel}
  : outcome (option Item * node * FreeList) :=
  match fuel with
  | O => OutOfFuel
  | S fuel' =>
      t <- removeTarget n item typ ctx ;;
      match t with
      | Done out n' => Ret (out, n', f)
      | Descend i found =>
          child <- index (children n) i ;;
          if len (items child) <=? minItems then
            growChildAndRemove fuel' n i item minItems typ ctx f
          else if found then
            out <- index (items n) i ;;
            '(pred, child', f') <-
               remove fuel' child None minItems removeMax ctx f ;;
            match pred with
            | Some p =>
                its <- assign (items n) i p ;;
                chs <- assign (children n) i child' ;;
                Ret (Some out, Node its chs, f')
            | None => Panic NilStored
            end
          else
            '(out, child', f') <-
               remove fuel' child item minItems typ ctx f ;;
            chs <- assign (children n) i child' ;;
            Ret (out, Node (items n) chs, f')
      end
  end
with growChildAndRemove (fuel : nat) (n : node) (i : Z)
         (item : option Item) (minItems : Z) (typ : toRemove) (ctx : Ctx)
         (f : FreeList) {struct fuel}
  : outcome (option Item * node * FreeList) :=
  match fuel with
  | O => OutOfFuel
  | S fuel' =>
      '(n1, f1) <- growChild n i minItems f ;;
      remove fuel' n1 item minItems typ ctx f1
  end.

(** ** The tree *)

(** Modelled from the spec: the declaration of [BTree] is not in the
    source file; the constructor [NewWithFreeList] shows the fields
    [degree], [freelist] and [ctx].  The tree "holds: the degree, the
    optional root (absent when empty), the free-list, the ordering
    context, and the item count".  A free list shared by several trees is
    not modelled: each tree value carries the state of its list. *)
Record BTree : Type := mkBTree {
  bt_degree : Z;
  bt_length : Z;
  bt_root : option node;
  bt_freelist : FreeList;
  bt_ctx : Ctx
}.

Definition NewWithFreeList (degree : Z) (f : FreeList) (ctx : Ctx)
  : outcome BTree :=
  if degree <=? 1 then Panic BadDegree
  else Ret (mkBTree degree 0 None f ctx).

(** [New]; its parameter is spelled [dgree] in the source and read as the
    [degree] its body passes on. *)
Definition New (degree : Z) (ctx : Ctx) : outcome BTree :=
  f <- NewFreeList DefaultFreeListSize ;;
  NewWithFreeList degree f ctx.

(** Modelled from the spec: [maxItems = 2d - 1] and [minItems = d - 1]. *)
Definition maxItems (t : BTree) : Z := bt_degree t * 2 - 1.
Definition minItems (t : BTree) : Z := bt_degree t - 1.

(** Modelled from the spec: [replaceOrInsert] is not in the source file.
    "If empty, create a fresh root with {x}; else if the root is full
    (maxItems items), split it: allocate a new root whose items are
    {pivot} and whose children are {oldRoot, newSibling}, then recurse
    into it.  Delegate to root.insert.  Increment length if nothing was
    replaced."  A nil item is rejected. *)
Definition ReplaceOrInsert (fuel : nat) (t : BTree) (item : option Item)
  : outcome (option Item * BTree) :=
  match item with
  | None => Panic NilStored
  | Some x =>
      match bt_root t with
      | None =>
          let '(r, f) := BTree_newNode (bt_freelist t) in
          Ret (None,
               mkBTree (bt_degree t) (bt_length t + 1)
                       (Some (Node (items r ++ [x]) (children r)))
                       f (bt_ctx t))
      | Some r =>
          '(r1, f1) <-
            (if maxItems t <=? len (items r) then
               '(item2, second, oldroot, f1) <-
                  split r (Z.quot (maxItems t) 2) (bt_freelist t) ;;
               let '(nr, f2) := BTree_newNode f1 in
               Ret (Node (items nr ++ [item2])
                         (children nr ++ [oldroot; second]), f2)
             else Ret (r, bt_freelist t)) ;;
          '(out, r2, f3) <- insert fuel r1 x (maxItems t) (bt_ctx t) f1 ;;
          Ret (out,
               mkBTree (bt_degree t)
                       (match out with
                        | None => bt_length t + 1
                        | Some _ => bt_length t
                        end)
                       (Some r2) f3 (bt_ctx t))
      end
  end.

(** Modelled from the spec: [deleteInternal] is not in the source file.
    On an empty tree it returns absent.  "After each delete-internal
    call: if the root becomes item-empty but has a child, collapse the
    root to its single child and release the old root to the free-list;
    if the root becomes both item- and child-empty, set root to absent.
    Decrement length when something was removed."  Nodes are "released to
    the free-list ... when the root collapses to empty". *)
Definition deleteInternal (fuel : nat) (t : BTree) (item : option Item)
           (typ : toRemove) : outcome (option Item * BTree) :=
  match bt_root t with
  | None => Ret (None, t)
  | Some r =>
      '(out, r1, f1) <-
         remove fuel r item (minItems t) typ (bt_ctx t) (bt_freelist t) ;;
      '(root', f2) <-
         (if len (items r1) =? 0 then
            if 0 <? len (children r1) then
              c <- index (children r1) 0 ;;
              Ret (Some c, BTree_freeNode f1 r1)
            else Ret (None, BTree_freeNode f1 r1)
          else Ret (Some r1, f1)) ;;
      Ret (out,
           mkBTree (bt_degree t)
                   (match out with
                    | None => bt_length t
                    | Some _ => bt_length t - 1
                    end)
                   root' f2 (bt_ctx t))
  end.

(** Modelled from the spec: [delete(x)] is [deleteInternal(x, removeItem)]. *)
Definition Delete (fuel : nat) (t : BTree) (item : option Item)
  : outcome (option Item * BTree) :=
  deleteInternal fuel t item removeItem.

(** ** Observations *)

(** Items of children and separators in ascending position. *)
Fixpoint interleave (cs : list (list Item)) (its : list Item) : list Item :=
  match cs with
  | [] => its
  | c :: cs' =>
      match its with
      | [] => c ++ concat cs'
      | i :: its' => c ++ i :: interleave cs' its'
      end
  end.

(** The full ascending traversal of a subtree. *)
Fixpoint toList (n : node) : list Item :=
  match n with
  | Node its chs => interleave (map toList chs) its
  end.

Definition treeItems (t : BTree) : list Item :=
  match bt_root t with
  | None => []
  | Some r => toList r
  end.

Fixpoint height (n : node) : nat :=
  match n with
  | Node _ chs => fold_right (fun c h => Nat.max (S (height c)) h) O chs
  end.

End BTree.

Arguments Descend {Item} i found.
Arguments Done {Item} out n'.

(** ** Invariants *)

Section Invariants.
Variables Item Ctx : Type.
Variable Less : Item -> Item -> Ctx -> bool.
Implicit Types (n : node Item) (f : FreeList Item).

(** A blank node: no items, no children. *)
Definition isBlank n : Prop := items n = [] /\ children n = [].

Definition blankPool f : Prop := Forall isBlank (freelist f).

(** The operations of a tree on its free list. *)
Inductive poolOp : Type :=
| OpNewNode
| OpFreeNode (n : node Item).

Definition runPoolOp f (op : poolOp) : FreeList Item :=
  match op with
  | OpNewNode => snd (BTree_newNode f)
  | OpFreeNode n => BTree_freeNode f n
  end.

(** Arity of one node, and of every node of a subtree. *)
Definition nodeArity n : Prop :=
  len (children n) = 0 \/ len (children n) = len (items n) + 1.

Fixpoint arity n : Prop :=
  match n with
  | Node its chs =>
      nodeArity (Node its chs) /\
      fold_right (fun c P => arity c /\ P) True chs
  end.

(** Arity together with height balance: every leaf of the subtree lies at
    depth [h]. *)
Fixpoint shape (h : nat) n : Prop :=
  match h with
  | O => children n = []
  | S h' =>
      len (children n) = len (items n) + 1 /\ Forall (shape h') (children n)
  end.

(** Every node below the root of the subtree holds at least [m] items. *)
Fixpoint lower (m : Z) n : Prop :=
  match n with
  | Node _ chs =>
      fold_right (fun c P => (m <= len (items c) /\ lower m c) /\ P) True chs
  end.

Variable ctx : Ctx.

Definition lessThan (a b : Item) : Prop := Less a b ctx = true.

(** [!a.Less(b) && !b.Less(a)] *)
Definition equivalent (a b : Item) : Prop :=
  Less a b ctx = false /\ Less b a ctx = false.

(** The contract of [Less]: a strict weak ordering. *)
Record StrictWeakOrder : Prop := {
  lt_irrefl : forall a, ~ lessThan a a;
  lt_trans : forall a b c, lessThan a b -> lessThan b c -> lessThan a c;
  equiv_trans :
    forall a b c, equivalent a b -> equivalent b c -> equivalent a c
}.

(** Strictly ascending: every element is less than every later one. *)
Fixpoint ascending (l : list Item) : Prop :=
  match l with
  | [] => True
  | x :: l' => Forall (lessThan x) l' /\ ascending l'
  end.

(** Order of a subtree, read off its traversal; given the arity of the
    nodes, this is the local condition on separators and children. *)
Definition ordered n : Prop := ascending (toList n).
End Invariants.

(** * Facts about slices *)

Section SliceFacts.
Variable A : Type.
Implicit Types (s l : list A) (i : Z) (x : A).

Lemma len_nonneg s : 0 <= len s.
Proof. unfold len; lia. Qed.

Lemma len_app l1 l2 : len (l1 ++ l2) = len l1 + len l2.
Proof. unfold len; rewrite length_app; lia. Qed.

Lemma len_cons x l : len (x :: l) = len l + 1.
Proof. unfold len; simpl; lia. Qed.

Lemma len_nil : len (@nil A) = 0.
Proof. reflexivity. Qed.

Lemma len_zero s : len s = 0 -> s = [].
Proof. destruct s; [reflexivity | rewrite len_cons; pose proof (len_nonneg s); lia]. Qed.

Lemma index_app_mid l1 x l2 i :
  len l1 = i -> index (l1 ++ x :: l2) i = Ret x.
Proof.
  intros <-. unfold index, len.
  replace (0 <=? Z.of_nat (length l1)) with true by (symmetry; apply Z.leb_le; lia).
  rewrite Nat2Z.id, nth_error_app2 by lia.
  now rewrite Nat.sub_diag.
Qed.

Lemma index_focus s i x :
  index s i = Ret x ->
  exists l1 l2, s = l1 ++ x :: l2 /\ len l1 = i.
Proof.
  unfold index. destruct (0 <=? i) eqn:Hi; [|discriminate].
  apply Z.leb_le in Hi.
  destruct (nth_error s (Z.to_nat i)) eqn:Hn; [|discriminate].
  intros [= <-]. apply nth_error_split in Hn as (l1 & l2 & -> & Hl).
  exists l1, l2. split; [reflexivity | unfold len; lia].
Qed.

Lemma index_range s i x : index s i = Ret x -> 0 <= i < len s.
Proof.
  intros (l1 & l2 & -> & <-)%index_focus.
  rewrite len_app, len_cons. pose proof (len_nonneg l1). pose proof (len_nonneg l2). lia.
Qed.

Lemma index_in_range s i :
  0 <= i < len s -> exists x, index s i = Ret x.
Proof.
  intros Hi. unfold index, len in *.
  replace (0 <=? i) with true by (symmetry; apply Z.leb_le; lia).
  destruct (nth_error s (Z.to_nat i)) eqn:Hn; [eauto|].
  apply nth_error_None in Hn. lia.
Qed.

Lemma index_out_of_range s i :
  ~ (0 <= i < len s) -> index s i = Panic IndexOutOfRange.
Proof.
  intros Hi. destruct (index s i) eqn:E.
  - apply index_range in E. lia.
  - unfold index in E. destruct (0 <=? i); [|congruence].
    destruct (nth_error s (Z.to_nat i)); congruence.
  - unfold index in E. destruct (0 <=? i); [|congruence].
    destruct (nth_error s (Z.to_nat i)); congruence.
Qed.

Lemma firstn_len_app l1 l2 i : len l1 = i -> firstn (Z.to_nat i) (l1 ++ l2) = l1.
Proof.
  intros <-. unfold len. rewrite Nat2Z.id, firstn_app, Nat.sub_diag, firstn_all.
  simpl. now rewrite app_nil_r.
Qed.

Lemma skipn_len_app l1 l2 i : len l1 = i -> skipn (Z.to_nat i) (l1 ++ l2) = l2.
Proof.
  intros <-. unfold len. rewrite Nat2Z.id, skipn_app, Nat.sub_diag, skipn_all.
  reflexivity.
Qed.

Lemma assign_app_mid l1 x y l2 i :
  len l1 = i -> assign (l1 ++ x :: l2) i y = Ret (l1 ++ y :: l2).
Proof.
  intros Hi. unfold assign.
  pose proof (len_nonneg l1). pose proof (len_nonneg l2).
  replace ((0 <=? i) && (i <? len (l1 ++ x :: l2))) with true.
  2:{ symmetry. apply andb_true_iff. rewrite len_app, len_cons.
      split; [apply Z.leb_le | apply Z.ltb_lt]; lia. }
  rewrite (firstn_len_app l1 (x :: l2) Hi).
  replace (l1 ++ x :: l2) with ((l1 ++ [x]) ++ l2) at 1 by (now rewrite <- app_assoc).
  rewrite skipn_len_app; [reflexivity|].
  rewrite len_app, len_cons, len_nil. lia.
Qed.

Lemma assign_range s i x s' : assign s i x = Ret s' -> 0 <= i < len s.
Proof.
  unfold assign. destruct ((0 <=? i) && (i <? len s)) eqn:E; [|discriminate].
  apply andb_true_iff in E as [?%Z.leb_le ?%Z.ltb_lt]. lia.
Qed.

Lemma insertAt_app l1 l2 i x :
  len l1 = i -> insertAt (l1 ++ l2) i x = Ret (l1 ++ x :: l2).
Proof.
  intros Hi. unfold insertAt.
  pose proof (len_nonneg l1). pose proof (len_nonneg l2).
  replace ((0 <=? i) && (i <=? len (l1 ++ l2))) with true.
  2:{ symmetry. apply andb_true_iff. rewrite len_app.
      split; apply Z.leb_le; lia. }
  now rewrite (firstn_len_app l1 l2 Hi), (skipn_len_app l1 l2 Hi).
Qed.

Lemma insertAt_front s x : insertAt s 0 x = Ret (x :: s).
Proof. apply (insertAt_app [] s x). reflexivity. Qed.

Lemma removeAt_app_mid l1 x l2 i :
  len l1 = i -> removeAt (l1 ++ x :: l2) i = Ret (x, l1 ++ l2).
Proof.
  intros Hi. unfold removeAt. rewrite (index_app_mid l1 x l2 Hi). simpl.
  rewrite (firstn_len_app l1 (x :: l2) Hi).
  replace (l1 ++ x :: l2) with ((l1 ++ [x]) ++ l2) by (now rewrite <- app_assoc).
  rewrite skipn_len_app; [reflexivity|].
  rewrite len_app, len_cons, len_nil. lia.
Qed.

Lemma removeAt_front x s : removeAt (x :: s) 0 = Ret (x, s).
Proof. apply (removeAt_app_mid [] x s). reflexivity. Qed.

Lemma pop_snoc l x : pop (l ++ [x]) = Ret (x, l).
Proof.
  unfold pop.
  assert (H : len (l ++ [x]) - 1 = len l) by (rewrite len_app, len_cons, len_nil; lia).
  rewrite H, (index_app_mid l x [] eq_refl). simpl.
  now rewrite (firstn_len_app l [x] eq_refl).
Qed.

Lemma sliceFrom_app l1 l2 i : len l1 = i -> sliceFrom (l1 ++ l2) i = Ret l2.
Proof.
  intros Hi. unfold sliceFrom.
  pose proof (len_nonneg l1). pose proof (len_nonneg l2).
  replace ((0 <=? i) && (i <=? len (l1 ++ l2))) with true.
  2:{ symmetry. apply andb_true_iff. rewrite len_app.
      split; apply Z.leb_le; lia. }
  now rewrite (skipn_len_app l1 l2 Hi).
Qed.

Lemma sliceTo_app l1 l2 i : len l1 = i -> sliceTo (l1 ++ l2) i = Ret l1.
Proof.
  intros Hi. unfold sliceTo.
  pose proof (len_nonneg l1). pose proof (len_nonneg l2).
  replace ((0 <=? i) && (i <=? len (l1 ++ l2))) with true.
  2:{ symmetry. apply andb_true_iff. rewrite len_app.
      split; apply Z.leb_le; lia. }
  now rewrite (firstn_len_app l1 l2 Hi).
Qed.

(** Every position of a slice, its end included, cuts it in two. *)
Lemma cut_at s i :
  0 <= i <= len s -> exists l1 l2, s = l1 ++ l2 /\ len l1 = i.
Proof.
  intros Hi. exists (firstn (Z.to_nat i) s), (skipn (Z.to_nat i) s).
  split; [now rewrite firstn_skipn|].
  unfold len in *. rewrite length_firstn. lia.
Qed.

Lemma snoc_cases s : s = [] \/ exists l x, s = l ++ [x].
Proof.
  induction s as [|a s IH] using rev_ind; [now left | right; eauto].
Qed.
End SliceFacts.

(** * The free list and the constructors *)

Section PoolFacts.
Variables Item Ctx : Type.
Implicit Types (n : node Item) (f : FreeList Item).

Lemma isBlank_blank : isBlank (blank Item).
Proof. split; reflexivity. Qed.

Lemma isBlank_eq n : isBlank n -> n = blank Item.
Proof. destruct n as [its chs]. intros [H1 H2]; simpl in *. now subst. Qed.

(** [FreeList.freeNode] stores the node as it is given. *)
Lemma freeNode_push f n :
  len (freelist f) < capacity f ->
  freeNode f n = mkFreeList (freelist f ++ [n]) (capacity f).
Proof. intros H. unfold freeNode. now apply Z.ltb_lt in H as ->. Qed.

Lemma freeNode_drop f n :
  capacity f <= len (freelist f) -> freeNode f n = f.
Proof. intros H. unfold freeNode. now apply Z.ltb_ge in H as ->. Qed.

Lemma freeNode_capacity f n : capacity (freeNode f n) = capacity f.
Proof. unfold freeNode. now destruct (_ <? _). Qed.

Lemma freeNode_bounded f n :
  len (freelist f) <= capacity f ->
  len (freelist (freeNode f n)) <= capacity (freeNode f n).
Proof.
  intros H. unfold freeNode. destruct (_ <? _) eqn:E; simpl; [|exact H].
  apply Z.ltb_lt in E. rewrite len_app, len_cons, len_nil. lia.
Qed.

Lemma freeNode_blankPool f n :
  blankPool f -> isBlank n -> blankPool (freeNode f n).
Proof.
  intros Hf Hn. unfold freeNode, blankPool in *.
  destruct (_ <? _); simpl; [|exact Hf].
  apply Forall_app. split; [exact Hf | now constructor].
Qed.

Lemma newNode_pop l n c :
  newNode (mkFreeList (l ++ [n]) c) = (n, mkFreeList l c).
Proof.
  unfold newNode; simpl.
  assert (H : len (l ++ [n]) - 1 = len l) by (rewrite len_app, len_cons, len_nil; lia).
  rewrite H. pose proof (len_nonneg l) as Hl.
  apply Z.ltb_ge in Hl as ->.
  rewrite (firstn_len_app l [n] eq_refl). f_equal.
  unfold len. rewrite Nat2Z.id, app_nth2, Nat.sub_diag by lia. reflexivity.
Qed.

Lemma newNode_empty c : newNode (mkFreeList (@nil (node Item)) c) = (blank Item, mkFreeList [] c).
Proof. reflexivity. Qed.

Lemma newNode_capacity f : capacity (snd (newNode f)) = capacity f.
Proof. unfold newNode. now destruct (_ <? _). Qed.

Lemma newNode_bounded f :
  len (freelist f) <= capacity f ->
  len (freelist (snd (newNode f))) <= capacity (snd (newNode f)).
Proof.
  destruct f as [l c]. destruct (snoc_cases l) as [->|(l' & x & ->)].
  - now rewrite newNode_empty.
  - rewrite newNode_pop; cbn [snd freelist capacity].
    rewrite len_app, len_cons, len_nil. lia.
Qed.

Lemma newNode_blank f :
  blankPool f -> isBlank (fst (newNode f)) /\ blankPool (snd (newNode f)).
Proof.
  destruct f as [l c]. unfold blankPool; cbn [freelist].
  destruct (snoc_cases l) as [->|(l' & x & ->)]; intros H.
  - rewrite newNode_empty; cbn [fst snd freelist].
    split; [apply isBlank_blank | constructor].
  - rewrite newNode_pop; cbn [fst snd freelist]. apply Forall_app in H as [H1 H2].
    split; [now inversion H2 | exact H1].
Qed.

Lemma newNode_blank_eq f :
  blankPool f -> exists f', newNode f = (blank Item, f') /\ blankPool f'.
Proof.
  intros H. destruct (newNode_blank H) as [H1 H2].
  destruct (newNode f) as [n f'] eqn:E; simpl in *.
  exists f'. now rewrite (isBlank_eq H1).
Qed.

Lemma BTree_freeNode_blankPool f n : blankPool f -> blankPool (BTree_freeNode f n).
Proof. intros H. apply freeNode_blankPool; [exact H | apply isBlank_blank]. Qed.

(** The pool invariant: only blank nodes, never more than the capacity,
    and the capacity is the one given at creation. *)
Definition poolInv (size : Z) f : Prop :=
  blankPool f /\ len (freelist f) <= capacity f /\ capacity f = size.

Lemma runPoolOp_inv size f (op : poolOp Item) :
  poolInv size f -> poolInv size (runPoolOp f op).
Proof.
  intros (Hb & Hl & Hc). destruct op as [|n]; simpl.
  - unfold BTree_newNode. repeat split.
    + now apply newNode_blank.
    + now apply newNode_bounded.
    + now rewrite newNode_capacity.
  - unfold BTree_freeNode. repeat split.
    + apply freeNode_blankPool; [exact Hb | apply isBlank_blank].
    + now apply freeNode_bounded.
    + now rewrite freeNode_capacity.
Qed.

Lemma runPoolOps_inv size (ops : list (poolOp Item)) : forall f,
  poolInv size f -> poolInv size (fold_left (@runPoolOp Item) ops f).
Proof.
  induction ops as [|op ops IH]; intros f H; simpl; [exact H|].
  apply IH, runPoolOp_inv, H.
Qed.

(** C9. The free list of a tree holds only blank nodes and is bounded by
    the capacity fixed at its creation: after any sequence of the tree's
    [newNode] and [freeNode] calls on a list created by
    [NewFreeList size], every stored node is blank, the length is at most
    [size], the node [newNode] returns is blank, and [freeNode] pushes the
    node below capacity and leaves the list as it is otherwise. *)
Theorem freelist_blank_and_bounded
        (size : Z) (f0 : FreeList Item) (ops : list (poolOp Item)) :
  NewFreeList Item size = Ret f0 ->
  let f := fold_left (@runPoolOp Item) ops f0 in
  blankPool f /\
  len (freelist f) <= capacity f /\
  capacity f = size /\
  isBlank (fst (newNode f)) /\
  (len (freelist f) = 0 -> newNode f = (blank Item, f)) /\
  (forall n, len (freelist f) < capacity f ->
             freeNode f n = mkFreeList (freelist f ++ [n]) (capacity f)) /\
  (forall n, capacity f <= len (freelist f) -> freeNode f n = f).
Proof.
  intros H0 f.
  assert (Hinv : poolInv size f).
  { apply runPoolOps_inv. unfold NewFreeList in H0.
    destruct (size <? 0) eqn:E; [discriminate|]. injection H0 as <-.
    apply Z.ltb_ge in E. repeat split; simpl; [constructor | exact E]. }
  destruct Hinv as (Hb & Hl & Hc).
  repeat split; try assumption.
  - now apply newNode_blank.
  - now apply newNode_blank.
  - intros Hz. apply len_zero in Hz. destruct f as [l c]; simpl in *. now subst.
  - intros n. apply freeNode_push.
  - intros n. apply freeNode_drop.
Qed.

(** C8. [New] panics with "bad degree" when [degree < 2]; when
    [degree >= 2] it returns an empty tree whose free list is new, empty
    and of capacity [DefaultFreeListSize = 32].  [NewWithFreeList] makes
    the same test and keeps the list it is given. *)
Theorem New_degree_check (degree : Z) (ctx : Ctx) :
  (degree < 2 -> New Item degree ctx = Panic BadDegree) /\
  (2 <= degree ->
   New Item degree ctx = Ret (mkBTree degree 0 None (mkFreeList [] 32) ctx)) /\
  (forall f, degree < 2 -> NewWithFreeList degree f ctx = Panic BadDegree) /\
  (forall f, 2 <= degree ->
             NewWithFreeList degree f ctx = Ret (mkBTree degree 0 None f ctx)).
Proof.
  unfold New, NewWithFreeList; simpl.
  repeat split; intros; destruct (degree <=? 1) eqn:E;
    (apply Z.leb_le in E || apply Z.leb_gt in E); try reflexivity; lia.
Qed.
End PoolFacts.

(** * Outcomes and lengths *)

Lemma bind_Ret_inv (A B : Type) (c : outcome A) (k : A -> outcome B) (b : B) :
  bind c k = Ret b -> exists a, c = Ret a /\ k a = Ret b.
Proof. destruct c; simpl; intros H; try discriminate. eauto. Qed.

(** Splits a hypothesis [bind c k = Ret b] into the two returns. *)
Ltac bind_inv H :=
  let a := fresh "a" in
  let E := fresh "E" in
  apply bind_Ret_inv in H as (a & E & H).

Section MoreSliceFacts.
Variable A : Type.
Implicit Types (s l : list A) (i : Z) (x : A).

Lemma len_firstn s i : 0 <= i <= len s -> len (firstn (Z.to_nat i) s) = i.
Proof. unfold len. intros H. rewrite length_firstn. lia. Qed.

Lemma len_skipn s i : 0 <= i <= len s -> len (skipn (Z.to_nat i) s) = len s - i.
Proof. unfold len. intros H. rewrite length_skipn. lia. Qed.

Lemma sliceFrom_app_mid l1 x l2 i :
  len l1 = i -> sliceFrom (l1 ++ x :: l2) (i + 1) = Ret l2.
Proof.
  intros Hi.
  replace (l1 ++ x :: l2) with ((l1 ++ [x]) ++ l2) by (now rewrite <- app_assoc).
  apply sliceFrom_app. rewrite len_app, len_cons, len_nil. lia.
Qed.

Lemma assign_inv s i x s' :
  assign s i x = Ret s' ->
  exists l1 y l2, s = l1 ++ y :: l2 /\ s' = l1 ++ x :: l2 /\ len l1 = i.
Proof.
  intros H. pose proof (assign_range _ _ _ H) as Hr.
  destruct (index_in_range s Hr) as (y & (l1 & l2 & -> & Hl)%index_focus).
  rewrite (assign_app_mid l1 y x l2 Hl) in H. injection H as <-. eauto 6.
Qed.

Lemma insertAt_inv s i x s' :
  insertAt s i x = Ret s' ->
  exists l1 l2, s = l1 ++ l2 /\ s' = l1 ++ x :: l2 /\ len l1 = i.
Proof.
  unfold insertAt. destruct ((0 <=? i) && (i <=? len s)) eqn:E; [|discriminate].
  apply andb_true_iff in E as [H1%Z.leb_le H2%Z.leb_le].
  intros [= <-]. exists (firstn (Z.to_nat i) s), (skipn (Z.to_nat i) s).
  rewrite firstn_skipn. repeat split. apply len_firstn. lia.
Qed.

Lemma removeAt_inv s i x s' :
  removeAt s i = Ret (x, s') ->
  exists l1 l2, s = l1 ++ x :: l2 /\ s' = l1 ++ l2 /\ len l1 = i.
Proof.
  unfold removeAt. intros H. bind_inv H.
  apply index_focus in E as (l1 & l2 & -> & Hl).
  pose proof (removeAt_app_mid l1 a l2 Hl) as R. unfold removeAt in R.
  rewrite (index_app_mid l1 a l2 Hl) in R. simpl in R.
  rewrite R in H. injection H as <- <-. eauto.
Qed.

Lemma pop_inv s x s' : pop s = Ret (x, s') -> s = s' ++ [x].
Proof.
  destruct (snoc_cases s) as [->|(l & y & ->)].
  - discriminate.
  - rewrite pop_snoc. now intros [= <- <-].
Qed.

Lemma sliceFrom_inv s i s' :
  sliceFrom s i = Ret s' -> exists l1, s = l1 ++ s' /\ len l1 = i.
Proof.
  unfold sliceFrom. destruct ((0 <=? i) && (i <=? len s)) eqn:E; [|discriminate].
  apply andb_true_iff in E as [H1%Z.leb_le H2%Z.leb_le].
  intros [= <-]. exists (firstn (Z.to_nat i) s). rewrite firstn_skipn.
  split; [reflexivity | apply len_firstn; lia].
Qed.

Lemma sliceTo_inv s i s' :
  sliceTo s i = Ret s' -> exists l2, s = s' ++ l2 /\ len s' = i.
Proof.
  unfold sliceTo. destruct ((0 <=? i) && (i <=? len s)) eqn:E; [|discriminate].
  apply andb_true_iff in E as [H1%Z.leb_le H2%Z.leb_le].
  intros [= <-]. exists (skipn (Z.to_nat i) s). rewrite firstn_skipn.
  split; [reflexivity | apply len_firstn; lia].
Qed.

Lemma app_len_inj l1 l2 l1' l2' :
  l1 ++ l2 = l1' ++ l2' -> len l1 = len l1' -> l1 = l1' /\ l2 = l2'.
Proof.
  unfold len. revert l1'. induction l1 as [|a l1 IH]; intros [|a' l1'] H Hl;
    simpl in *; try lia; [now split|].
  injection H as -> H. destruct (IH l1' H) as [-> ->]; [lia | now split].
Qed.
End MoreSliceFacts.

(** * Arity and shape *)

Section ShapeFacts.
Variable Item : Type.
Implicit Types (n c : node Item) (f : FreeList Item) (h : nat).

Lemma node_eta n : n = Node (items n) (children n).
Proof. now destruct n. Qed.

Lemma fold_right_and_Forall (P : node Item -> Prop) (l : list (node Item)) :
  fold_right (fun c Q => P c /\ Q) True l <-> Forall P l.
Proof.
  induction l as [|c l IH]; simpl.
  - split; [constructor | trivial].
  - rewrite IH. split; [intros []; now constructor | now inversion 1].
Qed.

Lemma arity_Node its chs :
  arity (Node its chs) <-> nodeArity (Node its chs) /\ Forall (@arity Item) chs.
Proof. simpl. now rewrite (fold_right_and_Forall (@arity Item)). Qed.

Lemma arity_unfold n : arity n <-> nodeArity n /\ Forall (@arity Item) (children n).
Proof. destruct n as [its chs]. apply arity_Node. Qed.

Lemma lower_unfold m n :
  lower m n <-> Forall (fun c => m <= len (items c) /\ lower m c) (children n).
Proof.
  destruct n as [its chs]. simpl.
  apply (fold_right_and_Forall (fun c => m <= len (items c) /\ lower m c)).
Qed.

Lemma shape_leaf n : shape 0 n <-> children n = [].
Proof. simpl; tauto. Qed.

Lemma shape_S h n :
  shape (S h) n <->
  len (children n) = len (items n) + 1 /\ Forall (shape h) (children n).
Proof. simpl; tauto. Qed.

(** Height balance with arity gives arity. *)
Lemma shape_arity : forall h n, shape h n -> arity n.
Proof.
  induction h as [|h IH]; intros n H; apply arity_unfold.
  - simpl in H. unfold nodeArity. rewrite H. split; [now left | constructor].
  - destruct H as [Hl Hc]. split; [now right|].
    eapply Forall_impl; [|exact Hc]. exact (IH).
Qed.

Lemma shape_height : forall h n, shape h n -> height n = h.
Proof.
  induction h as [|h IH]; intros [its chs] H; simpl in *.
  - now subst.
  - destruct H as [Hl Hc]. destruct chs as [|c chs].
    + rewrite len_nil in Hl. pose proof (len_nonneg its). lia.
    + clear Hl. revert c Hc. induction chs as [|c' chs IHc]; intros c Hc; simpl.
      * inversion Hc; subst. rewrite (IH c) by assumption. lia.
      * inversion Hc; subst. simpl in IHc. rewrite (IH c) by assumption.
        rewrite (IHc c') by assumption. lia.
Qed.

Lemma Forall_mid (P : node Item -> Prop) l1 c l2 :
  Forall P (l1 ++ c :: l2) <-> Forall P l1 /\ P c /\ Forall P l2.
Proof.
  rewrite Forall_app. split.
  - intros [H1 H2]. inversion H2; subst. tauto.
  - intros (H1 & H2 & H3). split; [assumption | now constructor].
Qed.

(** ** Split *)

(** [split] on a node cut at the pivot. *)
Lemma split_leaf il x ir i f :
  blankPool f -> len il = i ->
  exists f', split (Node (il ++ x :: ir) []) i f
             = Ret (x, Node ir [], Node il [], f') /\ blankPool f'.
Proof.
  intros Hf Hi. destruct (newNode_blank_eq Hf) as (f' & Hn & Hf').
  exists f'. split; [|exact Hf'].
  unfold split, BTree_newNode; cbn [items children].
  rewrite (index_app_mid il x ir Hi); cbn [bind]. rewrite Hn.
  rewrite (sliceFrom_app_mid il x ir Hi); cbn [bind].
  rewrite (sliceTo_app il (x :: ir) Hi); cbn [bind].
  reflexivity.
Qed.

Lemma split_internal il x ir cl cr i f :
  blankPool f -> len il = i -> len cl = i + 1 ->
  exists f', split (Node (il ++ x :: ir) (cl ++ cr)) i f
             = Ret (x, Node ir cr, Node il cl, f') /\ blankPool f'.
Proof.
  intros Hf Hi Hc. destruct (newNode_blank_eq Hf) as (f' & Hn & Hf').
  exists f'. split; [|exact Hf'].
  unfold split, BTree_newNode; cbn [items children].
  rewrite (index_app_mid il x ir Hi); cbn [bind]. rewrite Hn.
  rewrite (sliceFrom_app_mid il x ir Hi); cbn [bind].
  rewrite (sliceTo_app il (x :: ir) Hi); cbn [bind].
  assert (Hpos : (0 <? len (cl ++ cr)) = true).
  { apply Z.ltb_lt. rewrite len_app. pose proof (len_nonneg il).
    pose proof (len_nonneg cr). lia. }
  rewrite Hpos, (sliceFrom_app cl cr Hc); cbn [bind].
  rewrite (sliceTo_app cl cr Hc); cbn [bind].
  reflexivity.
Qed.

(** C4. [split(i)] on a node with more than [i] items returns the pivot
    [items[i]] and a sibling holding exactly [items[i+1:]] and, for an
    internal node, [children[i+1:]]; the node keeps [items[:i]] and
    [children[:i+1]] (a leaf has no children on either side).  When the
    node holds [2d-1] items and [i = (2d-1)/2], both halves hold [d-1]
    items. *)
Theorem split_spec n i f :
  blankPool f -> nodeArity n -> 0 <= i < len (items n) ->
  exists x f',
    index (items n) i = Ret x /\
    split n i f =
      Ret (x,
           Node (skipn (Z.to_nat (i + 1)) (items n))
                (skipn (Z.to_nat (i + 1)) (children n)),
           Node (firstn (Z.to_nat i) (items n))
                (firstn (Z.to_nat (i + 1)) (children n)),
           f') /\
    blankPool f' /\
    (forall d, len (items n) = 2 * d - 1 -> i = Z.quot (2 * d - 1) 2 ->
               len (skipn (Z.to_nat (i + 1)) (items n)) = d - 1 /\
               len (firstn (Z.to_nat i) (items n)) = d - 1).
Proof.
  intros Hf Ha Hi.
  destruct (index_in_range _ Hi) as (x & Hx).
  destruct (index_focus _ _ Hx) as (il & ir & Hits & Hil).
  destruct n as [its chs]; cbn [items children] in *. subst its.
  assert (Hsk : skipn (Z.to_nat (i + 1)) (il ++ x :: ir) = ir).
  { replace (il ++ x :: ir) with ((il ++ [x]) ++ ir) by (now rewrite <- app_assoc).
    apply skipn_len_app. rewrite len_app, len_cons, len_nil. lia. }
  rewrite Hsk, (firstn_len_app il (x :: ir) Hil).
  assert (Hhalves : forall d, len (il ++ x :: ir) = 2 * d - 1 ->
                              i = Z.quot (2 * d - 1) 2 ->
                              len ir = d - 1 /\ len il = d - 1).
  { intros d Hd Hq. rewrite len_app, len_cons in Hd.
    pose proof (len_nonneg ir).
    assert (Hq' : Z.quot (2 * d - 1) 2 = d - 1).
    { assert (1 <= d) by lia.
      rewrite Z.quot_div_nonneg by lia.
      replace (2 * d - 1) with (1 + (d - 1) * 2) by lia.
      rewrite Z.div_add by lia. reflexivity. }
    lia. }
  destruct Ha as [Hleaf | Hint]; cbn [items children] in *.
  - apply len_zero in Hleaf. subst chs.
    destruct (@split_leaf il x ir i f Hf Hil) as (f' & Hs & Hf').
    exists x, f'. rewrite firstn_nil, skipn_nil. auto.
  - assert (Hc : 0 <= i + 1 <= len chs).
    { rewrite Hint, len_app, len_cons. pose proof (len_nonneg ir). lia. }
    destruct (cut_at chs Hc) as (cl & cr & -> & Hcl).
    destruct (@split_internal il x ir cl cr i f Hf Hil Hcl) as (f' & Hs & Hf').
    exists x, f'.
    rewrite (firstn_len_app cl cr Hcl), (skipn_len_app cl cr Hcl). auto.
Qed.
End ShapeFacts.

(** * Binary search *)

Section OrderFacts.
Variables Item Ctx : Type.
Variable Less : Item -> Item -> Ctx -> bool.
Variable ctx : Ctx.
Hypothesis SWO : StrictWeakOrder Less ctx.

Local Abbreviation lt := (lessThan Less ctx).
Local Abbreviation equiv := (equivalent Less ctx).
Local Abbreviation asc := (ascending Less ctx).
Implicit Types (s l : list Item) (x y z : Item) (i j k : Z).

Lemma not_lt_iff x y : Less x y ctx = false <-> ~ lt x y.
Proof. unfold lessThan. destruct (Less x y ctx); split; congruence. Qed.

Lemma lt_asym x y : lt x y -> ~ lt y x.
Proof. intros H1 H2. exact (lt_irrefl SWO (lt_trans SWO H1 H2)). Qed.

Lemma equiv_iff x y : equiv x y <-> ~ lt x y /\ ~ lt y x.
Proof. unfold equivalent. now rewrite !not_lt_iff. Qed.

Lemma equiv_refl x : equiv x x.
Proof. apply equiv_iff. split; apply (lt_irrefl SWO). Qed.

Lemma equiv_sym x y : equiv x y -> equiv y x.
Proof. unfold equivalent. tauto. Qed.

Lemma compare_cases x y : lt x y \/ equiv x y \/ lt y x.
Proof.
  unfold lessThan, equivalent.
  destruct (Less x y ctx), (Less y x ctx); auto.
Qed.

Lemma lt_not_equiv x y : lt x y -> ~ equiv x y.
Proof. intros H E. apply equiv_iff in E. tauto. Qed.

Lemma lt_not_equiv' x y : lt x y -> ~ equiv y x.
Proof. intros H E. apply equiv_iff in E. tauto. Qed.

Lemma lt_equiv_r x y z : lt x y -> equiv y z -> lt x z.
Proof.
  intros Hxy Hyz. destruct (compare_cases x z) as [H|[H|H]]; [exact H | |].
  - exfalso. apply (lt_not_equiv Hxy). eapply (equiv_trans SWO); [exact H|].
    now apply equiv_sym.
  - exfalso. apply equiv_iff in Hyz. apply (proj2 Hyz).
    exact (lt_trans SWO H Hxy).
Qed.

Lemma equiv_lt_l x y z : equiv x y -> lt y z -> lt x z.
Proof.
  intros Hxy Hyz. destruct (compare_cases x z) as [H|[H|H]]; [exact H | |].
  - exfalso. apply (lt_not_equiv Hyz). eapply (equiv_trans SWO); [|exact H].
    now apply equiv_sym.
  - exfalso. apply equiv_iff in Hxy. apply (proj2 Hxy).
    exact (lt_trans SWO Hyz H).
Qed.

(** ** Ascending sequences *)

Lemma ascending_app l1 l2 :
  asc (l1 ++ l2) <->
  asc l1 /\ asc l2 /\ (forall a b, In a l1 -> In b l2 -> lt a b).
Proof.
  induction l1 as [|a l1 IH]; simpl.
  - intuition.
  - rewrite IH, Forall_app, !Forall_forall. split.
    + intros ((H1 & H2) & H3 & H4 & H5). repeat split; auto.
      intros a' b [<-|Ha] Hb; auto.
    + intros ((H1 & H2) & H3 & H4). repeat split; auto.
Qed.

Lemma ascending_cons x l : asc (x :: l) <-> Forall (lt x) l /\ asc l.
Proof. simpl; tauto. Qed.

Lemma ascending_mid l1 x l2 :
  asc (l1 ++ x :: l2) ->
  Forall (fun z => lt z x) l1 /\ Forall (lt x) l2 /\ asc l1 /\ asc l2.
Proof.
  intros (H1 & (H2 & H3) & H4)%ascending_app. repeat split; auto.
  apply Forall_forall. intros z Hz. apply H4; [exact Hz | now left].
Qed.

Lemma index_In s k z : index s k = Ret z -> In z s.
Proof. intros (l1 & l2 & -> & _)%index_focus. apply in_elt. Qed.

Lemma index_app_r l1 l2 k z :
  len l1 <= k -> index (l1 ++ l2) k = Ret z -> index l2 (k - len l1) = Ret z.
Proof.
  intros Hk H. unfold index, len in *.
  destruct (0 <=? k) eqn:E; [|discriminate].
  replace (0 <=? k - Z.of_nat (length l1)) with true
    by (symmetry; apply Z.leb_le; lia).
  rewrite nth_error_app2 in H by lia.
  replace (Z.to_nat (k - Z.of_nat (length l1)))
    with (Z.to_nat k - length l1)%nat by lia.
  exact H.
Qed.

Lemma index_app_l l1 l2 k z :
  k < len l1 -> index (l1 ++ l2) k = Ret z -> index l1 k = Ret z.
Proof.
  intros Hk H. unfold index, len in *.
  destruct (0 <=? k) eqn:E; [|discriminate]. apply Z.leb_le in E.
  rewrite nth_error_app1 in H by lia. exact H.
Qed.

Lemma ascending_index s k k' y z :
  asc s -> index s k = Ret y -> index s k' = Ret z -> k < k' -> lt y z.
Proof.
  intros Hs Hy Hz Hk.
  destruct (index_focus _ _ Hy) as (l1 & l2 & -> & Hl).
  apply ascending_mid in Hs as (_ & H2 & _).
  replace (l1 ++ y :: l2) with ((l1 ++ [y]) ++ l2) in Hz
    by (now rewrite <- app_assoc).
  apply index_app_r in Hz; [|rewrite len_app, len_cons, len_nil; lia].
  apply index_In in Hz. rewrite Forall_forall in H2. auto.
Qed.

(** ** The loop of [find] *)

Lemma find_loop_spec x s : asc s -> forall fuel i j,
  0 <= i <= j -> j <= len s ->
  (forall k z, index s k = Ret z -> k < i -> ~ lt x z) ->
  (forall k z, index s k = Ret z -> j <= k -> lt x z) ->
  (Z.to_nat (j - i) <= fuel)%nat ->
  exists r, find_loop Less fuel s (Some x) ctx i j = Ret r /\
            i <= r <= j /\
            (forall k z, index s k = Ret z -> (lt x z <-> r <= k)).
Proof.
  intros Hs. induction fuel as [|fuel IH]; intros i j Hij Hj Hlo Hhi Hfuel.
  - assert (i = j) by lia. subst j. exists i. simpl.
    rewrite Z.ltb_irrefl. repeat split; try lia.
    + intros Hx. destruct (Z.le_gt_cases i k); [assumption|].
      exfalso. eapply Hlo; eauto.
    + intros Hk. eapply Hhi; eauto.
  - simpl. destruct (i <? j) eqn:E.
    + apply Z.ltb_lt in E.
      assert (Hq : (j - i) ÷ 2 = (j - i) / 2) by (apply Z.quot_div_nonneg; lia).
      rewrite Hq.
      set (h := i + (j - i) / 2).
      assert (Hh : i <= h < j) by (subst h; split; [|];
        pose proof (Z.div_pos (j - i) 2); pose proof (Z.div_lt_upper_bound (j - i) 2 (j - i));
        try lia; assert ((j - i) / 2 < j - i) by (apply Z.div_lt; lia); lia).
      destruct (@index_in_range _ s h) as (sh & Hsh); [lia|].
      rewrite Hsh; cbn [bind callLess].
      destruct (Less x sh ctx) eqn:EL; cbn [negb].
      * destruct (IH i h) as (r & Hr & Hr1 & Hr2); try lia.
        -- exact Hlo.
        -- intros k z Hz Hk. destruct (Z.eq_dec k h) as [->|Hne].
           ++ rewrite Hsh in Hz. injection Hz as <-. exact EL.
           ++ eapply (lt_trans SWO); [exact EL|].
              eapply ascending_index; [exact Hs | exact Hsh | exact Hz | lia].
        -- exists r. split; [exact Hr|]. split; [lia | exact Hr2].
      * destruct (IH (h + 1) j) as (r & Hr & Hr1 & Hr2); try lia.
        -- intros k z Hz Hk. destruct (Z.eq_dec k h) as [->|Hne].
           ++ rewrite Hsh in Hz. injection Hz as <-. now apply not_lt_iff.
           ++ intros Hx. apply not_lt_iff in EL. apply EL.
              eapply (lt_trans SWO); [exact Hx|].
              eapply ascending_index; [exact Hs | exact Hz | exact Hsh | lia].
        -- exact Hhi.
        -- exists r. split; [exact Hr|]. split; [lia | exact Hr2].
    + apply Z.ltb_ge in E. assert (i = j) by lia. subst j. exists i.
      repeat split; try lia.
      * intros Hx. destruct (Z.le_gt_cases i k); [assumption|].
        exfalso. eapply Hlo; eauto.
      * intros Hk. eapply Hhi; eauto.
Qed.

(** ** [find] *)

Lemma find_nil (item : option Item) : find Less [] item ctx = Ret (0, false).
Proof. reflexivity. Qed.

Lemma find_loop_total x s :
  asc s ->
  exists r, find_loop Less (length s) s (Some x) ctx 0 (len s) = Ret r /\
            0 <= r <= len s /\
            (forall k z, index s k = Ret z -> (lt x z <-> r <= k)).
Proof.
  intros Hs. pose proof (len_nonneg s).
  apply find_loop_spec; try lia; try assumption.
  - intros k z Hz Hk. apply index_range in Hz. lia.
  - intros k z Hz Hk. apply index_range in Hz. lia.
  - unfold len. lia.
Qed.

Lemma find_correct s x :
  asc s ->
     exists i found,
       find Less s (Some x) ctx = Ret (i, found) /\
       0 <= i <= len s /\
       (found = true <-> exists z, In z s /\ equiv z x) /\
       (found = true ->
          exists y, index s i = Ret y /\ equiv y x /\
                    forall k z, index s k = Ret z -> equiv z x -> i <= k) /\
       (found = false ->
          forall k z, index s k = Ret z -> (lt x z <-> i <= k)).
Proof.
  intros Hs.
  destruct (@find_loop_total x s Hs) as (r & Hr & Hr1 & Hr2).
  assert (Hidx : forall z, In z s -> exists k, index s k = Ret z).
  { intros z Hz. apply In_nth_error in Hz as (n & Hn).
    exists (Z.of_nat n). unfold index.
    replace (0 <=? Z.of_nat n) with true by (symmetry; apply Z.leb_le; lia).
    now rewrite Nat2Z.id, Hn. }
  unfold find. rewrite Hr; cbn [bind].
  destruct (0 <? r) eqn:E.
  - apply Z.ltb_lt in E.
    destruct (@index_in_range _ s (r - 1)) as (prev & Hp); [lia|].
    rewrite Hp; cbn [bind].
    assert (Hnp : ~ lt x prev) by (rewrite (Hr2 _ _ Hp); lia).
    destruct (Less prev x ctx) eqn:EL; cbn [negb].
    + (* the item before the insertion point is smaller *)
      assert (Hnone : forall z, In z s -> ~ equiv z x).
      { intros z Hz Hzx. destruct (Hidx z Hz) as (k & Hk).
        destruct (Z.lt_ge_cases k r) as [Hlt|Hge].
        - destruct (Z.eq_dec k (r - 1)) as [He|Hne].
          + rewrite He, Hp in Hk. injection Hk as <-.
            exact (lt_not_equiv EL Hzx).
          + assert (Hzp : lt z prev)
              by (eapply ascending_index; [exact Hs | exact Hk | exact Hp | lia]).
            apply (lt_not_equiv (lt_trans SWO Hzp EL) Hzx).
        - apply (Hr2 _ _ Hk) in Hge. exact (lt_not_equiv' Hge Hzx). }
      exists r, false. split; [reflexivity|]. split; [lia|]. split; [|split].
      * split; [discriminate|].
        intros (z & Hz & Hzx). exfalso. exact (Hnone z Hz Hzx).
      * discriminate.
      * intros _ k z Hz. exact (Hr2 _ _ Hz).
    + (* the item before the insertion point is equivalent *)
      assert (Hpx : equiv prev x) by (apply equiv_iff; split;
        [now apply not_lt_iff | exact Hnp]).
      exists (r - 1), true. split; [reflexivity|]. split; [lia|]. split; [|split].
      * split; [|reflexivity]. intros _.
        exists prev. split; [eapply index_In; exact Hp | exact Hpx].
      * intros _. exists prev. split; [exact Hp|]. split; [exact Hpx|].
        intros k z Hz Hzx. destruct (Z.le_gt_cases (r - 1) k) as [|Hgt]; [assumption|].
        exfalso.
        assert (Hzp : lt z prev)
          by (eapply ascending_index; [exact Hs | exact Hz | exact Hp | lia]).
        apply (lt_not_equiv (lt_equiv_r Hzp Hpx) Hzx).
      * discriminate.
  - apply Z.ltb_ge in E. assert (r = 0) by lia. subst r.
    exists 0, false. split; [reflexivity|]. split; [lia|]. split; [|split].
    + split; [discriminate|].
      intros (z & Hz & Hzx). exfalso. destruct (Hidx z Hz) as (k & Hk).
      assert (Hxz : lt x z).
      { apply (Hr2 _ _ Hk). apply index_range in Hk. lia. }
      exact (lt_not_equiv' Hxz Hzx).
    + discriminate.
    + intros _ k z Hz. exact (Hr2 _ _ Hz).
Qed.

(** C5. On a strictly ascending slice, [find] returns [(i, true)] with
    [i] the leftmost index of an item equivalent to the probe when there
    is one, and otherwise [(i, false)] with [i] the index of the first
    item greater than the probe (the length when there is none); on the
    empty slice it returns [(0, false)]. *)
Theorem find_spec :
  (forall item, find Less [] item ctx = Ret (0, false)) /\
  (forall s x, asc s ->
     exists i found,
       find Less s (Some x) ctx = Ret (i, found) /\
       0 <= i <= len s /\
       (found = true <-> exists z, In z s /\ equiv z x) /\
       (found = true ->
          exists y, index s i = Ret y /\ equiv y x /\
                    forall k z, index s k = Ret z -> equiv z x -> i <= k) /\
       (found = false ->
          forall k z, index s k = Ret z -> (lt x z <-> i <= k))).
Proof. split; [exact find_nil | exact find_correct]. Qed.

(** The result of [find] cuts the slice around the probe. *)
Lemma find_decomp s x i found :
  asc s -> find Less s (Some x) ctx = Ret (i, found) ->
  exists il ir,
    s = il ++ ir /\ len il = i /\ Forall (fun z => lt z x) il /\
    if found
    then exists y ir', ir = y :: ir' /\ equiv y x /\ Forall (lt x) ir'
    else Forall (lt x) ir.
Proof.
  intros Hs Hf.
  destruct (@find_correct s x Hs) as (i' & found' & Hf' & Hi & Hiff & Ht & Hn).
  rewrite Hf in Hf'. injection Hf' as <- <-.
  destruct found.
  - destruct (Ht eq_refl) as (y & Hy & Hyx & Hleft).
    destruct (index_focus _ _ Hy) as (il & ir & -> & Hl).
    exists il, (y :: ir). split; [reflexivity|]. split; [exact Hl|].
    destruct (ascending_mid _ _ _ Hs) as (H1 & H2 & _).
    split.
    + eapply Forall_impl; [|exact H1]. intros z Hz. exact (lt_equiv_r Hz Hyx).
    + exists y, ir. split; [reflexivity|]. split; [exact Hyx|].
      eapply Forall_impl; [|exact H2]. intros z Hz.
      exact (equiv_lt_l (equiv_sym Hyx) Hz).
  - specialize (Hn eq_refl).
    destruct (@cut_at _ s i Hi) as (il & ir & -> & Hl).
    exists il, ir. split; [reflexivity|]. split; [exact Hl|].
    assert (Hnone : forall z, In z (il ++ ir) -> ~ equiv z x).
    { intros z Hz Hzx. assert (false = true); [|discriminate].
      apply Hiff. eauto. }
    split; apply Forall_forall; intros z Hz.
    + apply In_nth_error in Hz as (n & Hnth).
      assert (Hlen : (n < length il)%nat) by (apply nth_error_Some; congruence).
      assert (Hk : index (il ++ ir) (Z.of_nat n) = Ret z).
      { unfold index. replace (0 <=? Z.of_nat n) with true
          by (symmetry; apply Z.leb_le; lia).
        now rewrite Nat2Z.id, nth_error_app1, Hnth by assumption. }
      destruct (compare_cases z x) as [H|[H|H]]; [exact H | |].
      * exfalso. apply (Hnone z); [eapply index_In; exact Hk | exact H].
      * apply (Hn _ _ Hk) in H. unfold len in Hl. lia.
    + apply In_nth_error in Hz as (n & Hnth).
      assert (Hk : index (il ++ ir) (i + Z.of_nat n) = Ret z).
      { unfold index, len in *. replace (0 <=? i + Z.of_nat n) with true
          by (symmetry; apply Z.leb_le; lia).
        rewrite nth_error_app2 by lia.
        replace (Z.to_nat (i + Z.of_nat n) - length il)%nat with n by lia.
        now rewrite Hnth. }
      apply (Hn _ _ Hk). lia.
Qed.

(** Conversely, a cut around the probe fixes the result of [find]. *)
Lemma find_at_absent il ir x :
  asc (il ++ ir) -> Forall (fun z => lt z x) il -> Forall (lt x) ir ->
  find Less (il ++ ir) (Some x) ctx = Ret (len il, false).
Proof.
  intros Hs Hl Hr.
  destruct (@find_correct (il ++ ir) x Hs) as (i & found & Hf & Hi & Hiff & Ht & Hn).
  rewrite Forall_forall in Hl, Hr.
  assert (Hfalse : found = false).
  { destruct found; [|reflexivity]. exfalso.
    destruct (proj1 Hiff eq_refl) as (z & Hz & Hzx).
    apply in_app_or in Hz as [Hz|Hz].
    - exact (lt_not_equiv (Hl _ Hz) Hzx).
    - exact (lt_not_equiv' (Hr _ Hz) Hzx). }
  subst found. specialize (Hn eq_refl). rewrite Hf. do 2 f_equal.
  destruct (Z.lt_trichotomy i (len il)) as [Hlt|[Heq|Hgt]]; [|exact Heq|]; exfalso.
  - destruct (@index_in_range _ (il ++ ir) i) as (z & Hz).
    { rewrite len_app. pose proof (len_nonneg ir). lia. }
    assert (Hxz : lt x z) by (apply (Hn _ _ Hz); lia).
    apply index_app_l in Hz; [|exact Hlt]. apply index_In in Hz.
    exact (lt_asym Hxz (Hl _ Hz)).
  - destruct (@index_in_range _ (il ++ ir) (len il)) as (z & Hz).
    { pose proof (len_nonneg il). lia. }
    pose proof (len_nonneg il) as Hil0.
    assert (Hxz : ~ lt x z) by (rewrite (Hn _ _ Hz); lia).
    apply index_app_r in Hz; [|lia]. apply index_In in Hz.
    exact (Hxz (Hr _ Hz)).
Qed.

Lemma find_at_present il y ir x :
  asc (il ++ y :: ir) -> equiv y x ->
  find Less (il ++ y :: ir) (Some x) ctx = Ret (len il, true).
Proof.
  intros Hs Hyx.
  destruct (@find_correct (il ++ y :: ir) x Hs)
    as (i & found & Hf & Hi & Hiff & Ht & Hn).
  assert (Htrue : found = true).
  { apply Hiff. exists y. split; [apply in_elt | exact Hyx]. }
  subst found. destruct (Ht eq_refl) as (y' & Hy' & Hyx' & Hleft).
  rewrite Hf. do 2 f_equal.
  assert (Hy : index (il ++ y :: ir) (len il) = Ret y)
    by (now apply index_app_mid).
  pose proof (Hleft _ _ Hy Hyx) as Hle.
  destruct (Z.eq_dec i (len il)) as [|Hne]; [assumption|]. exfalso.
  assert (Hlt : lt y' y)
    by (eapply ascending_index; [exact Hs | exact Hy' | exact Hy | lia]).
  apply (lt_not_equiv Hlt).
  eapply (equiv_trans SWO); [exact Hyx' | now apply equiv_sym].
Qed.
End OrderFacts.

(** * The modes [removeMin] and [removeMax] *)

Section Extremum.
Variables Item Ctx : Type.
Implicit Types (n : node Item) (f : FreeList Item) (item : option Item).

Lemma removeTarget_extremum
      (Less1 Less2 : Item -> Item -> Ctx -> bool) n item1 item2 typ ctx1 ctx2 :
  typ = removeMin \/ typ = removeMax ->
  removeTarget Less1 n item1 typ ctx1 = removeTarget Less2 n item2 typ ctx2.
Proof. intros [->| ->]; reflexivity. Qed.

Lemma removeTarget_extremum_found
      (Less : Item -> Item -> Ctx -> bool) n item typ ctx i found :
  typ = removeMin \/ typ = removeMax ->
  removeTarget Less n item typ ctx = Ret (Descend i found) -> found = false.
Proof.
  intros [->| ->]; unfold removeTarget; cbn [Z.eqb removeMin removeMax removeItem Pos.eqb].
  - destruct (len (children n) =? 0).
    + destruct (removeAt (items n) 0) as [[? ?]| |]; cbn [bind]; congruence.
    + congruence.
  - destruct (len (children n) =? 0).
    + destruct (pop (items n)) as [[? ?]| |]; cbn [bind]; congruence.
    + congruence.
Qed.

(** In these modes neither the item nor the comparison is used. *)
Lemma remove_extremum_independent
      (Less1 Less2 : Item -> Item -> Ctx -> bool) (ctx1 ctx2 : Ctx) m :
  forall fuel typ, typ = removeMin \/ typ = removeMax ->
  (forall n item1 item2 f,
      remove Less1 fuel n item1 m typ ctx1 f
      = remove Less2 fuel n item2 m typ ctx2 f) /\
  (forall n i item1 item2 f,
      growChildAndRemove Less1 fuel n i item1 m typ ctx1 f
      = growChildAndRemove Less2 fuel n i item2 m typ ctx2 f).
Proof.
  induction fuel as [|fuel IH]; intros typ Htyp; [split; reflexivity|].
  destruct (IH typ Htyp) as [IHr IHg].
  split.
  - intros n item1 item2 f. cbn [remove].
    rewrite (removeTarget_extremum Less1 Less2 n item1 item2 ctx1 ctx2 Htyp).
    destruct (removeTarget Less2 n item2 typ ctx2) as [[out n'|i found]| |] eqn:ET;
      cbn [bind]; try reflexivity.
    rewrite (removeTarget_extremum_found _ _ _ _ Htyp ET).
    destruct (index (children n) i) as [child| |]; cbn [bind]; try reflexivity.
    destruct (len (items child) <=? m); [apply IHg|].
    now rewrite (IHr child item1 item2 f).
  - intros n i item1 item2 f. cbn [growChildAndRemove].
    destruct (growChild n i m f) as [[n1 f1]| |]; cbn [bind]; try reflexivity.
    apply IHr.
Qed.

(** ** No call through a nil item *)

Definition derefFree (A : Type) (o : outcome A) : Prop :=
  o <> Panic NilDereference.

Lemma derefFree_bind (A B : Type) (c : outcome A) (k : A -> outcome B) :
  derefFree c -> (forall a, derefFree (k a)) -> derefFree (bind c k).
Proof.
  unfold derefFree. destruct c; cbn [bind]; intros H1 H2.
  - apply H2.
  - intros [= ->]. now apply H1.
  - discriminate.
Qed.

Lemma derefFree_Ret (A : Type) (a : A) : derefFree (Ret a).
Proof. discriminate. Qed.

Lemma derefFree_index (A : Type) (s : list A) i : derefFree (index s i).
Proof.
  unfold derefFree, index. destruct (0 <=? i); [|discriminate].
  destruct (nth_error s (Z.to_nat i)); discriminate.
Qed.

Lemma derefFree_assign (A : Type) (s : list A) i x : derefFree (assign s i x).
Proof. unfold derefFree, assign. destruct (_ && _); discriminate. Qed.

Lemma derefFree_insertAt (A : Type) (s : list A) i x : derefFree (insertAt s i x).
Proof. unfold derefFree, insertAt. destruct (_ && _); discriminate. Qed.

Lemma derefFree_removeAt (A : Type) (s : list A) i : derefFree (removeAt s i).
Proof.
  unfold removeAt. apply derefFree_bind; [apply derefFree_index|].
  intros; apply derefFree_Ret.
Qed.

Lemma derefFree_pop (A : Type) (s : list A) : derefFree (pop s).
Proof.
  unfold pop. apply derefFree_bind; [apply derefFree_index|].
  intros; apply derefFree_Ret.
Qed.

(** Closes goals [derefFree e] for [e] built from slice operations. *)
Ltac deref_free :=
  repeat first
    [ apply derefFree_Ret
    | apply derefFree_index
    | apply derefFree_assign
    | apply derefFree_insertAt
    | apply derefFree_removeAt
    | apply derefFree_pop
    | apply derefFree_bind
    | progress cbv zeta
    | match goal with
      | |- forall _ : _ * _, _ => intros [? ?]
      | |- forall _, _ => intro
      | |- derefFree (if ?b then _ else _) => destruct b
      | |- derefFree (match ?x with _ => _ end) => destruct x
      | |- derefFree (Panic _) => discriminate
      end ].

Lemma derefFree_growChild n i m f : derefFree (growChild n i m f).
Proof. unfold growChild. deref_free. Qed.

Lemma derefFree_removeTarget (Less : Item -> Item -> Ctx -> bool) n item typ ctx :
  typ = removeMin \/ typ = removeMax ->
  derefFree (removeTarget Less n item typ ctx).
Proof.
  intros [->| ->]; unfold removeTarget;
    cbn [Z.eqb removeMin removeMax removeItem Pos.eqb]; deref_free.
Qed.

Lemma remove_extremum_derefFree (Less : Item -> Item -> Ctx -> bool) ctx m :
  forall fuel typ, typ = removeMin \/ typ = removeMax ->
  (forall n item f, derefFree (remove Less fuel n item m typ ctx f)) /\
  (forall n i item f, derefFree (growChildAndRemove Less fuel n i item m typ ctx f)).
Proof.
  induction fuel as [|fuel IH]; intros typ Htyp; [split; discriminate|].
  destruct (IH typ Htyp) as [IHr IHg].
  destruct (IH removeMax (or_intror eq_refl)) as [IHmax _].
  split.
  - intros n item f. cbn [remove].
    apply derefFree_bind; [now apply derefFree_removeTarget|].
    intros [out n'|i found]; [apply derefFree_Ret|].
    apply derefFree_bind; [apply derefFree_index|]. intros child.
    destruct (len (items child) <=? m); [apply IHg|].
    destruct found.
    + apply derefFree_bind; [apply derefFree_index|]. intros out.
      apply derefFree_bind; [apply IHmax|]. intros [[pred child'] f'].
      destruct pred; deref_free.
    + apply derefFree_bind; [apply IHr|]. deref_free.
  - intros n i item f. cbn [growChildAndRemove].
    apply derefFree_bind; [apply derefFree_growChild|].
    intros [n1 f1]. apply IHr.
Qed.

(** ** A removed extremum is never nil *)

Lemma remove_extremum_not_nil (Less : Item -> Item -> Ctx -> bool) ctx m :
  forall fuel typ, typ = removeMin \/ typ = removeMax ->
  (forall n item f n' f',
      remove Less fuel n item m typ ctx f <> Ret (None, n', f')) /\
  (forall n i item f n' f',
      growChildAndRemove Less fuel n i item m typ ctx f <> Ret (None, n', f')).
Proof.
  induction fuel as [|fuel IH]; intros typ Htyp; [split; discriminate|].
  destruct (IH typ Htyp) as [IHr IHg].
  split.
  - intros n item f n' f' H. cbn [remove] in H.
    bind_inv H. destruct a as [out n1|i found].
    + injection H as -> -> ->.
      destruct Htyp as [->| ->]; unfold removeTarget in E;
        cbn [Z.eqb removeMin removeMax removeItem Pos.eqb] in E;
        destruct (len (children n) =? 0); try discriminate;
        bind_inv E; destruct a; discriminate.
    + rewrite (removeTarget_extremum_found _ _ _ _ Htyp E) in H.
      bind_inv H. destruct (len (items a) <=? m); [exact (IHg _ _ _ _ _ _ H)|].
      bind_inv H. destruct a0 as [[out child'] f1].
      bind_inv H. injection H as -> _ _. exact (IHr _ _ _ _ _ E1).
  - intros n i item f n' f' H. cbn [growChildAndRemove] in H.
    bind_inv H. destruct a as [n1 f1]. exact (IHr _ _ _ _ _ H).
Qed.

(** C10. In the modes [removeMin] and [removeMax], [remove] returns the
    same outcome whatever the item argument and whatever the comparison
    function, so neither is consulted; called with a nil item it never
    panics on a call through the nil item. *)
Theorem remove_extremum_never_reads_item
        (Less1 Less2 : Item -> Item -> Ctx -> bool) (ctx1 ctx2 : Ctx)
        (fuel : nat) n item1 item2 (minItems : Z) f :
  remove Less1 fuel n item1 minItems removeMin ctx1 f
  = remove Less2 fuel n item2 minItems removeMin ctx2 f /\
  remove Less1 fuel n item1 minItems removeMax ctx1 f
  = remove Less2 fuel n item2 minItems removeMax ctx2 f /\
  remove Less1 fuel n None minItems removeMin ctx1 f <> Panic NilDereference /\
  remove Less1 fuel n None minItems removeMax ctx1 f <> Panic NilDereference.
Proof.
  repeat split.
  - apply remove_extremum_independent. now left.
  - apply remove_extremum_independent. now right.
  - apply remove_extremum_derefFree. now left.
  - apply remove_extremum_derefFree. now right.
Qed.
End Extremum.

(** * Growing a child *)

(** Arithmetic on lengths. *)
Ltac lens :=
  unfold len in *;
  repeat rewrite ?length_app in *;
  cbn [length] in *;
  lia.

Section GrowFacts.
Variable Item : Type.
Implicit Types (n c L R : node Item) (f : FreeList Item) (i m : Z).

Lemma index_snoc_prev (A : Type) (l1 : list A) x y l2 i :
  len l1 = i - 1 -> index (l1 ++ x :: y :: l2) (i - 1) = Ret x.
Proof. intros H. now apply index_app_mid. Qed.

Lemma index_snoc_next (A : Type) (l1 : list A) x y l2 i :
  len l1 = i - 1 -> index (l1 ++ x :: y :: l2) i = Ret y.
Proof.
  intros H.
  replace (l1 ++ x :: y :: l2) with ((l1 ++ [x]) ++ y :: l2)
    by (now rewrite <- app_assoc).
  apply index_app_mid. lens.
Qed.

Lemma assign_snoc_next (A : Type) (l1 : list A) x y z l2 i :
  len l1 = i - 1 ->
  assign (l1 ++ x :: y :: l2) i z = Ret (l1 ++ x :: z :: l2).
Proof.
  intros H.
  replace (l1 ++ x :: y :: l2) with ((l1 ++ [x]) ++ y :: l2)
    by (now rewrite <- app_assoc).
  replace (l1 ++ x :: z :: l2) with ((l1 ++ [x]) ++ z :: l2)
    by (now rewrite <- app_assoc).
  apply assign_app_mid. lens.
Qed.

Lemma removeAt_snoc_next (A : Type) (l1 : list A) x y l2 i :
  len l1 = i - 1 ->
  removeAt (l1 ++ x :: y :: l2) i = Ret (y, l1 ++ x :: l2).
Proof.
  intros H.
  replace (l1 ++ x :: y :: l2) with ((l1 ++ [x]) ++ y :: l2)
    by (now rewrite <- app_assoc).
  replace (l1 ++ x :: l2) with ((l1 ++ [x]) ++ l2)
    by (now rewrite <- app_assoc).
  apply removeAt_app_mid. lens.
Qed.

(** Steal from the left sibling [L]. *)
Lemma growChild_left il' sep ir cl' L c cr i m f lc' cc' :
  len il' = i - 1 -> len cl' = i - 1 ->
  m < len (items L) ->
  (children L = [] /\ lc' = [] /\ cc' = children c) \/
  (exists k, children L = lc' ++ [k] /\ cc' = k :: children c) ->
  growChild (Node (il' ++ sep :: ir) (cl' ++ L :: c :: cr)) i m f =
  ('(s, sl) <- pop (items L) ;;
   Ret (Node (il' ++ s :: ir)
             (cl' ++ Node sl lc' :: Node (sep :: items c) cc' :: cr), f)).
Proof.
  intros Hil Hcl Hm Hch.
  assert (Hi : (0 <? i) = true) by (apply Z.ltb_lt; lens).
  unfold growChild; cbn [items children].
  rewrite (index_snoc_next cl' L c cr i Hcl); cbn [bind].
  rewrite Hi, (index_snoc_prev cl' L c cr i Hcl); cbn [bind].
  apply Z.ltb_lt in Hm as ->.
  destruct (pop (items L)) as [[s sl]| |]; cbn [bind]; try reflexivity.
  rewrite (index_app_mid il' sep ir Hil); cbn [bind].
  rewrite insertAt_front; cbn [bind].
  rewrite (assign_app_mid il' sep s ir Hil); cbn [bind].
  destruct Hch as [(HL & -> & ->)|(k & HL & ->)]; rewrite HL.
  - cbn [len length Z.of_nat Z.ltb Z.compare bind].
    rewrite (assign_app_mid cl' L (Node sl []) (c :: cr) Hcl); cbn [bind].
    rewrite (assign_snoc_next cl' (Node sl []) c (Node (sep :: items c) (children c)) cr i Hcl).
    reflexivity.
  - assert (Hk : (0 <? len (lc' ++ [k])) = true) by (apply Z.ltb_lt; lens).
    rewrite Hk, pop_snoc; cbn [bind]. rewrite insertAt_front; cbn [bind].
    rewrite (assign_app_mid cl' L (Node sl lc') (c :: cr) Hcl); cbn [bind].
    rewrite (assign_snoc_next cl' (Node sl lc') c (Node (sep :: items c) (k :: children c)) cr i Hcl).
    reflexivity.
Qed.

(** What "no left sibling can spare an item" means at child [i]. *)
Definition noLeft (chs : list (node Item)) i m : Prop :=
  forall L, 0 < i -> index chs (i - 1) = Ret L -> len (items L) <= m.

Lemma fromLeft_false (chs : list (node Item)) i m :
  0 <= i < len chs -> noLeft chs i m ->
  (if 0 <? i
   then l <- index chs (i - 1) ;; Ret (m <? len (items l))
   else Ret false) = Ret false.
Proof.
  intros Hi Hno. destruct (0 <? i) eqn:E; [|reflexivity].
  apply Z.ltb_lt in E.
  destruct (@index_in_range _ chs (i - 1)) as (L & HL); [lia|].
  rewrite HL; cbn [bind]. f_equal. apply Z.ltb_ge. now apply (Hno L).
Qed.

(** Steal from the right sibling [R]. *)
Lemma growChild_right il sep ir' cl c R cr' i m f rc' cc' :
  len il = i -> len cl = i ->
  noLeft (cl ++ c :: R :: cr') i m ->
  m < len (items R) ->
  (children R = [] /\ rc' = [] /\ cc' = children c) \/
  (exists k, children R = k :: rc' /\ cc' = children c ++ [k]) ->
  growChild (Node (il ++ sep :: ir') (cl ++ c :: R :: cr')) i m f =
  ('(s, sr) <- removeAt (items R) 0 ;;
   Ret (Node (il ++ s :: ir')
             (cl ++ Node (items c ++ [sep]) cc' :: Node sr rc' :: cr'), f)).
Proof.
  intros Hil Hcl Hno Hm Hch.
  assert (Hcl' : len cl = (i + 1) - 1) by lia.
  unfold growChild; cbn [items children].
  rewrite (index_app_mid cl c (R :: cr') Hcl); cbn [bind].
  rewrite fromLeft_false; [|lens|exact Hno]; cbn [bind].
  assert (Hi : (i <? len (il ++ sep :: ir')) = true) by (apply Z.ltb_lt; lens).
  rewrite Hi, (index_snoc_next cl c R cr' (i + 1) Hcl'); cbn [bind].
  apply Z.ltb_lt in Hm as ->.
  destruct (removeAt (items R) 0) as [[s sr]| |]; cbn [bind]; try reflexivity.
  rewrite (index_app_mid il sep ir' Hil); cbn [bind].
  rewrite (assign_app_mid il sep s ir' Hil); cbn [bind].
  destruct Hch as [(HR & -> & ->)|(k & HR & ->)]; rewrite HR.
  - cbn [len length Z.of_nat Z.ltb Z.compare bind].
    rewrite (assign_snoc_next cl c R (Node sr []) cr' (i + 1) Hcl'); cbn [bind].
    rewrite (assign_app_mid cl c (Node (items c ++ [sep]) (children c)) (Node sr [] :: cr') Hcl).
    reflexivity.
  - assert (Hk : (0 <? len (k :: rc')) = true) by (apply Z.ltb_lt; lens).
    rewrite Hk, removeAt_front; cbn [bind].
    rewrite (assign_snoc_next cl c R (Node sr rc') cr' (i + 1) Hcl'); cbn [bind].
    rewrite (assign_app_mid cl c (Node (items c ++ [sep]) (children c ++ [k])) (Node sr rc' :: cr') Hcl).
    reflexivity.
Qed.

(** Merge child [i] with its right neighbour [R]. *)
Lemma growChild_merge_right il sep ir' cl c R cr' i m f :
  len il = i -> len cl = i ->
  noLeft (cl ++ c :: R :: cr') i m ->
  len (items R) <= m ->
  growChild (Node (il ++ sep :: ir') (cl ++ c :: R :: cr')) i m f =
  Ret (Node (il ++ ir')
            (cl ++ Node ((items c ++ [sep]) ++ items R)
                        (children c ++ children R) :: cr'),
       BTree_freeNode f R).
Proof.
  intros Hil Hcl Hno Hm.
  assert (Hcl' : len cl = (i + 1) - 1) by lia.
  unfold growChild; cbn [items children].
  rewrite (index_app_mid cl c (R :: cr') Hcl); cbn [bind].
  rewrite fromLeft_false; [|lens|exact Hno]; cbn [bind].
  assert (Hi : (i <? len (il ++ sep :: ir')) = true) by (apply Z.ltb_lt; lens).
  rewrite Hi, (index_snoc_next cl c R cr' (i + 1) Hcl'); cbn [bind].
  apply Z.ltb_ge in Hm as ->.
  assert (Hi' : (len (il ++ sep :: ir') <=? i) = false) by (apply Z.leb_gt; lens).
  rewrite Hi'; cbn [bind].
  rewrite (removeAt_app_mid il sep ir' Hil); cbn [bind].
  rewrite (removeAt_snoc_next cl c R cr' (i + 1) Hcl'); cbn [bind].
  rewrite (assign_app_mid cl c _ cr' Hcl); cbn [bind].
  reflexivity.
Qed.

(** The last child [c] merges into its left neighbour [L]. *)
Lemma growChild_merge_left il' sep cl' L c cr i m f :
  len il' = i - 1 -> len cl' = i - 1 ->
  len (items L) <= m ->
  growChild (Node (il' ++ [sep]) (cl' ++ L :: c :: cr)) i m f =
  Ret (Node il'
            (cl' ++ Node ((items L ++ [sep]) ++ items c)
                         (children L ++ children c) :: cr),
       BTree_freeNode f c).
Proof.
  intros Hil Hcl Hm.
  assert (Hi : (0 <? i) = true) by (apply Z.ltb_lt; lens).
  unfold growChild; cbn [items children].
  rewrite (index_snoc_next cl' L c cr i Hcl); cbn [bind].
  rewrite Hi, (index_snoc_prev cl' L c cr i Hcl); cbn [bind].
  apply Z.ltb_ge in Hm as ->.
  assert (Hi1 : (i <? len (il' ++ [sep])) = false) by (apply Z.ltb_ge; lens).
  rewrite Hi1; cbn [bind].
  assert (Hi2 : (len (il' ++ [sep]) <=? i) = true) by (apply Z.leb_le; lens).
  rewrite Hi2; cbn [bind].
  rewrite (removeAt_app_mid il' sep [] Hil); cbn [bind].
  replace (i - 1 + 1) with i by lia.
  rewrite (removeAt_snoc_next cl' L c cr i Hcl); cbn [bind].
  rewrite app_nil_r.
  rewrite (assign_app_mid cl' L _ cr Hcl); cbn [bind].
  reflexivity.
Qed.

(** The four ways [growChild] rewrites a node: [grown m n i n1 i'] relates
    the node [n] and the index [i] of the child to grow to the rewritten
    node [n1] and the index [i'] at which the grown child now stands. *)
Inductive grown (m : Z) : node Item -> Z -> node Item -> Z -> Prop :=
| GrownLeft il' sep ir cl' L c cr sl s lc' cc' :
    len il' = len cl' ->
    items L = sl ++ [s] ->
    m < len (items L) ->
    (children L = [] /\ lc' = [] /\ cc' = children c) \/
    (exists k, children L = lc' ++ [k] /\ cc' = k :: children c) ->
    grown m (Node (il' ++ sep :: ir) (cl' ++ L :: c :: cr)) (len cl' + 1)
          (Node (il' ++ s :: ir)
                (cl' ++ Node sl lc' :: Node (sep :: items c) cc' :: cr))
          (len cl' + 1)
| GrownRight il sep ir' cl c R cr' s sr rc' cc' :
    len il = len cl ->
    items R = s :: sr ->
    m < len (items R) ->
    (children R = [] /\ rc' = [] /\ cc' = children c) \/
    (exists k, children R = k :: rc' /\ cc' = children c ++ [k]) ->
    grown m (Node (il ++ sep :: ir') (cl ++ c :: R :: cr')) (len cl)
          (Node (il ++ s :: ir')
                (cl ++ Node (items c ++ [sep]) cc' :: Node sr rc' :: cr'))
          (len cl)
| GrownMergeRight il sep ir' cl c R cr' :
    len il = len cl ->
    len (items R) <= m ->
    grown m (Node (il ++ sep :: ir') (cl ++ c :: R :: cr')) (len cl)
          (Node (il ++ ir')
                (cl ++ Node ((items c ++ [sep]) ++ items R)
                            (children c ++ children R) :: cr'))
          (len cl)
| GrownMergeLeft il' sep cl' L c :
    len il' = len cl' ->
    len (items L) <= m ->
    grown m (Node (il' ++ [sep]) (cl' ++ [L; c])) (len cl' + 1)
          (Node il'
                (cl' ++ [Node ((items L ++ [sep]) ++ items c)
                              (children L ++ children c)]))
          (len cl').

(** A node of positive height, cut at a child. *)
Lemma shape_focus h n i c :
  shape (S h) n -> index (children n) i = Ret c ->
  exists il ir cl cr,
    n = Node (il ++ ir) (cl ++ c :: cr) /\
    len il = i /\ len cl = i /\ len cr = len ir.
Proof.
  intros [Hlen _] Hc. destruct n as [its chs]; cbn [items children] in *.
  destruct (index_focus _ _ Hc) as (cl & cr & -> & Hcl).
  assert (Hi : 0 <= i <= len its) by lens.
  destruct (@cut_at _ its i Hi) as (il & ir & -> & Hil).
  exists il, ir, cl, cr. repeat split; try assumption. lens.
Qed.

(** Every successful [growChild] on a node of positive height is one of
    the four rewritings. *)
Lemma growChild_inv h n i m f n1 f1 :
  shape (S h) n -> growChild n i m f = Ret (n1, f1) ->
  exists i', grown m n i n1 i' /\
             (f1 = f \/ exists x, f1 = BTree_freeNode f x).
Proof.
  intros Hshape H.
  assert (Hc : exists c, index (children n) i = Ret c).
  { unfold growChild in H. bind_inv H. eauto. }
  destruct Hc as (c & Hc).
  destruct (@shape_focus h n i c Hshape Hc) as (il & ir & cl & cr & -> & Hil & Hcl & Hlr).
  clear Hc Hshape.
  destruct (snoc_cases cl) as [->|(cl' & L & ->)].
  - (* the first child *)
    assert (Hi0 : i = 0) by lens.
    assert (il = []) by (apply len_zero; lens). subst il.
    clear Hil Hcl. subst i.
    assert (Hno : noLeft ([] ++ c :: cr) 0 m) by (intros L HL; lia).
    destruct ir as [|sep ir'].
    + assert (cr = []) by (apply len_zero; lens). subst cr.
      cbv in H. discriminate.
    + destruct cr as [|R cr']; [exfalso; lens|].
      destruct (Z.lt_ge_cases m (len (items R))) as [Hm|Hm].
      * destruct (children R) as [|k rc'] eqn:ER.
        -- rewrite (@growChild_right [] sep ir' [] c R cr' 0 m f [] (children c))
             in H; auto.
           bind_inv H. destruct a as [s sr]. injection H as <- <-.
           apply removeAt_inv in E as (l1 & l2 & E1 & -> & E3).
           apply len_zero in E3. subst l1. exists 0.
           split; [|now left].
           apply (@GrownRight m [] sep ir' [] c R cr' s l2 [] (children c)); auto.
        -- rewrite (@growChild_right [] sep ir' [] c R cr' 0 m f rc' (children c ++ [k]))
             in H; eauto.
           bind_inv H. destruct a as [s sr]. injection H as <- <-.
           apply removeAt_inv in E as (l1 & l2 & E1 & -> & E3).
           apply len_zero in E3. subst l1. exists 0.
           split; [|now left].
           apply (@GrownRight m [] sep ir' [] c R cr' s l2 rc' (children c ++ [k])); eauto.
      * rewrite (@growChild_merge_right [] sep ir' [] c R cr' 0 m f) in H; auto.
        injection H as <- <-. exists 0.
        split; [|right; eauto].
        now apply (@GrownMergeRight m [] sep ir' [] c R cr').
  - (* a child with a left sibling *)
    assert (Hil' : exists il' sep, il = il' ++ [sep]).
    { destruct (snoc_cases il) as [->|(il' & sep & ->)]; [exfalso; lens | eauto]. }
    destruct Hil' as (il' & sep & ->).
    assert (Hl1 : len il' = i - 1) by lens.
    assert (Hl2 : len cl' = i - 1) by lens.
    assert (Hl3 : len il' = len cl') by lia.
    assert (Hi : i = len cl' + 1) by lia.
    rewrite <- !app_assoc in *. cbn [app] in *.
    rewrite Hi in H |- *.
    destruct (Z.lt_ge_cases m (len (items L))) as [Hm|Hm].
    + destruct (snoc_cases (children L)) as [EL|(lc' & k & EL)].
      * rewrite (@growChild_left il' sep ir cl' L c cr (len cl' + 1) m f [] (children c))
          in H; auto; try lia.
        bind_inv H. destruct a as [s sl]. injection H as <- <-.
        apply pop_inv in E. eexists. split; [|now left].
        apply (@GrownLeft m il' sep ir cl' L c cr sl s [] (children c)); auto.
      * rewrite (@growChild_left il' sep ir cl' L c cr (len cl' + 1) m f lc' (k :: children c))
          in H; eauto; try lia.
        bind_inv H. destruct a as [s sl]. injection H as <- <-.
        apply pop_inv in E. eexists. split; [|now left].
        apply (@GrownLeft m il' sep ir cl' L c cr sl s lc' (k :: children c)); eauto.
    + destruct ir as [|sep' ir'].
      * assert (cr = []) by (apply len_zero; lens). subst cr.
        rewrite (@growChild_merge_left il' sep cl' L c [] (len cl' + 1) m f)
          in H; auto; try lia.
        injection H as <- <-. eexists. split; [|right; eauto].
        now apply (@GrownMergeLeft m il' sep cl' L c).
      * destruct cr as [|R cr']; [exfalso; lens|].
        assert (Hno : noLeft ((cl' ++ [L]) ++ c :: R :: cr') (len (cl' ++ [L])) m).
        { intros L' _ HL'.
          replace (len (cl' ++ [L]) - 1) with (len cl') in HL' by lens.
          rewrite <- app_assoc in HL'. cbn [app] in HL'.
          rewrite (index_app_mid cl' L (c :: R :: cr') eq_refl) in HL'.
          now injection HL' as <-. }
        assert (Hl4 : len (il' ++ [sep]) = len (cl' ++ [L])) by lens.
        replace (len cl' + 1) with (len (cl' ++ [L])) in * by lens.
        replace (il' ++ sep :: sep' :: ir') with ((il' ++ [sep]) ++ sep' :: ir') in *
          by (now rewrite <- app_assoc).
        replace (cl' ++ L :: c :: R :: cr') with ((cl' ++ [L]) ++ c :: R :: cr') in *
          by (now rewrite <- app_assoc).
        destruct (Z.lt_ge_cases m (len (items R))) as [Hm'|Hm'].
        -- destruct (children R) as [|k rc'] eqn:ER.
           ++ rewrite (@growChild_right (il' ++ [sep]) sep' ir' (cl' ++ [L]) c R cr'
                         (len (cl' ++ [L])) m f [] (children c)) in H; auto.
              bind_inv H. destruct a as [s sr]. injection H as <- <-.
              apply removeAt_inv in E as (l1 & l2 & E1 & -> & E3).
              apply len_zero in E3. subst l1. eexists. split; [|now left].
              apply (@GrownRight m (il' ++ [sep]) sep' ir' (cl' ++ [L]) c R cr'
                                 s l2 [] (children c)); auto.
           ++ rewrite (@growChild_right (il' ++ [sep]) sep' ir' (cl' ++ [L]) c R cr'
                         (len (cl' ++ [L])) m f rc' (children c ++ [k])) in H; eauto.
              bind_inv H. destruct a as [s sr]. injection H as <- <-.
              apply removeAt_inv in E as (l1 & l2 & E1 & -> & E3).
              apply len_zero in E3. subst l1. eexists. split; [|now left].
              apply (@GrownRight m (il' ++ [sep]) sep' ir' (cl' ++ [L]) c R cr'
                                 s l2 rc' (children c ++ [k])); eauto.
        -- rewrite (@growChild_merge_right (il' ++ [sep]) sep' ir' (cl' ++ [L]) c R cr'
                      (len (cl' ++ [L])) m f) in H; auto.
           injection H as <- <-. eexists. split; [|right; eauto].
           now apply (@GrownMergeRight m (il' ++ [sep]) sep' ir' (cl' ++ [L]) c R cr').
Qed.

(** ** Traversals *)

Local Abbreviation flat := (map (@toList Item)).

Lemma toList_Node its chs : toList (Node its chs) = interleave (flat chs) its.
Proof. reflexivity. Qed.

Lemma toList_eta n : toList n = interleave (flat (children n)) (items n).
Proof. now destruct n. Qed.

Lemma interleave_nil (its : list Item) : interleave [] its = its.
Proof. reflexivity. Qed.

Lemma interleave_single (t : list Item) : interleave [t] [] = t.
Proof. simpl. now rewrite app_nil_r. Qed.

Lemma interleave_app (cs1 cs2 : list (list Item)) : forall is1 is2,
  length cs1 = length is1 ->
  interleave (cs1 ++ cs2) (is1 ++ is2)
  = interleave cs1 is1 ++ interleave cs2 is2.
Proof.
  induction cs1 as [|c cs1 IH]; intros [|i is1] is2 Hl; try discriminate.
  - reflexivity.
  - injection Hl as Hl. cbn [app interleave]. rewrite (IH is1 is2 Hl).
    now rewrite <- app_assoc.
Qed.

Lemma interleave_app_sep (cs1 cs2 : list (list Item)) sep : forall is1 is2,
  length cs1 = S (length is1) ->
  interleave (cs1 ++ cs2) (is1 ++ sep :: is2)
  = interleave cs1 is1 ++ sep :: interleave cs2 is2.
Proof.
  induction cs1 as [|c cs1 IH]; intros is1 is2 Hl; [discriminate|].
  destruct is1 as [|i is1].
  - destruct cs1; [|discriminate]. cbn [app interleave concat].
    now rewrite app_nil_r.
  - injection Hl as Hl. cbn [app interleave]. rewrite (IH is1 is2 Hl).
    now rewrite <- app_assoc.
Qed.

Lemma interleave_snoc (cs : list (list Item)) k its s :
  length cs = S (length its) ->
  interleave (cs ++ [k]) (its ++ [s]) = interleave cs its ++ s :: k.
Proof.
  intros Hl. rewrite (interleave_app_sep cs [k] s its [] Hl).
  now rewrite interleave_single.
Qed.

Lemma interleave_head (t t' : list Item) rest its :
  interleave ((t ++ t') :: rest) its = t ++ interleave (t' :: rest) its.
Proof. destruct its; cbn [interleave]; now rewrite <- app_assoc. Qed.

Lemma interleave_leaf_In (cs : list (list Item)) : forall its z,
  In z its -> In z (interleave cs its).
Proof.
  induction cs as [|c cs IH]; intros its z Hz; [exact Hz|].
  destruct its as [|i its]; [contradiction|]. cbn [interleave].
  apply in_or_app. right. destruct Hz as [->|Hz]; [now left | right; auto].
Qed.

Lemma items_In_toList n z : In z (items n) -> In z (toList n).
Proof. rewrite toList_eta. apply interleave_leaf_In. Qed.

Lemma length_len (A : Type) (l1 : list A) (B : Type) (l2 : list B) :
  len l1 = len l2 -> length l1 = length l2.
Proof. unfold len. lia. Qed.

Lemma length_len_S (A : Type) (l1 : list A) (B : Type) (l2 : list B) :
  len l1 = len l2 + 1 -> length l1 = S (length l2).
Proof. unfold len. lia. Qed.

(** The traversal of a node cut at a child. *)
Lemma toList_focus il ir cl cr :
  len il = len cl ->
  toList (Node (il ++ ir) (cl ++ cr))
  = interleave (flat cl) il ++ interleave (flat cr) ir.
Proof.
  intros Hl. rewrite toList_Node, map_app. apply interleave_app.
  rewrite length_map. symmetry. now apply length_len.
Qed.

(** Moving the last item and child of [L] across the separator. *)
Lemma steal_left_toList h L c sl s sep lc' cc' :
  shape h L -> shape h c ->
  items L = sl ++ [s] ->
  (children L = [] /\ lc' = [] /\ cc' = children c) \/
  (exists k, children L = lc' ++ [k] /\ cc' = k :: children c) ->
  exists kp,
    toList L = toList (Node sl lc') ++ s :: kp /\
    toList (Node (sep :: items c) cc') = kp ++ sep :: toList c.
Proof.
  intros HL Hc Hits Hch. destruct h as [|h].
  - simpl in HL, Hc. exists [].
    destruct Hch as [(_ & -> & ->)|(k & Hk & _)].
    + rewrite (toList_eta L), (toList_eta c), HL, Hc, Hits. split; reflexivity.
    + rewrite HL in Hk. now destruct lc'.
  - destruct HL as [HL1 HL2], Hc as [Hc1 Hc2].
    destruct Hch as [(E & _ & _)|(k & Hk & ->)].
    + rewrite E in HL1. exfalso. lens.
    + exists (toList k). rewrite (toList_eta L), (toList_eta c), Hk, Hits.
      rewrite !toList_Node, map_app. cbn [map].
      rewrite interleave_snoc; [split; reflexivity|].
      rewrite length_map. rewrite Hk, Hits in HL1. lens.
Qed.

(** Moving the first item and child of [R] across the separator. *)
Lemma steal_right_toList h R c s sr sep rc' cc' :
  shape h R -> shape h c ->
  items R = s :: sr ->
  (children R = [] /\ rc' = [] /\ cc' = children c) \/
  (exists k, children R = k :: rc' /\ cc' = children c ++ [k]) ->
  exists kp,
    toList R = kp ++ s :: toList (Node sr rc') /\
    toList (Node (items c ++ [sep]) cc') = toList c ++ sep :: kp.
Proof.
  intros HR Hc Hits Hch. destruct h as [|h].
  - simpl in HR, Hc. exists [].
    destruct Hch as [(_ & -> & ->)|(k & Hk & _)].
    + rewrite (toList_eta R), (toList_eta c), HR, Hc, Hits.
      split; reflexivity.
    + rewrite HR in Hk. discriminate.
  - destruct HR as [HR1 HR2], Hc as [Hc1 Hc2].
    destruct Hch as [(E & _ & _)|(k & Hk & ->)].
    + rewrite E in HR1. exfalso. lens.
    + exists (toList k). rewrite (toList_eta R), (toList_eta c), Hk, Hits.
      rewrite !toList_Node, map_app. cbn [map interleave].
      split; [reflexivity|].
      apply interleave_snoc. rewrite length_map. lens.
Qed.

(** Merging two siblings around their separator. *)
Lemma merge_toList h c R sep :
  shape h c -> shape h R ->
  toList (Node ((items c ++ [sep]) ++ items R) (children c ++ children R))
  = toList c ++ sep :: toList R.
Proof.
  intros Hc HR. rewrite (toList_eta c), (toList_eta R), toList_Node.
  destruct h as [|h].
  - simpl in Hc, HR. rewrite Hc, HR. cbn [app map interleave].
    now rewrite <- app_assoc.
  - destruct Hc as [Hc1 _]. rewrite <- app_assoc, map_app. cbn [app].
    apply interleave_app_sep. rewrite length_map. lens.
Qed.

Lemma interleave_two (t t' : list Item) rest sep its :
  interleave (t :: t' :: rest) (sep :: its)
  = t ++ sep :: interleave (t' :: rest) its.
Proof. reflexivity. Qed.

(** [growChild] keeps the traversal. *)
Lemma grown_toList h m n i n1 i' :
  shape (S h) n -> grown m n i n1 i' -> toList n1 = toList n.
Proof.
  intros [_ Hch] G. cbn [children] in Hch.
  destruct G as [il' sep ir cl' L c cr sl s lc' cc' Hl Hits Hm Hk
                |il sep ir' cl c R cr' s sr rc' cc' Hl Hits Hm Hk
                |il sep ir' cl c R cr' Hl Hm
                |il' sep cl' L c Hl Hm];
    cbn [children] in Hch.
  - apply Forall_mid in Hch as (_ & HL & Hch).
    inversion Hch as [|? ? Hc _]; subst.
    destruct (@steal_left_toList h L c sl s sep lc' cc' HL Hc Hits Hk)
      as (kp & E1 & E2).
    rewrite !toList_focus by assumption. f_equal.
    cbn [map]. rewrite !interleave_two, E1, E2.
    replace (kp ++ sep :: toList c) with ((kp ++ [sep]) ++ toList c)
      by (now rewrite <- app_assoc).
    rewrite interleave_head, <- !app_assoc. reflexivity.
  - apply Forall_mid in Hch as (_ & Hc & Hch).
    inversion Hch as [|? ? HR _]; subst.
    destruct (@steal_right_toList h R c s sr sep rc' cc' HR Hc Hits Hk)
      as (kp & E1 & E2).
    rewrite !toList_focus by assumption. f_equal.
    cbn [map]. rewrite !interleave_two, E1, E2.
    replace (kp ++ s :: toList (Node sr rc'))
      with ((kp ++ [s]) ++ toList (Node sr rc')) by (now rewrite <- app_assoc).
    rewrite interleave_head, <- !app_assoc. reflexivity.
  - apply Forall_mid in Hch as (_ & Hc & Hch).
    inversion Hch as [|? ? HR _]; subst.
    rewrite !toList_focus by assumption. f_equal.
    cbn [map]. rewrite interleave_two, (@merge_toList h c R sep Hc HR).
    replace (toList c ++ sep :: toList R) with ((toList c ++ [sep]) ++ toList R)
      by (now rewrite <- app_assoc).
    rewrite interleave_head, <- !app_assoc. reflexivity.
  - apply Forall_mid in Hch as (_ & HL & Hch).
    inversion Hch as [|? ? Hc _]; subst.
    replace il' with (il' ++ []) at 1 by apply app_nil_r.
    rewrite !toList_focus by assumption. f_equal.
    cbn [map]. rewrite interleave_two, !interleave_single.
    apply (@merge_toList h L c sep HL Hc).
Qed.

(** ** Shape and bounds *)

Lemma shape_Node_leaf (its : list Item) : shape 0 (Node its []).
Proof. reflexivity. Qed.

Lemma steal_left_shape h L c sl s sep lc' cc' :
  shape h L -> shape h c ->
  items L = sl ++ [s] ->
  (children L = [] /\ lc' = [] /\ cc' = children c) \/
  (exists k, children L = lc' ++ [k] /\ cc' = k :: children c) ->
  shape h (Node sl lc') /\ shape h (Node (sep :: items c) cc').
Proof.
  intros HL Hc Hits Hch. destruct h as [|h].
  - simpl in HL, Hc. destruct Hch as [(_ & -> & ->)|(k & Hk & _)].
    + rewrite Hc. split; reflexivity.
    + rewrite HL in Hk. now destruct lc'.
  - destruct HL as [HL1 HL2], Hc as [Hc1 Hc2].
    destruct Hch as [(E & _ & _)|(k & Hk & ->)].
    + rewrite E in HL1. exfalso. lens.
    + rewrite Hk in HL1, HL2. rewrite Hits in HL1.
      apply Forall_app in HL2 as [HL2 HL3]. inversion HL3; subst.
      split; (split; [cbn [items children]; lens|]); cbn [children];
        [assumption | now constructor].
Qed.

Lemma steal_right_shape h R c s sr sep rc' cc' :
  shape h R -> shape h c ->
  items R = s :: sr ->
  (children R = [] /\ rc' = [] /\ cc' = children c) \/
  (exists k, children R = k :: rc' /\ cc' = children c ++ [k]) ->
  shape h (Node sr rc') /\ shape h (Node (items c ++ [sep]) cc').
Proof.
  intros HR Hc Hits Hch. destruct h as [|h].
  - simpl in HR, Hc. destruct Hch as [(_ & -> & ->)|(k & Hk & _)].
    + rewrite Hc. split; reflexivity.
    + rewrite HR in Hk. discriminate.
  - destruct HR as [HR1 HR2], Hc as [Hc1 Hc2].
    destruct Hch as [(E & _ & _)|(k & Hk & ->)].
    + rewrite E in HR1. exfalso. lens.
    + rewrite Hk in HR1, HR2. rewrite Hits in HR1.
      inversion HR2; subst.
      split; (split; [cbn [items children]; lens|]); cbn [children];
        [assumption | apply Forall_app; split; [assumption | now constructor]].
Qed.

Lemma merge_shape h c R sep :
  shape h c -> shape h R ->
  shape h (Node ((items c ++ [sep]) ++ items R) (children c ++ children R)).
Proof.
  intros Hc HR. destruct h as [|h].
  - simpl in *. now rewrite Hc, HR.
  - destruct Hc as [Hc1 Hc2], HR as [HR1 HR2].
    split; cbn [items children]; [lens | now apply Forall_app].
Qed.

(** [growChild] keeps arity and balance. *)
Lemma grown_shape h m n i n1 i' :
  shape (S h) n -> grown m n i n1 i' -> shape (S h) n1.
Proof.
  intros [Hlen Hch] G.
  destruct G as [il' sep ir cl' L c cr sl s lc' cc' Hl Hits Hm Hk
                |il sep ir' cl c R cr' s sr rc' cc' Hl Hits Hm Hk
                |il sep ir' cl c R cr' Hl Hm
                |il' sep cl' L c Hl Hm];
    cbn [items children] in *.
  - apply Forall_mid in Hch as (H1 & HL & Hch).
    inversion Hch as [|? ? Hc Hcr]; subst.
    destruct (@steal_left_shape h L c sl s sep lc' cc' HL Hc Hits Hk) as [S1 S2].
    split; [cbn [items children]; lens | cbn [children]]. apply Forall_mid. repeat split; try assumption.
    now constructor.
  - apply Forall_mid in Hch as (H1 & Hc & Hch).
    inversion Hch as [|? ? HR Hcr]; subst.
    destruct (@steal_right_shape h R c s sr sep rc' cc' HR Hc Hits Hk) as [S1 S2].
    split; [cbn [items children]; lens | cbn [children]]. apply Forall_mid. repeat split; try assumption.
    now constructor.
  - apply Forall_mid in Hch as (H1 & Hc & Hch).
    inversion Hch as [|? ? HR Hcr]; subst.
    split; [cbn [items children]; lens | cbn [children]]. apply Forall_mid. repeat split; try assumption.
    now apply merge_shape.
  - apply Forall_mid in Hch as (H1 & HL & Hch).
    inversion Hch as [|? ? Hc Hcr]; subst.
    split; [cbn [items children]; lens | cbn [children]]. apply Forall_mid. repeat split; try assumption.
    now apply merge_shape.
Qed.

Local Abbreviation low m := (fun c : node Item => m <= len (items c) /\ lower m c).

Lemma lower_Node m (its : list Item) chs :
  lower m (Node its chs) <-> Forall (low m) chs.
Proof. apply (lower_unfold m (Node its chs)). Qed.

(** [growChild] keeps the lower bound on the items of the nodes below,
    the children of the node included. *)
Lemma grown_lower m n i n1 i' :
  lower m n -> grown m n i n1 i' -> lower m n1.
Proof.
  intros Hlow G.
  destruct G as [il' sep ir cl' L c cr sl s lc' cc' Hl Hits Hm Hk
                |il sep ir' cl c R cr' s sr rc' cc' Hl Hits Hm Hk
                |il sep ir' cl c R cr' Hl Hm
                |il' sep cl' L c Hl Hm];
    apply lower_Node in Hlow; apply lower_Node.
  - apply Forall_mid in Hlow as (H1 & [HL1 HL2] & Hlow).
    inversion Hlow as [|? ? [Hc1 Hc2] Hcr]; subst.
    apply lower_unfold in HL2, Hc2.
    apply Forall_mid. split; [assumption|]. split.
    + split; [cbn [items]; rewrite Hits in Hm; lens|].
      apply lower_Node. destruct Hk as [(_ & -> & _)|(k & Hk & _)]; [constructor|].
      rewrite Hk in HL2. now apply Forall_app in HL2 as [? _].
    + constructor; [|assumption].
      split; [cbn [items]; lens|]. apply lower_Node.
      destruct Hk as [(_ & _ & ->)|(k & Hk & ->)]; [assumption|].
      rewrite Hk in HL2. apply Forall_app in HL2 as [_ HL2].
      inversion HL2; subst. now constructor.
  - apply Forall_mid in Hlow as (H1 & [Hc1 Hc2] & Hlow).
    inversion Hlow as [|? ? [HR1 HR2] Hcr]; subst.
    apply lower_unfold in HR2, Hc2.
    apply Forall_mid. split; [assumption|]. split.
    + split; [cbn [items]; lens|]. apply lower_Node.
      destruct Hk as [(_ & _ & ->)|(k & Hk & ->)]; [assumption|].
      rewrite Hk in HR2. inversion HR2; subst.
      apply Forall_app. split; [assumption | now constructor].
    + constructor; [|assumption].
      split; [cbn [items]; rewrite Hits in Hm; lens|]. apply lower_Node.
      destruct Hk as [(_ & -> & _)|(k & Hk & _)]; [constructor|].
      rewrite Hk in HR2. now inversion HR2.
  - apply Forall_mid in Hlow as (H1 & [Hc1 Hc2] & Hlow).
    inversion Hlow as [|? ? [HR1 HR2] Hcr]; subst.
    apply lower_unfold in HR2, Hc2.
    apply Forall_mid. split; [assumption|]. split; [|assumption].
    split; [cbn [items]; lens|]. apply lower_Node. now apply Forall_app.
  - apply Forall_mid in Hlow as (H1 & [HL1 HL2] & Hlow).
    inversion Hlow as [|? ? [Hc1 Hc2] Hcr]; subst.
    apply lower_unfold in HL2, Hc2.
    apply Forall_mid. split; [assumption|]. split; [|constructor].
    split; [cbn [items]; lens|]. apply lower_Node. now apply Forall_app.
Qed.

(** The grown child holds more items than the child it comes from. *)
Lemma grown_child m n i n1 i' c :
  grown m n i n1 i' -> index (children n) i = Ret c ->
  exists c', index (children n1) i' = Ret c' /\
             len (items c) < len (items c').
Proof.
  intros G Hc.
  destruct G as [il' sep ir cl' L c0 cr sl s lc' cc' Hl Hits Hm Hk
                |il sep ir' cl c0 R cr' s sr rc' cc' Hl Hits Hm Hk
                |il sep ir' cl c0 R cr' Hl Hm
                |il' sep cl' L c0 Hl Hm];
    cbn [children] in *.
  - rewrite (index_snoc_next cl' L c0 cr (len cl' + 1)) in Hc by lia.
    injection Hc as <-. eexists.
    rewrite (index_snoc_next cl' _ _ cr (len cl' + 1)) by lia.
    split; [reflexivity|]. cbn [items]. lens.
  - rewrite (index_app_mid cl c0 (R :: cr') eq_refl) in Hc.
    injection Hc as <-. eexists.
    rewrite (index_app_mid cl _ _ eq_refl).
    split; [reflexivity|]. cbn [items]. lens.
  - rewrite (index_app_mid cl c0 (R :: cr') eq_refl) in Hc.
    injection Hc as <-. eexists.
    rewrite (index_app_mid cl _ _ eq_refl).
    split; [reflexivity|]. cbn [items]. lens.
  - rewrite (index_snoc_next cl' L c0 [] (len cl' + 1)) in Hc by lia.
    injection Hc as <-. eexists.
    rewrite (index_app_mid cl' _ _ eq_refl).
    split; [reflexivity|]. cbn [items]. lens.
Qed.

Lemma growChild_blankPool n i m f n1 f1 :
  blankPool f -> growChild n i m f = Ret (n1, f1) -> blankPool f1.
Proof.
  intros Hf H. unfold growChild in H.
  repeat match type of H with
         | bind _ _ = Ret _ => bind_inv H
         | (if ?b then _ else _) = Ret _ => destruct b
         | (match ?x with _ => _ end) = Ret _ => destruct x
         | (let _ := _ in _) = Ret _ => cbv zeta in H
         end;
    injection H as <- <-; try assumption;
    apply freeNode_blankPool; try assumption; apply isBlank_blank.
Qed.
End GrowFacts.

(** * Preservation of arity and shape *)

Section Preservation.
Variables Item Ctx : Type.
Variable Less : Item -> Item -> Ctx -> bool.
Implicit Types (n c : node Item) (f : FreeList Item) (i m : Z) (h : nat)
         (x : Item).

Lemma split_inv n i f x next n' f' :
  blankPool f -> split n i f = Ret (x, next, n', f') ->
  exists il ir,
    items n = il ++ x :: ir /\ len il = i /\ blankPool f' /\
    ((children n = [] /\ next = Node ir [] /\ n' = Node il []) \/
     (exists cl cr, children n = cl ++ cr /\ len cl = i + 1 /\
                    next = Node ir cr /\ n' = Node il cl)).
Proof.
  intros Hf H. pose proof H as H0. unfold split in H0.
  bind_inv H0. destruct (index_focus _ _ E) as (il & ir & Hits & Hil).
  destruct (BTree_newNode f) as [nx fx].
  bind_inv H0. bind_inv H0.
  destruct n as [its chs]; cbn [items children] in *. subst its.
  destruct (0 <? len chs) eqn:Ech.
  - bind_inv H0. apply sliceFrom_inv in E2 as (cl & -> & Hcl).
    destruct (@split_internal _ il a ir cl a2 i f Hf Hil Hcl) as (f2 & Hs & Hf2).
    rewrite Hs in H. injection H as <- <- <- <-.
    exists il, ir. repeat split; try assumption. right.
    exists cl, a2. repeat split; assumption.
  - apply Z.ltb_ge in Ech. assert (chs = []) by (apply len_zero; lens). subst chs.
    destruct (@split_leaf _ il a ir i f Hf Hil) as (f2 & Hs & Hf2).
    rewrite Hs in H. injection H as <- <- <- <-.
    exists il, ir. repeat split; try assumption. now left.
Qed.

Lemma maybeSplitChild_inv n i maxItems f b n' f' :
  maybeSplitChild n i maxItems f = Ret (b, n', f') ->
  exists cl c cr,
    children n = cl ++ c :: cr /\ len cl = i /\
    ((b = false /\ n' = n /\ f' = f /\ len (items c) < maxItems) \/
     (b = true /\ maxItems <= len (items c) /\
      exists x c2 c1 il ir,
        split c (Z.quot maxItems 2) f = Ret (x, c2, c1, f') /\
        items n = il ++ ir /\ len il = i /\
        n' = Node (il ++ x :: ir) (cl ++ c1 :: c2 :: cr))).
Proof.
  intros H. unfold maybeSplitChild in H. bind_inv H.
  destruct (index_focus _ _ E) as (cl & cr & Hch & Hcl).
  exists cl, a, cr. split; [assumption|]. split; [assumption|].
  destruct (len (items a) <? maxItems) eqn:Em.
  - injection H as <- <- <-. apply Z.ltb_lt in Em. left. auto.
  - apply Z.ltb_ge in Em. right. split; [|split; [assumption|]].
    + bind_inv H. destruct a0 as [[[x c2] c1] f1].
      bind_inv H. bind_inv H. bind_inv H. now injection H as <- _ _.
    + bind_inv H. destruct a0 as [[[x c2] c1] f1].
      bind_inv H. bind_inv H. bind_inv H. injection H as _ <- <-.
      rewrite Hch, (assign_app_mid cl a c1 cr Hcl) in E1. injection E1 as <-.
      apply insertAt_inv in E2 as (il & ir & Hits & -> & Hil).
      replace (cl ++ c1 :: cr) with ((cl ++ [c1]) ++ cr) in E3
        by (now rewrite <- app_assoc).
      rewrite insertAt_app in E3 by lens. injection E3 as <-.
      exists x, c2, c1, il, ir. rewrite <- app_assoc. auto.
Qed.

(** ** Arity *)

Lemma arity_intro (its : list Item) chs :
  len chs = 0 \/ len chs = len its + 1 ->
  Forall (@arity Item) chs -> arity (Node its chs).
Proof. intros H1 H2. apply arity_Node. split; assumption. Qed.

Lemma arity_elim n :
  arity n ->
  (len (children n) = 0 \/ len (children n) = len (items n) + 1) /\
  Forall (@arity Item) (children n).
Proof. intros H. now apply arity_unfold in H. Qed.

Lemma split_arity n i f x next n' f' :
  arity n -> blankPool f -> split n i f = Ret (x, next, n', f') ->
  arity next /\ arity n' /\ blankPool f'.
Proof.
  intros Ha Hf H. apply arity_elim in Ha as [Hn Hc].
  destruct (split_inv _ _ Hf H) as (il & ir & Hits & Hil & Hf' & Hcase).
  destruct Hcase as [(_ & -> & ->)|(cl & cr & Hch & Hcl & -> & ->)].
  - split; [|split]; try assumption; apply arity_intro; auto.
  - rewrite Hch in Hc, Hn. rewrite Hits in Hn.
    apply Forall_app in Hc as [Hc1 Hc2].
    split; [|split]; try assumption; apply arity_intro; auto; right;
      destruct Hn; lens.
Qed.

Lemma maybeSplitChild_arity n i maxItems f b n' f' :
  arity n -> blankPool f ->
  maybeSplitChild n i maxItems f = Ret (b, n', f') ->
  arity n' /\ blankPool f'.
Proof.
  intros Ha Hf H.
  destruct (maybeSplitChild_inv _ _ _ _ H) as (cl & c & cr & Hch & Hcl & Hcase).
  destruct Hcase as [(_ & -> & -> & _)|(_ & _ & x & c2 & c1 & il & ir & Hs & Hits & Hil & ->)];
    [now split|].
  apply arity_elim in Ha as [Hn Hc]. rewrite Hch in Hn, Hc. rewrite Hits in Hn.
  apply Forall_mid in Hc as (Hc1 & Hcc & Hc2).
  destruct (split_arity _ _ Hcc Hf Hs) as (A2 & A1 & Hf').
  split; [|assumption]. apply arity_intro; [right; lens|].
  apply Forall_mid. repeat split; try assumption. now constructor.
Qed.

Lemma arity_assign_item n i x its :
  arity n -> assign (items n) i x = Ret its -> arity (Node its (children n)).
Proof.
  intros [Hn Hc]%arity_elim (l1 & y & l2 & E & -> & _)%assign_inv.
  rewrite E in Hn. apply arity_intro; [|assumption].
  destruct Hn; [now left | right; lens].
Qed.

Lemma arity_assign_child n i c' chs :
  arity n -> arity c' -> assign (children n) i c' = Ret chs ->
  arity (Node (items n) chs).
Proof.
  intros [Hn Hc]%arity_elim Hc' (l1 & y & l2 & E & -> & _)%assign_inv.
  rewrite E in Hn, Hc. apply Forall_mid in Hc as (H1 & _ & H2).
  apply arity_intro; [right; destruct Hn; lens|].
  apply Forall_mid. auto.
Qed.

Lemma arity_child n i c : arity n -> index (children n) i = Ret c -> arity c.
Proof.
  intros [_ Hc]%arity_elim Hi%index_In. rewrite Forall_forall in Hc. auto.
Qed.

Lemma insert_arity : forall fuel n x maxItems ctx f out n' f',
  arity n -> blankPool f ->
  insert Less fuel n x maxItems ctx f = Ret (out, n', f') ->
  arity n' /\ blankPool f'.
Proof.
  induction fuel as [|fuel IH]; intros n x maxItems ctx f out n' f' Ha Hf H;
    [discriminate|].
  cbn [insert] in H. bind_inv H. destruct a as [i found].
  destruct found.
  { bind_inv H. bind_inv H. injection H as _ <- <-.
    split; [eapply arity_assign_item; eassumption | assumption]. }
  destruct (len (children n) =? 0) eqn:Eleaf.
  { bind_inv H. injection H as _ <- <-. split; [|assumption].
    apply Z.eqb_eq in Eleaf. apply arity_intro; [now left|].
    apply len_zero in Eleaf. rewrite Eleaf. constructor. }
  bind_inv H. destruct a as [[didSplit n1] f1].
  destruct (maybeSplitChild_arity _ _ _ Ha Hf E0) as [Ha1 Hf1].
  assert (Hdescend : forall j out n' f',
    (child <- index (children n1) j ;;
     '(out, child', f2) <- insert Less fuel child x maxItems ctx f1 ;;
     chs <- assign (children n1) j child' ;;
     Ret (out, Node (items n1) chs, f2)) = Ret (out, n', f') ->
    arity n' /\ blankPool f').
  { clear H. intros j o n2 f2 Hj. bind_inv Hj. bind_inv Hj.
    destruct a0 as [[o' c'] f3]. bind_inv Hj. injection Hj as _ <- <-.
    assert (Hc : arity a) by (eapply arity_child; eassumption).
    destruct (IH _ _ _ _ _ _ _ _ Hc Hf1 E2) as [Hc' Hf2].
    split; [eapply arity_assign_child; eassumption | assumption]. }
  destruct didSplit; [|exact (Hdescend _ _ _ _ H)].
  bind_inv H. destruct (Less x a ctx); [exact (Hdescend _ _ _ _ H)|].
  destruct (Less a x ctx); [exact (Hdescend _ _ _ _ H)|].
  bind_inv H. bind_inv H. injection H as _ <- <-.
  split; [eapply arity_assign_item; eassumption | assumption].
Qed.

(** ** Shape *)

Lemma shape_child h n i c :
  shape h n -> index (children n) i = Ret c ->
  exists h', h = S h' /\ shape h' c.
Proof.
  intros Hn Hc. destruct h as [|h].
  - simpl in Hn. rewrite Hn in Hc. apply index_range in Hc. exfalso. lens.
  - exists h. split; [reflexivity|]. destruct Hn as [_ Hn].
    apply index_In in Hc. rewrite Forall_forall in Hn. auto.
Qed.

Lemma shape_assign_item h n i x its :
  shape h n -> assign (items n) i x = Ret its -> shape h (Node its (children n)).
Proof.
  intros Hn (l1 & y & l2 & E & -> & _)%assign_inv. destruct h as [|h].
  - exact Hn.
  - destruct Hn as [Hl Hc]. rewrite E in Hl.
    split; cbn [items children]; [lens | assumption].
Qed.

Lemma shape_assign_child h n i c' chs :
  shape (S h) n -> shape h c' -> assign (children n) i c' = Ret chs ->
  shape (S h) (Node (items n) chs).
Proof.
  intros [Hl Hc] Hc' (l1 & y & l2 & E & -> & _)%assign_inv.
  rewrite E in Hl, Hc. apply Forall_mid in Hc as (H1 & _ & H2).
  split; cbn [items children]; [lens | apply Forall_mid; auto].
Qed.

Lemma shape_leaf_items (its its' : list Item) chs h :
  len chs = 0 -> shape h (Node its chs) -> shape h (Node its' chs).
Proof.
  intros Hz%len_zero Hs. subst chs. destruct h as [|h]; [reflexivity|].
  destruct Hs as [Hl _]. cbn [items children] in Hl. exfalso. lens.
Qed.

Lemma split_shape h n i f x next n' f' :
  shape h n -> blankPool f -> split n i f = Ret (x, next, n', f') ->
  shape h next /\ shape h n' /\ blankPool f' /\
  len (items n) = len (items n') + 1 + len (items next) /\ len (items n') = i /\
  toList n = toList n' ++ x :: toList next.
Proof.
  intros Hn Hf H.
  destruct (split_inv _ _ Hf H) as (il & ir & Hits & Hil & Hf' & Hcase).
  destruct n as [its chs]; cbn [items children] in *. subst its.
  destruct Hcase as [(-> & -> & ->)|(cl & cr & -> & Hcl & -> & ->)];
    cbn [items].
  - split; [|split; [|split; [|split; [|split]]]]; try assumption;
      try (eapply shape_leaf_items; [|exact Hn]; reflexivity); try lens.
    reflexivity.
  - destruct h as [|h]; [simpl in Hn; destruct cl; [exfalso; lens | discriminate]|].
    destruct Hn as [Hl Hc]. cbn [items children] in Hl.
    apply Forall_app in Hc as [Hc1 Hc2].
    split; [|split; [|split; [|split; [|split]]]]; try assumption; try lens.
    + split; cbn [items children]; [lens | assumption].
    + split; cbn [items children]; [lens | assumption].
    + rewrite !toList_Node, map_app. apply interleave_app_sep.
      rewrite length_map. lens.
Qed.

Lemma maybeSplitChild_shape h n i maxItems f b n' f' :
  shape h n -> blankPool f ->
  maybeSplitChild n i maxItems f = Ret (b, n', f') ->
  shape h n' /\ blankPool f' /\ toList n' = toList n.
Proof.
  intros Hn Hf H.
  destruct (maybeSplitChild_inv _ _ _ _ H) as (cl & c & cr & Hch & Hcl & Hcase).
  destruct Hcase as [(_ & -> & -> & _)|(_ & _ & x & c2 & c1 & il & ir & Hs & Hits & Hil & ->)];
    [now repeat split|].
  destruct n as [its chs]; cbn [items children] in *. subst its chs.
  destruct h as [|h]; [simpl in Hn; now destruct cl|].
  destruct Hn as [Hl Hc]. cbn [items children] in Hl.
  apply Forall_mid in Hc as (Hc1 & Hcc & Hc2).
  destruct (@split_shape h c _ f x c2 c1 f' Hcc Hf Hs) as (S2 & S1 & Hf' & _ & _ & Ht).
  split; [|split; [assumption|]].
  - split; cbn [items children]; [lens|].
    apply Forall_mid. repeat split; try assumption. now constructor.
  - rewrite !toList_focus by lia. f_equal. cbn [map].
    rewrite interleave_two, Ht.
    replace (toList c1 ++ x :: toList c2) with ((toList c1 ++ [x]) ++ toList c2)
      by (now rewrite <- app_assoc).
    now rewrite interleave_head, <- app_assoc.
Qed.

Lemma insert_shape : forall fuel h n x maxItems ctx f out n' f',
  shape h n -> blankPool f ->
  insert Less fuel n x maxItems ctx f = Ret (out, n', f') ->
  shape h n' /\ blankPool f'.
Proof.
  induction fuel as [|fuel IH]; intros h n x maxItems ctx f out n' f' Hn Hf H;
    [discriminate|].
  cbn [insert] in H. bind_inv H. destruct a as [i found].
  destruct found.
  { bind_inv H. bind_inv H. injection H as _ <- <-.
    split; [eapply shape_assign_item; eassumption | assumption]. }
  destruct (len (children n) =? 0) eqn:Eleaf.
  { bind_inv H. injection H as _ <- <-. split; [|assumption].
    apply Z.eqb_eq in Eleaf. rewrite (node_eta n) in Hn.
    eapply shape_leaf_items; eassumption. }
  bind_inv H. destruct a as [[didSplit n1] f1].
  destruct (@maybeSplitChild_shape h n i maxItems f didSplit n1 f1 Hn Hf E0) as (Hn1 & Hf1 & _).
  assert (Hdescend : forall j out n' f',
    (child <- index (children n1) j ;;
     '(out, child', f2) <- insert Less fuel child x maxItems ctx f1 ;;
     chs <- assign (children n1) j child' ;;
     Ret (out, Node (items n1) chs, f2)) = Ret (out, n', f') ->
    shape h n' /\ blankPool f').
  { clear H. intros j o n2 f2 Hj. bind_inv Hj. bind_inv Hj.
    destruct a0 as [[o' c'] f3]. bind_inv Hj. injection Hj as _ <- <-.
    destruct (@shape_child h n1 j a Hn1 E1) as (h' & -> & Hc).
    destruct (IH _ _ _ _ _ _ _ _ _ Hc Hf1 E2) as [Hc' Hf2].
    split; [eapply shape_assign_child; eassumption | assumption]. }
  destruct didSplit; [|exact (Hdescend _ _ _ _ H)].
  bind_inv H. destruct (Less x a ctx); [exact (Hdescend _ _ _ _ H)|].
  destruct (Less a x ctx); [exact (Hdescend _ _ _ _ H)|].
  bind_inv H. bind_inv H. injection H as _ <- <-.
  split; [eapply shape_assign_item; eassumption | assumption].
Qed.

Lemma removeTarget_Done_shape h n item typ ctx out n' :
  shape h n -> removeTarget Less n item typ ctx = Ret (Done out n') ->
  shape h n' /\ h = O.
Proof.
  intros Hn H. unfold removeTarget in H.
  assert (Hleaf : forall its', len (children n) = 0 ->
                               shape h (Node its' (children n)) /\ h = O).
  { intros its' Hz. split.
    - eapply shape_leaf_items; [exact Hz|]. rewrite <- node_eta. exact Hn.
    - destruct h; [reflexivity|]. destruct Hn as [Hl _]. exfalso. lens. }
  destruct (typ =? removeMax); [|destruct (typ =? removeMin);
                                 [|destruct (typ =? removeItem); [|discriminate]]].
  - destruct (len (children n) =? 0) eqn:E0; [|discriminate].
    apply Z.eqb_eq in E0. bind_inv H. destruct a. injection H as _ <-. auto.
  - destruct (len (children n) =? 0) eqn:E0; [|discriminate].
    apply Z.eqb_eq in E0. bind_inv H. destruct a. injection H as _ <-. auto.
  - bind_inv H. destruct a as [i found].
    destruct (len (children n) =? 0) eqn:E0; [|discriminate].
    apply Z.eqb_eq in E0. destruct found.
    + bind_inv H. destruct a. injection H as _ <-. auto.
    + injection H as _ <-. rewrite (node_eta n). auto.
Qed.

Lemma remove_shape m : forall fuel,
  (forall h n item typ ctx f out n' f',
      shape h n -> blankPool f ->
      remove Less fuel n item m typ ctx f = Ret (out, n', f') ->
      shape h n' /\ blankPool f') /\
  (forall h n i item typ ctx f out n' f',
      shape h n -> blankPool f ->
      growChildAndRemove Less fuel n i item m typ ctx f = Ret (out, n', f') ->
      shape h n' /\ blankPool f').
Proof.
  induction fuel as [|fuel [IHr IHg]]; [split; intros; discriminate|].
  split.
  - intros h n item typ ctx f out n' f' Hn Hf H.
    cbn [remove] in H. bind_inv H. destruct a as [o n0|i found].
    + injection H as _ <- <-.
      split; [|assumption]. eapply removeTarget_Done_shape; eassumption.
    + bind_inv H. destruct (len (items a) <=? m); [eapply IHg; eassumption|].
      destruct (@shape_child h n i a Hn E0) as (h' & -> & Hc).
      destruct found.
      * bind_inv H. bind_inv H. destruct a1 as [[pred c'] f1].
        destruct pred as [p|]; [|discriminate].
        bind_inv H. bind_inv H. injection H as _ <- <-.
        destruct (IHr _ _ _ _ _ _ _ _ _ Hc Hf E2) as [Hc' Hf1].
        split; [|assumption].
        apply (@shape_assign_child h' (Node a1 (children n)) i c' a2);
          [|assumption|assumption].
        eapply shape_assign_item; eassumption.
      * bind_inv H. destruct a0 as [[o c'] f1]. bind_inv H.
        injection H as _ <- <-.
        destruct (IHr _ _ _ _ _ _ _ _ _ Hc Hf E1) as [Hc' Hf1].
        split; [eapply shape_assign_child; eassumption | assumption].
  - intros h n i item typ ctx f out n' f' Hn Hf H.
    cbn [growChildAndRemove] in H. bind_inv H. destruct a as [n1 f1].
    assert (Hn1 : shape h n1).
    { destruct h as [|h].
      - exfalso. unfold growChild in E. bind_inv E.
        apply index_range in E0. simpl in Hn. rewrite Hn in E0. lens.
      - destruct (@growChild_inv _ h n i m f n1 f1 Hn E) as (i' & G & _).
        eapply grown_shape; eassumption. }
    eapply IHr; [exact Hn1 | eapply growChild_blankPool; eassumption | exact H].
Qed.
End Preservation.

(** * Trees built by the public operations *)

Section TreeOps.
Variables Item Ctx : Type.
Variable Less : Item -> Item -> Ctx -> bool.
Implicit Types (t : BTree Item Ctx) (n : node Item) (f : FreeList Item).

(** The mutating operations of a tree: [replaceOrInsert], and the three
    deletions, which differ by the mode they hand to [deleteInternal]. *)
Inductive treeOp : Type :=
| OpReplaceOrInsert (item : option Item)
| OpDelete (item : option Item) (typ : toRemove).

Definition runTreeOp (fuel : nat) t (op : treeOp) : outcome (BTree Item Ctx) :=
  match op with
  | OpReplaceOrInsert item =>
      '(_, t') <- ReplaceOrInsert Less fuel t item ;; Ret t'
  | OpDelete item typ =>
      '(_, t') <- deleteInternal Less fuel t item typ ;; Ret t'
  end.

Fixpoint runTreeOps (fuel : nat) t (ops : list treeOp)
  : outcome (BTree Item Ctx) :=
  match ops with
  | [] => Ret t
  | op :: ops' => t' <- runTreeOp fuel t op ;; runTreeOps fuel t' ops'
  end.

(** Every node reachable from the root has the right arity. *)
Definition treeArity t : Prop :=
  match bt_root t with
  | None => True
  | Some r => arity r
  end.

(** The root is balanced and the free list holds blank nodes. *)
Definition treeShape t : Prop :=
  blankPool (bt_freelist t) /\
  match bt_root t with
  | None => True
  | Some r => exists h, shape h r
  end.

Lemma treeShape_arity t : treeShape t -> treeArity t.
Proof.
  unfold treeShape, treeArity. intros [_ H].
  destruct (bt_root t); [|exact I]. destruct H as (h & H).
  eapply shape_arity; exact H.
Qed.

Lemma ReplaceOrInsert_shape fuel t item out t' :
  treeShape t -> ReplaceOrInsert Less fuel t item = Ret (out, t') ->
  treeShape t'.
Proof.
  intros [Hf Hr] H. unfold ReplaceOrInsert in H.
  destruct item as [x|]; [|discriminate].
  destruct (bt_root t) as [r|].
  - destruct Hr as (h & Hr). bind_inv H. destruct a as [r1 f1].
    assert (H1 : blankPool f1 /\ exists h1, shape h1 r1).
    { destruct (maxItems t <=? len (items r)).
      - bind_inv E. destruct a as [[[item2 second] oldroot] f2].
        destruct (@split_shape _ h r _ _ _ _ _ _ Hr Hf E0) as (S2 & S1 & Hf2 & _).
        unfold BTree_newNode in E.
        destruct (newNode_blank_eq Hf2) as (f3 & Hn & Hf3). rewrite Hn in E.
        injection E as <- <-. split; [assumption|]. exists (S h).
        split; cbn [items children blank app]; [reflexivity|].
        repeat constructor; assumption.
      - injection E as <- <-. eauto. }
    destruct H1 as (Hf1 & h1 & Hr1).
    bind_inv H. destruct a as [[o r2] f3]. injection H as _ <-.
    destruct (@insert_shape _ _ Less fuel h1 r1 x _ _ f1 o r2 f3 Hr1 Hf1 E0)
      as [Hr2 Hf3].
    split; cbn [bt_freelist bt_root]; eauto.
  - unfold BTree_newNode in H.
    destruct (newNode_blank_eq Hf) as (f1 & Hn & Hf1). rewrite Hn in H.
    injection H as _ <-. split; cbn [bt_freelist bt_root]; [assumption|].
    exists O. reflexivity.
Qed.

Lemma deleteInternal_shape fuel t item typ out t' :
  treeShape t -> deleteInternal Less fuel t item typ = Ret (out, t') ->
  treeShape t'.
Proof.
  intros [Hf Hr] H. unfold deleteInternal in H.
  destruct (bt_root t) as [r|] eqn:Er.
  - destruct Hr as (h & Hr). bind_inv H. destruct a as [[o r1] f1].
    destruct (proj1 (@remove_shape _ _ Less (minItems t) fuel)
                    h r item typ (bt_ctx t) (bt_freelist t) o r1 f1 Hr Hf E)
      as [Hr1 Hf1].
    bind_inv H. destruct a as [root' f2]. injection H as _ <-.
    split; cbn [bt_freelist bt_root].
    + destruct (len (items r1) =? 0); [destruct (0 <? len (children r1))|].
      * bind_inv E0. injection E0 as _ <-.
        apply freeNode_blankPool; [assumption | apply isBlank_blank].
      * injection E0 as _ <-.
        apply freeNode_blankPool; [assumption | apply isBlank_blank].
      * now injection E0 as _ <-.
    + destruct (len (items r1) =? 0); [destruct (0 <? len (children r1))|].
      * bind_inv E0. injection E0 as <- _.
        destruct (@shape_child _ h r1 0 a Hr1 E1) as (h' & _ & Ha). eauto.
      * now injection E0 as <- _.
      * injection E0 as <- _. eauto.
  - injection H as _ <-. split; [assumption|]. now rewrite Er.
Qed.

Lemma runTreeOps_shape fuel (ops : list treeOp) : forall t t',
  treeShape t -> runTreeOps fuel t ops = Ret t' -> treeShape t'.
Proof.
  induction ops as [|op ops IH]; intros t t' Ht H; cbn [runTreeOps] in H.
  - now injection H as <-.
  - bind_inv H. apply (IH a t'); [|exact H].
    destruct op as [item|item typ]; cbn [runTreeOp] in E; bind_inv E;
      destruct a0 as [o t1]; injection E as <-.
    + eapply ReplaceOrInsert_shape; eassumption.
    + eapply deleteInternal_shape; eassumption.
Qed.

(** C1. After any sequence of public operations on a new tree, every node
    reachable from the root has the arity of the spec: no children, or
    one more child than items.  The predicate is preserved by [split],
    [maybeSplitChild] and [insert] on every node that has it, and by
    [remove] and [growChildAndRemove] on every node that is balanced as
    well, as the nodes of a tree are. *)
Theorem arity_invariant :
  (forall degree f ctx fuel ops t0 t,
      blankPool f -> NewWithFreeList degree f ctx = Ret t0 ->
      runTreeOps fuel t0 ops = Ret t -> treeArity t) /\
  (forall n i f x next n' f',
      arity n -> blankPool f -> split n i f = Ret (x, next, n', f') ->
      arity next /\ arity n') /\
  (forall n i maxItems f b n' f',
      arity n -> blankPool f ->
      maybeSplitChild n i maxItems f = Ret (b, n', f') -> arity n') /\
  (forall fuel n x maxItems ctx f out n' f',
      arity n -> blankPool f ->
      insert Less fuel n x maxItems ctx f = Ret (out, n', f') -> arity n') /\
  (forall fuel h n item minItems typ ctx f out n' f',
      shape h n -> blankPool f ->
      remove Less fuel n item minItems typ ctx f = Ret (out, n', f') ->
      arity n') /\
  (forall fuel h n i item minItems typ ctx f out n' f',
      shape h n -> blankPool f ->
      growChildAndRemove Less fuel n i item minItems typ ctx f
      = Ret (out, n', f') ->
      arity n').
Proof.
  split; [|split; [|split; [|split; [|split]]]].
  - intros degree f ctx fuel ops t0 t Hf H0 H.
    apply treeShape_arity. eapply runTreeOps_shape; [|exact H].
    unfold NewWithFreeList in H0. destruct (degree <=? 1); [discriminate|].
    injection H0 as <-. split; [exact Hf | exact I].
  - intros n i f x next n' f' Ha Hf H.
    destruct (@split_arity _ n i f x next n' f' Ha Hf H) as (H1 & H2 & _).
    now split.
  - intros n i mx f b n' f' Ha Hf H.
    now destruct (@maybeSplitChild_arity _ n i mx f b n' f' Ha Hf H).
  - intros fuel n x mx ctx f out n' f' Ha Hf H.
    now destruct (@insert_arity _ _ Less fuel n x mx ctx f out n' f' Ha Hf H).
  - intros fuel h n item m typ ctx f out n' f' Hn Hf H.
    apply (@shape_arity _ h).
    now destruct (proj1 (@remove_shape _ _ Less m fuel)
                        h n item typ ctx f out n' f' Hn Hf H).
  - intros fuel h n i item m typ ctx f out n' f' Hn Hf H.
    apply (@shape_arity _ h).
    now destruct (proj2 (@remove_shape _ _ Less m fuel)
                        h n i item typ ctx f out n' f' Hn Hf H).
Qed.
End TreeOps.

(** * Order of the traversal *)

Section Correctness.
Variables Item Ctx : Type.
Variable Less : Item -> Item -> Ctx -> bool.
Variable ctx : Ctx.
Hypothesis SWO : StrictWeakOrder Less ctx.

Local Abbreviation lt := (lessThan Less ctx).
Local Abbreviation equiv := (equivalent Less ctx).
Local Abbreviation asc := (ascending Less ctx).
Local Abbreviation flat := (map (@toList Item)).
Implicit Types (n c : node Item) (f : FreeList Item) (i m : Z) (h : nat)
         (x y z : Item) (l : list Item).

(** The order facts at the comparison of this section. *)

Lemma ltT x y z : lt x y -> lt y z -> lt x z.
Proof. apply (lt_trans SWO). Qed.

Lemma lt_eqv x y z : lt x y -> equiv y z -> lt x z.
Proof. eapply lt_equiv_r. exact SWO. Qed.

Lemma eqv_lt x y z : equiv x y -> lt y z -> lt x z.
Proof. eapply equiv_lt_l. exact SWO. Qed.

Lemma eqv_sym x y : equiv x y -> equiv y x.
Proof. apply equiv_sym. Qed.

Lemma eqv_trans x y z : equiv x y -> equiv y z -> equiv x z.
Proof. apply (equiv_trans SWO). Qed.

Lemma lt_irr x : ~ lt x x.
Proof. apply (lt_irrefl SWO). Qed.

Lemma lt_neqv x y : lt x y -> ~ equiv x y.
Proof. apply lt_not_equiv. Qed.

Lemma lt_neqv' x y : lt x y -> ~ equiv y x.
Proof. apply lt_not_equiv'. Qed.

Lemma asc_mid l1 x l2 :
  asc (l1 ++ x :: l2) ->
  Forall (fun z => lt z x) l1 /\ Forall (lt x) l2 /\ asc l1 /\ asc l2.
Proof. apply ascending_mid. Qed.

Lemma asc_app l1 l2 :
  asc (l1 ++ l2) <->
  asc l1 /\ asc l2 /\ (forall a b, In a l1 -> In b l2 -> lt a b).
Proof. apply ascending_app. Qed.

Lemma interleave_cons (t : list Item) rest its :
  interleave (t :: rest) its = t ++ interleave ([] :: rest) its.
Proof. destruct its; reflexivity. Qed.

Lemma toList_child_focus il ir cl c cr :
  len il = len cl ->
  toList (Node (il ++ ir) (cl ++ c :: cr))
  = interleave (flat cl) il ++ toList c ++ interleave ([] :: flat cr) ir.
Proof.
  intros Hl. rewrite toList_focus by assumption. f_equal.
  cbn [map]. apply interleave_cons.
Qed.

Lemma asc_interleave_items (cs : list (list Item)) : forall its,
  asc (interleave cs its) -> asc its.
Proof.
  induction cs as [|c cs IH]; intros its H; [exact H|].
  destruct its as [|i its]; [exact I|]. cbn [interleave] in H.
  apply asc_mid in H as (_ & H1 & _ & H2).
  split; [|now apply IH].
  rewrite Forall_forall in *. intros z Hz. apply H1.
  now apply interleave_leaf_In.
Qed.

Lemma asc_items n : asc (toList n) -> asc (items n).
Proof. rewrite toList_eta. apply asc_interleave_items. Qed.

Lemma asc_app_l l1 l2 : asc (l1 ++ l2) -> asc l1.
Proof. intros H. now apply asc_app in H. Qed.

Lemma asc_app_r l1 l2 : asc (l1 ++ l2) -> asc l2.
Proof. intros H. now apply asc_app in H. Qed.

Lemma Forall_lt_trans_l l x y :
  Forall (fun z => lt z x) l -> lt x y -> Forall (fun z => lt z y) l.
Proof.
  intros H Hxy. eapply Forall_impl; [|exact H].
  intros z Hz. exact (ltT Hz Hxy).
Qed.

Lemma Forall_lt_trans_r l x y :
  Forall (lt y) l -> lt x y -> Forall (lt x) l.
Proof.
  intros H Hxy. eapply Forall_impl; [|exact H].
  intros z Hz. exact (ltT Hxy Hz).
Qed.

(** The part of a traversal before a child lies below whatever the
    separators before the child lie below. *)
Lemma prefix_below (cs : list (list Item)) its x :
  length cs = length its -> asc (interleave cs its) ->
  Forall (fun z => lt z x) its -> Forall (fun z => lt z x) (interleave cs its).
Proof.
  intros Hl Ha Hx.
  destruct (snoc_cases its) as [->|(its' & z & ->)].
  - destruct cs; [constructor | discriminate].
  - destruct (snoc_cases cs) as [->|(cs' & c & ->)].
    + rewrite length_app in Hl. simpl in Hl. lia.
    + rewrite !length_app in Hl. simpl in Hl.
      rewrite interleave_app in * by lia. cbn [interleave] in *.
      apply Forall_app in Hx as [Hx1 Hx2]. inversion Hx2 as [|? ? Hzx _]; subst.
      rewrite app_assoc in Ha. apply asc_mid in Ha as (H1 & _).
      rewrite app_assoc. apply Forall_app. split; [|now constructor].
      eapply Forall_lt_trans_l; eassumption.
Qed.

(** The part after a child lies above whatever the separators after the
    child lie above. *)
Lemma suffix_above (cs : list (list Item)) its x :
  length cs = length its -> asc (interleave ([] :: cs) its) ->
  Forall (lt x) its -> Forall (lt x) (interleave ([] :: cs) its).
Proof.
  intros Hl Ha Hx. destruct its as [|i its].
  - destruct cs; [constructor | discriminate].
  - cbn [interleave app] in *. destruct Ha as [Ha _].
    inversion Hx as [|? ? Hxi _]; subst.
    constructor; [assumption|]. eapply Forall_lt_trans_r; eassumption.
Qed.

(** An item equivalent to the probe cuts an ascending sequence around the
    probe. *)
Lemma asc_equiv_cut l1 y l2 x :
  asc (l1 ++ y :: l2) -> equiv y x ->
  Forall (fun z => lt z x) l1 /\ Forall (lt x) l2.
Proof.
  intros (H1 & H2 & _)%asc_mid Hyx. split.
  - eapply Forall_impl; [|exact H1]. intros z Hz. exact (lt_eqv Hz Hyx).
  - eapply Forall_impl; [|exact H2]. intros z Hz.
    exact (eqv_lt (eqv_sym Hyx) Hz).
Qed.

(** Replacing an item by an equivalent one keeps the order. *)
Lemma asc_replace l1 y l2 x :
  asc (l1 ++ y :: l2) -> equiv y x -> asc (l1 ++ x :: l2).
Proof.
  intros Ha Hyx. destruct (@asc_equiv_cut l1 y l2 x Ha Hyx) as [H1 H2].
  apply asc_app in Ha as (Ha1 & [_ Ha2] & _).
  apply asc_app. split; [assumption|]. split; [now split|].
  intros a b Ha Hb. rewrite Forall_forall in H1, H2.
  destruct Hb as [<-|Hb]; [now apply H1|].
  exact (ltT (H1 _ Ha) (H2 _ Hb)).
Qed.

Lemma asc_insert l1 l2 x :
  asc (l1 ++ l2) -> Forall (fun z => lt z x) l1 -> Forall (lt x) l2 ->
  asc (l1 ++ x :: l2).
Proof.
  intros Ha H1 H2.
  apply asc_app in Ha as (Ha1 & Ha2 & _).
  apply asc_app. split; [assumption|]. split; [now split|].
  intros a b Ha Hb. rewrite Forall_forall in H1, H2.
  destruct Hb as [<-|Hb]; [now apply H1|].
  exact (ltT (H1 _ Ha) (H2 _ Hb)).
Qed.

(** * Insertion *)

Lemma split_total h c j f :
  shape h c -> blankPool f -> 0 <= j < len (items c) ->
  exists x c2 c1 f', split c j f = Ret (x, c2, c1, f').
Proof.
  intros Hc Hf Hj.
  destruct (@index_in_range _ (items c) j Hj) as (x & (il & ir & Hits & Hil)%index_focus).
  destruct c as [its chs]; cbn [items children] in *. subst its.
  destruct h as [|h].
  - simpl in Hc. subst chs.
    destruct (@split_leaf _ il x ir j f Hf Hil) as (f' & Hs & _). eauto 6.
  - destruct Hc as [Hl _]. cbn [items children] in Hl.
    assert (Hcut : 0 <= j + 1 <= len chs) by lens.
    destruct (@cut_at _ chs (j + 1) Hcut) as (cl & cr & -> & Hcl).
    destruct (@split_internal _ il x ir cl cr j f Hf Hil Hcl) as (f' & Hs & _).
    eauto 6.
Qed.

Lemma maybeSplitChild_no (its : list Item) cl c cr i maxItems f :
  len cl = i -> len (items c) < maxItems ->
  maybeSplitChild (Node its (cl ++ c :: cr)) i maxItems f
  = Ret (false, Node its (cl ++ c :: cr), f).
Proof.
  intros Hcl Hm. unfold maybeSplitChild; cbn [items children].
  rewrite (index_app_mid cl c cr Hcl); cbn [bind].
  now apply Z.ltb_lt in Hm as ->.
Qed.

Lemma maybeSplitChild_yes il ir cl c cr i maxItems f x c2 c1 f' :
  len il = i -> len cl = i -> maxItems <= len (items c) ->
  split c (Z.quot maxItems 2) f = Ret (x, c2, c1, f') ->
  maybeSplitChild (Node (il ++ ir) (cl ++ c :: cr)) i maxItems f
  = Ret (true, Node (il ++ x :: ir) (cl ++ c1 :: c2 :: cr), f').
Proof.
  intros Hil Hcl Hm Hs. unfold maybeSplitChild; cbn [items children].
  rewrite (index_app_mid cl c cr Hcl); cbn [bind].
  apply Z.ltb_ge in Hm as ->. rewrite Hs; cbn [bind].
  rewrite (assign_app_mid cl c c1 cr Hcl); cbn [bind].
  rewrite (insertAt_app il ir x Hil); cbn [bind].
  replace (cl ++ c1 :: cr) with ((cl ++ [c1]) ++ cr) by (now rewrite <- app_assoc).
  rewrite insertAt_app by lens. cbn [bind]. now rewrite <- app_assoc.
Qed.

(** What an insertion of [x] does to an ascending sequence [l]: either
    nothing equivalent is there and [x] enters at its place, or the
    equivalent item [y] is returned and [x] takes its place. *)
Definition insSpec x l (out : option Item) l' : Prop :=
  exists l1 l2,
    Forall (fun z => lt z x) l1 /\ Forall (lt x) l2 /\
    ((out = None /\ l = l1 ++ l2 /\ l' = l1 ++ x :: l2) \/
     (exists y, out = Some y /\ equiv y x /\
                l = l1 ++ y :: l2 /\ l' = l1 ++ x :: l2)).

Lemma insSpec_frame x l out l' P Q :
  insSpec x l out l' ->
  Forall (fun z => lt z x) P -> Forall (lt x) Q ->
  insSpec x (P ++ l ++ Q) out (P ++ l' ++ Q).
Proof.
  intros (l1 & l2 & H1 & H2 & Hcase) HP HQ.
  exists (P ++ l1), (l2 ++ Q).
  split; [now apply Forall_app|]. split; [now apply Forall_app|].
  destruct Hcase as [(-> & -> & ->)|(y & -> & Hy & -> & ->)]; [left | right].
  - repeat split; repeat rewrite <- app_assoc; reflexivity.
  - exists y. split; [reflexivity|]. split; [assumption|].
    split; repeat rewrite <- app_assoc; reflexivity.
Qed.

Lemma insSpec_asc x l out l' : asc l -> insSpec x l out l' -> asc l'.
Proof.
  intros Ha (l1 & l2 & H1 & H2 & [(_ & -> & ->)|(y & _ & Hy & -> & ->)]).
  - now apply asc_insert.
  - eapply asc_replace; eassumption.
Qed.

(** When an equivalent item is stored, it is the one returned, and the
    new item takes its place in the sequence. *)
Lemma insSpec_present x l out l' y :
  insSpec x l out l' -> In y l -> equiv y x ->
  out = Some y /\ exists l1 l2, l = l1 ++ y :: l2 /\ l' = l1 ++ x :: l2.
Proof.
  intros (l1 & l2 & H1 & H2 & Hcase) Hin Hyx.
  rewrite Forall_forall in H1, H2.
  assert (Hside : ~ In y l1 /\ ~ In y l2).
  { split; intros Hy.
    - exact (lt_neqv (H1 _ Hy) Hyx).
    - exact (lt_neqv' (H2 _ Hy) Hyx). }
  destruct Hside as [Hn1 Hn2].
  destruct Hcase as [(_ & -> & _)|(y' & -> & _ & -> & ->)].
  - apply in_app_or in Hin. tauto.
  - apply in_app_or in Hin as [Hin|[->|Hin]]; try tauto. eauto.
Qed.

Lemma insSpec_None_length x l l' :
  insSpec x l None l' -> length l' = S (length l).
Proof.
  intros (l1 & l2 & _ & _ & [(_ & -> & ->)|(y & Hy & _)]); [|discriminate].
  rewrite !length_app. simpl. lia.
Qed.

Lemma insSpec_Some_length x l y l' :
  insSpec x l (Some y) l' -> length l' = length l.
Proof.
  intros (l1 & l2 & _ & _ & [(Hy & _)|(y' & _ & _ & -> & ->)]); [discriminate|].
  rewrite !length_app. reflexivity.
Qed.

Lemma toList_two il ir cl c1 pv c2 cr :
  len il = len cl ->
  toList (Node (il ++ pv :: ir) (cl ++ c1 :: c2 :: cr))
  = interleave (flat cl) il ++ toList c1 ++ pv :: toList c2
      ++ interleave ([] :: flat cr) ir.
Proof.
  intros Hl. rewrite toList_focus by assumption. f_equal.
  cbn [map]. rewrite interleave_two. f_equal. f_equal. apply interleave_cons.
Qed.

Lemma quot_half_range mx k :
  1 <= mx -> mx <= k -> 0 <= Z.quot mx 2 < k.
Proof.
  intros H1 H2. rewrite Z.quot_div_nonneg by lia.
  pose proof (Z.div_pos mx 2). pose proof (Z.div_lt mx 2). lia.
Qed.

(** [insert] on an ordered, balanced subtree returns, and does to the
    traversal what [insSpec] says. *)
Lemma insert_spec x mx :
  1 <= mx ->
  forall fuel h n f,
    shape h n -> asc (toList n) -> blankPool f -> (h < fuel)%nat ->
    exists out n' f',
      insert Less fuel n x mx ctx f = Ret (out, n', f') /\
      insSpec x (toList n) out (toList n').
Proof.
  intros Hmx. induction fuel as [|fuel IH]; intros h n f Hn Ha Hf Hfuel; [lia|].
  pose proof (asc_items _ Ha) as Hai.
  destruct (@find_correct _ _ Less ctx SWO (items n) x Hai)
    as (i & found & Hfind & _).
  destruct (@find_decomp _ _ Less ctx SWO (items n) x i found Hai Hfind)
    as (il & ir & Hits & Hil & Hlow & Hhigh).
  cbn [insert]. rewrite Hfind; cbn [bind].
  destruct n as [its chs]; cbn [items children] in *. subst its.
  destruct found.
  - (* an equivalent item in this node *)
    destruct Hhigh as (y & ir' & -> & Hyx & Hhigh).
    rewrite (index_app_mid il y ir' Hil); cbn [bind].
    rewrite (assign_app_mid il y x ir' Hil); cbn [bind].
    do 3 eexists. split; [reflexivity|].
    destruct h as [|h].
    + simpl in Hn. subst chs. rewrite !toList_Node. cbn [map interleave].
      exists il, ir'. split; [assumption|]. split; [assumption|].
      right. exists y. auto.
    + destruct Hn as [Hl Hc]. cbn [items children] in Hl.
      destruct (@index_in_range _ chs i) as (c & (cl & cr & -> & Hcl)%index_focus);
        [lens|].
      assert (E : forall w, toList (Node (il ++ w :: ir') (cl ++ c :: cr))
                  = (interleave (flat cl) il ++ toList c)
                      ++ w :: interleave (flat cr) ir').
      { intros w. rewrite toList_child_focus by lia. cbn [interleave app].
        now rewrite <- app_assoc. }
      rewrite E in Ha. rewrite !E.
      destruct (@asc_equiv_cut _ y _ x Ha Hyx) as [H1 H2].
      eexists _, _. split; [exact H1|]. split; [exact H2|].
      right. exists y. auto.
  - (* no equivalent item in this node *)
    destruct h as [|h].
    + simpl in Hn. subst chs. cbn [len length Z.of_nat Z.eqb].
      rewrite (insertAt_app il ir x Hil); cbn [bind].
      do 3 eexists. split; [reflexivity|].
      rewrite !toList_Node. cbn [map interleave].
      exists il, ir. split; [assumption|]. split; [assumption|]. left. auto.
    + destruct Hn as [Hl Hc]. cbn [items children] in Hl.
      destruct (@index_in_range _ chs i) as (c & (cl & cr & -> & Hcl)%index_focus);
        [lens|].
      assert (Hnz : (len (cl ++ c :: cr) =? 0) = false) by (apply Z.eqb_neq; lens).
      rewrite Hnz.
      assert (Hlc : len il = len cl) by lia.
      rewrite (toList_child_focus il ir cl c cr Hlc) in Ha |- *.
      set (P := interleave (flat cl) il) in *.
      set (Q := interleave ([] :: flat cr) ir) in *.
      assert (HP : Forall (fun z => lt z x) P).
      { apply prefix_below; [rewrite length_map; lens | | assumption].
        exact (asc_app_l _ _ Ha). }
      assert (HQ : Forall (lt x) Q).
      { apply suffix_above; [rewrite length_map; lens | | assumption].
        exact (asc_app_r _ _ (asc_app_r _ _ Ha)). }
      assert (Hac : asc (toList c)) by exact (asc_app_l _ _ (asc_app_r _ _ Ha)).
      apply Forall_mid in Hc as (Hc1 & Hcc & Hc2).
      destruct (Z.lt_ge_cases (len (items c)) mx) as [Hlt|Hge].
      * (* the child has room *)
        rewrite (maybeSplitChild_no (il ++ ir) cl c cr f Hcl Hlt); cbn [bind].
        destruct (IH h c f Hcc Hac Hf) as (out & c' & f' & Hins & Hspec); [lia|].
        cbn [items children].
        rewrite (index_app_mid cl c cr Hcl); cbn [bind].
        rewrite Hins; cbn [bind].
        rewrite (assign_app_mid cl c c' cr Hcl); cbn [bind].
        do 3 eexists. split; [reflexivity|].
        rewrite (toList_child_focus il ir cl c' cr Hlc).
        now apply insSpec_frame.
      * (* the child is full: split it first *)
        destruct (@split_total h c (Z.quot mx 2) f Hcc Hf
                    (quot_half_range Hmx Hge)) as (pv & c2 & c1 & f1 & Hs).
        destruct (@split_shape _ h c _ f pv c2 c1 f1 Hcc Hf Hs)
          as (S2 & S1 & Hf1 & _ & _ & Ht).
        rewrite (@maybeSplitChild_yes il ir cl c cr i mx f pv c2 c1 f1
                   Hil Hcl Hge Hs); cbn [bind].
        cbn [items children].
        rewrite (index_app_mid il pv ir Hil); cbn [bind].
        rewrite Ht in Hac, Ha |- *.
        destruct (asc_mid _ _ _ Hac) as (Hb1 & Hb2 & Ha1 & Ha2).
        assert (E : forall w k1 k2,
                   toList (Node (il ++ w :: ir) (cl ++ k1 :: k2 :: cr))
                   = P ++ toList k1 ++ w :: toList k2 ++ Q).
        { intros w k1 k2. now rewrite toList_two by assumption. }
        destruct (Less x pv ctx) eqn:E1.
        -- (* into the left half *)
           destruct (IH h c1 f1 S1 Ha1 Hf1) as (out & c1' & f' & Hins & Hspec); [lia|].
           rewrite (index_app_mid cl c1 (c2 :: cr) Hcl); cbn [bind].
           rewrite Hins; cbn [bind].
           rewrite (assign_app_mid cl c1 c1' (c2 :: cr) Hcl); cbn [bind].
           do 3 eexists. split; [reflexivity|]. rewrite E.
           replace (P ++ (toList c1 ++ pv :: toList c2) ++ Q)
             with (P ++ toList c1 ++ (pv :: toList c2 ++ Q))
             by (now rewrite <- app_assoc).
           apply insSpec_frame; [assumption | assumption|].
           constructor; [exact E1|]. apply Forall_app. split; [|assumption].
           eapply Forall_lt_trans_r; eassumption.
        -- destruct (Less pv x ctx) eqn:E2.
           ++ (* into the right half *)
              destruct (IH h c2 f1 S2 Ha2 Hf1) as (out & c2' & f' & Hins & Hspec); [lia|].
              rewrite (index_snoc_next cl c1 c2 cr (i + 1)) by lia; cbn [bind].
              rewrite Hins; cbn [bind].
              rewrite (assign_snoc_next cl c1 c2 c2' cr (i + 1)) by lia; cbn [bind].
              do 3 eexists. split; [reflexivity|]. rewrite E.
              replace (P ++ (toList c1 ++ pv :: toList c2) ++ Q)
                with ((P ++ toList c1 ++ [pv]) ++ toList c2 ++ Q)
                by (repeat rewrite <- app_assoc; reflexivity).
              replace (P ++ toList c1 ++ pv :: toList c2' ++ Q)
                with ((P ++ toList c1 ++ [pv]) ++ toList c2' ++ Q)
                by (repeat rewrite <- app_assoc; reflexivity).
              apply insSpec_frame; [assumption | | assumption].
              apply Forall_app. split; [assumption|].
              apply Forall_app. split; [|now constructor].
              eapply Forall_lt_trans_l; eassumption.
           ++ (* the promoted item is equivalent *)
              cbn [bind].
              rewrite (assign_app_mid il pv x ir Hil); cbn [bind].
              do 3 eexists. split; [reflexivity|]. rewrite E.
              assert (Hpx : equiv pv x) by (split; assumption).
              replace (P ++ (toList c1 ++ pv :: toList c2) ++ Q)
                with ((P ++ toList c1) ++ pv :: (toList c2 ++ Q))
                by (repeat rewrite <- app_assoc; reflexivity).
              replace (P ++ toList c1 ++ x :: toList c2 ++ Q)
                with ((P ++ toList c1) ++ x :: (toList c2 ++ Q))
                by (repeat rewrite <- app_assoc; reflexivity).
              exists (P ++ toList c1), (toList c2 ++ Q).
              split; [|split].
              ** apply Forall_app. split; [assumption|].
                 eapply Forall_impl; [|exact Hb1].
                 intros z Hz. exact (lt_eqv Hz Hpx).
              ** apply Forall_app. split; [|assumption].
                 eapply Forall_impl; [|exact Hb2].
                 intros z Hz. exact (eqv_lt (eqv_sym Hpx) Hz).
              ** right. exists pv. auto.
Qed.

(** ** The tree *)

Implicit Types t : BTree Item Ctx.

Definition treeHeight t : nat :=
  match bt_root t with
  | None => O
  | Some r => height r
  end.

Lemma ReplaceOrInsert_spec t x fuel :
  treeShape t -> bt_ctx t = ctx -> asc (treeItems t) -> 1 <= maxItems t ->
  (treeHeight t + 1 < fuel)%nat ->
  exists out t',
    ReplaceOrInsert Less fuel t (Some x) = Ret (out, t') /\
    insSpec x (treeItems t) out (treeItems t') /\
    bt_length t' = match out with
                   | None => bt_length t + 1
                   | Some _ => bt_length t
                   end /\
    bt_degree t' = bt_degree t /\ bt_ctx t' = bt_ctx t /\
    (treeHeight t' <= treeHeight t + 1)%nat.
Proof.
  intros [Hf Hr] Hctx Ha Hmx Hfuel.
  unfold ReplaceOrInsert, treeItems, treeHeight in *.
  destruct (bt_root t) as [r|].
  - destruct Hr as (h & Hr). rewrite (shape_height _ _ Hr) in Hfuel |- *.
    assert (H1 : exists r1 f1 h1,
               (if maxItems t <=? len (items r)
                then
                  '(item2, second, oldroot, f1) <-
                     split r (Z.quot (maxItems t) 2) (bt_freelist t) ;;
                  (let '(nr, f2) := BTree_newNode f1 in
                   Ret (Node (items nr ++ [item2])
                             (children nr ++ [oldroot; second]), f2))
                else Ret (r, bt_freelist t)) = Ret (r1, f1) /\
               shape h1 r1 /\ blankPool f1 /\ toList r1 = toList r /\
               (h1 <= h + 1)%nat).
    { destruct (maxItems t <=? len (items r)) eqn:Efull.
      - apply Z.leb_le in Efull.
        destruct (@split_total h r (Z.quot (maxItems t) 2) (bt_freelist t) Hr Hf
                    (quot_half_range Hmx Efull)) as (pv & c2 & c1 & f1 & Hs).
        destruct (@split_shape _ h r _ _ pv c2 c1 f1 Hr Hf Hs)
          as (S2 & S1 & Hf1 & _ & _ & Ht).
        rewrite Hs; cbn [bind]. unfold BTree_newNode.
        destruct (newNode_blank_eq Hf1) as (f2 & Hn & Hf2). rewrite Hn.
        cbn [items children blank app].
        exists (Node [pv] [c1; c2]), f2, (S h).
        split; [reflexivity|]. split; [|split; [assumption|split; [|lia]]].
        + split; [reflexivity|]. cbn [children]. now repeat constructor.
        + rewrite Ht, toList_Node. cbn [map interleave concat].
          now rewrite app_nil_r.
      - exists r, (bt_freelist t), h. repeat split; try assumption. lia. }
    destruct H1 as (r1 & f1 & h1 & -> & Hr1 & Hf1 & Ht1 & Hh1). cbn [bind].
    rewrite <- Ht1 in Ha. rewrite Hctx.
    destruct (@insert_spec x (maxItems t) Hmx fuel h1 r1 f1 Hr1 Ha Hf1)
      as (out & r2 & f3 & Hins & Hspec); [lia|].
    rewrite Hins; cbn [bind].
    destruct (@insert_shape _ _ Less fuel h1 r1 x _ ctx f1 out r2 f3 Hr1 Hf1 Hins)
      as [Hr2 _].
    do 2 eexists. split; [reflexivity|]. cbn [bt_root bt_length bt_degree bt_ctx].
    rewrite <- Ht1. split; [assumption|]. split; [reflexivity|].
    split; [reflexivity|]. split; [reflexivity|].
    rewrite (shape_height _ _ Hr2). lia.
  - unfold BTree_newNode.
    destruct (newNode_blank_eq Hf) as (f1 & Hn & Hf1). rewrite Hn.
    cbn [items children blank app].
    do 2 eexists. split; [reflexivity|]. cbn [bt_root bt_length bt_degree bt_ctx].
    split; [|repeat split; simpl; lia].
    exists [], []. split; [constructor|]. split; [constructor|]. left. auto.
Qed.

Lemma maxItems_degree t : 2 <= bt_degree t -> 1 <= maxItems t.
Proof. unfold maxItems. lia. Qed.

(** C6. When an item equivalent to [x] is stored, inserting [x] returns
    the stored item and puts [x] in its place in the ascending sequence,
    and the length does not move.  Hence a second insertion of the same
    item returns the item itself and changes neither the sequence (so
    neither membership) nor the length. *)
Theorem insert_existing_replaces t x fuel :
  treeShape t -> bt_ctx t = ctx -> asc (treeItems t) -> 2 <= bt_degree t ->
  (treeHeight t + 2 < fuel)%nat ->
  (forall y, In y (treeItems t) -> equiv y x ->
     exists t' l1 l2,
       ReplaceOrInsert Less fuel t (Some x) = Ret (Some y, t') /\
       treeItems t = l1 ++ y :: l2 /\
       treeItems t' = l1 ++ x :: l2 /\
       bt_length t' = bt_length t) /\
  (exists out t1 t2,
     ReplaceOrInsert Less fuel t (Some x) = Ret (out, t1) /\
     In x (treeItems t1) /\
     ReplaceOrInsert Less fuel t1 (Some x) = Ret (Some x, t2) /\
     treeItems t2 = treeItems t1 /\
     bt_length t2 = bt_length t1).
Proof.
  intros Ht Hctx Ha Hd Hfuel.
  assert (Hmx : 1 <= maxItems t) by now apply maxItems_degree.
  destruct (@ReplaceOrInsert_spec t x fuel Ht Hctx Ha Hmx)
    as (out & t1 & H1 & Hspec & Hlen & Hdeg & Hctx1 & Hh); [lia|].
  split.
  - intros y Hy Hyx.
    destruct (insSpec_present Hspec Hy Hyx) as (-> & l1 & l2 & E1 & E2).
    rewrite H1. exists t1, l1, l2. auto.
  - assert (Ht1 : treeShape t1) by (eapply ReplaceOrInsert_shape; eassumption).
    assert (Ha1 : asc (treeItems t1)) by (eapply insSpec_asc; eassumption).
    assert (Hin : In x (treeItems t1)).
    { destruct Hspec as (l1 & l2 & _ & _ & [(_ & _ & ->)|(y & _ & _ & _ & ->)]);
        apply in_elt. }
    assert (Hmx1 : 1 <= maxItems t1) by (apply maxItems_degree; lia).
    destruct (@ReplaceOrInsert_spec t1 x fuel Ht1 (eq_trans Hctx1 Hctx) Ha1 Hmx1)
      as (out2 & t2 & H2 & Hspec2 & Hlen2 & _); [lia|].
    destruct (insSpec_present Hspec2 Hin (equiv_refl SWO x))
      as (-> & l1 & l2 & E1 & E2).
    exists out, t1, t2. repeat split; try assumption. congruence.
Qed.

(** * Removal *)

(** ** The choice of the child *)

Lemma removeTarget_inv n item typ i found :
  removeTarget Less n item typ ctx = Ret (Descend i found) ->
  len (children n) <> 0 /\
  ((typ = removeMax /\ i = len (items n) /\ found = false) \/
   (typ = removeMin /\ i = 0 /\ found = false) \/
   (typ = removeItem /\ find Less (items n) item ctx = Ret (i, found))).
Proof.
  unfold removeTarget. intros H.
  destruct (typ =? removeMax) eqn:E2;
    [|destruct (typ =? removeMin) eqn:E1;
      [|destruct (typ =? removeItem) eqn:E0; [|discriminate]]].
  - apply Z.eqb_eq in E2. destruct (len (children n) =? 0) eqn:Ez.
    + bind_inv H. destruct a. discriminate.
    + apply Z.eqb_neq in Ez. injection H as <- <-. auto.
  - apply Z.eqb_eq in E1. destruct (len (children n) =? 0) eqn:Ez.
    + bind_inv H. destruct a. discriminate.
    + apply Z.eqb_neq in Ez. injection H as <- <-. auto 6.
  - apply Z.eqb_eq in E0. bind_inv H. destruct a as [i0 found0].
    destruct (len (children n) =? 0) eqn:Ez.
    + destruct found0; [bind_inv H; destruct a|]; discriminate.
    + apply Z.eqb_neq in Ez. injection H as <- <-. auto 6.
Qed.

Lemma removeTarget_max n item :
  len (children n) <> 0 ->
  removeTarget Less n item removeMax ctx = Ret (Descend (len (items n)) false).
Proof.
  intros H%Z.eqb_neq. unfold removeTarget.
  cbn [removeMax Z.eqb Pos.eqb]. now rewrite H.
Qed.

Lemma removeTarget_min n item :
  len (children n) <> 0 ->
  removeTarget Less n item removeMin ctx = Ret (Descend 0 false).
Proof.
  intros H%Z.eqb_neq. unfold removeTarget.
  cbn [removeMax removeMin Z.eqb Pos.eqb]. now rewrite H.
Qed.

Lemma removeTarget_item n item i found :
  len (children n) <> 0 ->
  find Less (items n) item ctx = Ret (i, found) ->
  removeTarget Less n item removeItem ctx = Ret (Descend i found).
Proof.
  intros H%Z.eqb_neq Hf. unfold removeTarget.
  cbn [removeMax removeMin removeItem Z.eqb Pos.eqb].
  rewrite Hf; cbn [bind]. now rewrite H.
Qed.

(** A nil probe cannot be compared with a stored item. *)
Lemma find_nil_probe (s : list Item) :
  s <> [] -> find Less s None ctx = Panic NilDereference.
Proof.
  intros Hs. unfold find. destruct s as [|a s]; [contradiction|].
  cbn [length find_loop].
  assert (Hlt : (0 <? len (a :: s)) = true) by (apply Z.ltb_lt; lens).
  rewrite Hlt.
  destruct (@index_in_range _ (a :: s) (0 + Z.quot (len (a :: s) - 0) 2))
    as (sh & Hsh).
  { pose proof (@quot_half_range (len (a :: s)) (len (a :: s))).
    rewrite Z.sub_0_r. lens. }
  rewrite Hsh. reflexivity.
Qed.

Lemma find_true_index (s : list Item) item i :
  find Less s item ctx = Ret (i, true) -> exists y, index s i = Ret y.
Proof.
  unfold find. intros H. bind_inv H.
  destruct (0 <? a); [|discriminate]. bind_inv H.
  destruct item as [x|]; [|discriminate].
  destruct (negb (Less a0 x ctx)); [|discriminate].
  injection H as <-. eauto.
Qed.

(** ** [growChild] returns *)

Lemma growChild_outcome h n i c m f :
  shape (S h) n -> index (children n) i = Ret c ->
  0 <= m -> 1 <= len (items n) ->
  exists n1 f1 i',
    growChild n i m f = Ret (n1, f1) /\ grown m n i n1 i'.
Proof.
  intros Hshape Hc Hm0 Hne.
  destruct (@shape_focus _ h n i c Hshape Hc)
    as (il & ir & cl & cr & -> & Hil & Hcl & Hlr).
  clear Hc Hshape. cbn [items] in Hne.
  (* the right neighbour, when there is one *)
  assert (Hright : forall il0 cl0 sep ir' R cr',
             len il0 = len cl0 ->
             noLeft (cl0 ++ c :: R :: cr') (len cl0) m ->
             exists n1 f1 i',
               growChild (Node (il0 ++ sep :: ir') (cl0 ++ c :: R :: cr'))
                         (len cl0) m f = Ret (n1, f1) /\
               grown m (Node (il0 ++ sep :: ir') (cl0 ++ c :: R :: cr'))
                     (len cl0) n1 i').
  { intros il0 cl0 sep ir' R cr' Hl0 Hno.
    destruct (Z.lt_ge_cases m (len (items R))) as [HmR|HmR].
    - destruct (items R) as [|s sr] eqn:ER; [exfalso; lens|].
      destruct (children R) as [|k rc'] eqn:EC.
      + do 3 eexists. split.
        * rewrite (@growChild_right _ il0 sep ir' cl0 c R cr' (len cl0) m f
                     [] (children c)); auto; try (rewrite ER; lens).
          rewrite ER, removeAt_front. reflexivity.
        * apply (@GrownRight _ m il0 sep ir' cl0 c R cr' s sr [] (children c));
            auto. rewrite ER. lens.
      + do 3 eexists. split.
        * rewrite (@growChild_right _ il0 sep ir' cl0 c R cr' (len cl0) m f
                     rc' (children c ++ [k])); eauto; try (rewrite ER; lens).
          rewrite ER, removeAt_front. reflexivity.
        * apply (@GrownRight _ m il0 sep ir' cl0 c R cr' s sr rc'
                             (children c ++ [k])); eauto. rewrite ER. lens.
    - do 3 eexists. split.
      + apply (@growChild_merge_right _ il0 sep ir' cl0 c R cr' (len cl0) m f);
          auto.
      + now apply GrownMergeRight. }
  destruct (snoc_cases cl) as [->|(cl' & L & ->)].
  - (* the first child *)
    assert (Hi0 : i = 0) by lens.
    assert (il = []) by (apply len_zero; lens). subst il.
    clear Hil Hcl. subst i.
    destruct ir as [|sep ir']; [exfalso; lens|].
    destruct cr as [|R cr']; [exfalso; lens|].
    apply (Hright [] [] sep ir' R cr'); [reflexivity|].
    intros L HL. exfalso. lens.
  - (* a child with a left sibling *)
    assert (Hil' : exists il' sep, il = il' ++ [sep]).
    { destruct (snoc_cases il) as [->|(il' & sep & ->)]; [exfalso; lens | eauto]. }
    destruct Hil' as (il' & sep & ->).
    assert (Hl3 : len il' = len cl') by lens.
    assert (Hi : i = len cl' + 1) by lens.
    rewrite Hi. clear Hne.
    destruct (Z.lt_ge_cases m (len (items L))) as [HmL|HmL].
    + rewrite <- !app_assoc. cbn [app].
      destruct (snoc_cases (items L)) as [EI|(sl & s & EI)];
        [rewrite EI in HmL; exfalso; lens|].
      destruct (snoc_cases (children L)) as [EL|(lc' & k & EL)].
      * do 3 eexists. split.
        -- rewrite (@growChild_left _ il' sep ir cl' L c cr (len cl' + 1) m f
                      [] (children c)); auto; try lia.
           rewrite EI, pop_snoc. reflexivity.
        -- apply (@GrownLeft _ m il' sep ir cl' L c cr sl s [] (children c)); auto.
      * do 3 eexists. split.
        -- rewrite (@growChild_left _ il' sep ir cl' L c cr (len cl' + 1) m f
                      lc' (k :: children c)); eauto; try lia.
           rewrite EI, pop_snoc. reflexivity.
        -- apply (@GrownLeft _ m il' sep ir cl' L c cr sl s lc' (k :: children c));
             eauto.
    + destruct ir as [|sep' ir'].
      * assert (cr = []) by (apply len_zero; lens). subst cr.
        rewrite <- !app_assoc. cbn [app].
        do 3 eexists. split.
        -- apply (@growChild_merge_left _ il' sep cl' L c [] (len cl' + 1) m f);
             auto; lia.
        -- now apply GrownMergeLeft.
      * destruct cr as [|R cr']; [exfalso; lens|].
        replace (len cl' + 1) with (len (cl' ++ [L])) by lens.
        apply (Hright (il' ++ [sep]) (cl' ++ [L]) sep' ir' R cr'); [lens|].
        intros L' _ HL'.
        replace (len (cl' ++ [L]) - 1) with (len cl') in HL' by lens.
        rewrite <- app_assoc in HL'. cbn [app] in HL'.
        rewrite (index_app_mid cl' L (c :: R :: cr') eq_refl) in HL'.
        now injection HL' as <-.
Qed.

(** ** The retry after [growChild] *)

Lemma grown_items_nonempty m n i n1 i' : grown m n i n1 i' -> items n <> [].
Proof. intros G; destruct G; cbn [items]; now destruct il || destruct il'. Qed.

Lemma Forall_snoc_inv (P : Item -> Prop) l x :
  Forall P (l ++ [x]) -> Forall P l /\ P x.
Proof. intros [H1 H2]%Forall_app. now inversion H2. Qed.

(** After [growChild], the choice of the child made again on the
    rewritten node falls on the grown child. *)
Lemma grown_target h m n i found item typ n1 i' :
  shape (S h) n -> asc (toList n) ->
  removeTarget Less n item typ ctx = Ret (Descend i found) ->
  grown m n i n1 i' ->
  exists found', removeTarget Less n1 item typ ctx = Ret (Descend i' found').
Proof.
  intros Hn Ha Ht G.
  pose proof (grown_shape Hn G) as Hn1.
  pose proof (grown_toList Hn G) as Et.
  assert (Ha1 : asc (toList n1)) by (now rewrite Et).
  pose proof (asc_items _ Ha1) as Hai1.
  pose proof (asc_items _ Ha) as Hai.
  assert (Hc1 : len (children n1) <> 0) by (destruct Hn1 as [Hl _]; lens).
  destruct (@removeTarget_inv n item typ i found Ht)
    as [_ [(-> & Hi & ->)|[(-> & Hi & ->)|(-> & Hfind)]]].
  - (* removeMax *)
    exists false. rewrite removeTarget_max by assumption. do 2 f_equal.
    destruct G; cbn [items] in *; lens.
  - (* removeMin *)
    exists false. rewrite removeTarget_min by assumption. do 2 f_equal.
    destruct G; cbn [items] in *; lens.
  - (* removeItem *)
    destruct item as [x|].
    2:{ rewrite find_nil_probe in Hfind; [discriminate|].
        eapply grown_items_nonempty; exact G. }
    destruct (@find_decomp _ _ Less ctx SWO (items n) x i found Hai Hfind)
      as (a & b & Hits & Hlen & Hlow & Hhigh).
    destruct G as [il' sep ir cl' L c cr sl s lc' cc' Hl HitsL Hm Hk
                  |il sep ir' cl c R cr' s sr rc' cc' Hl HitsR Hm Hk
                  |il sep ir' cl c R cr' Hl Hm
                  |il' sep cl' L c Hl Hm];
      cbn [items children] in *.
    + (* stolen from the left *)
      replace (il' ++ sep :: ir) with ((il' ++ [sep]) ++ ir) in Hits
        by (now rewrite <- app_assoc).
      apply app_len_inj in Hits as [<- <-]; [|lens].
      apply Forall_snoc_inv in Hlow as [Hlow Hsx].
      replace (il' ++ s :: ir) with ((il' ++ [s]) ++ ir) in *
        by (now rewrite <- app_assoc).
      assert (Hlen' : len (il' ++ [s]) = len cl' + 1) by lens.
      destruct found.
      * destruct Hhigh as (y & ir' & -> & Hyx & _).
        exists true. apply removeTarget_item; [assumption|]. cbn [items].
        rewrite (@find_at_present _ _ Less ctx SWO (il' ++ [s]) y ir' x Hai1 Hyx).
        now rewrite Hlen'.
      * exists false. apply removeTarget_item; [assumption|]. cbn [items].
        assert (Hs : lt s sep).
        { rewrite toList_two in Ha by assumption.
          rewrite app_assoc in Ha. apply asc_mid in Ha as (H1 & _).
          rewrite Forall_forall in H1. apply H1. apply in_or_app. right.
          apply items_In_toList. rewrite HitsL. apply in_elt. }
        rewrite (@find_at_absent _ _ Less ctx SWO (il' ++ [s]) ir x Hai1);
          [now rewrite Hlen' | | assumption].
        apply Forall_app. split; [assumption|].
        constructor; [exact (ltT Hs Hsx) | constructor].
    + (* stolen from the right *)
      apply app_len_inj in Hits as [<- <-]; [|lens].
      assert (Hs : lt sep s).
      { rewrite toList_two in Ha by assumption.
        rewrite app_assoc in Ha. apply asc_mid in Ha as (_ & H2 & _).
        rewrite Forall_forall in H2. apply H2. apply in_or_app. left.
        apply items_In_toList. rewrite HitsR. now left. }
      assert (Hx : lt x s /\ Forall (lt x) ir').
      { destruct found.
        - destruct Hhigh as (y & ir'' & [= <- <-] & Hyx & Hh).
          split; [exact (eqv_lt (eqv_sym Hyx) Hs) | assumption].
        - inversion Hhigh as [|? ? Hxs Hh]; subst.
          split; [exact (ltT Hxs Hs) | assumption]. }
      exists false. apply removeTarget_item; [assumption|]. cbn [items].
      rewrite (@find_at_absent _ _ Less ctx SWO il (s :: ir') x Hai1);
        [now rewrite Hl | assumption | now constructor].
    + (* merged with the right neighbour *)
      apply app_len_inj in Hits as [<- <-]; [|lens].
      assert (Hx : Forall (lt x) ir').
      { destruct found.
        - now destruct Hhigh as (y & ir'' & [= <- <-] & _ & Hh).
        - now inversion Hhigh. }
      exists false. apply removeTarget_item; [assumption|]. cbn [items].
      rewrite (@find_at_absent _ _ Less ctx SWO il ir' x Hai1);
        [now rewrite Hl | assumption | assumption].
    + (* merged into the left neighbour *)
      replace (il' ++ [sep]) with ((il' ++ [sep]) ++ []) in Hits
        by apply app_nil_r.
      apply app_len_inj in Hits as [<- <-]; [|lens].
      apply Forall_snoc_inv in Hlow as [Hlow _].
      exists false. apply removeTarget_item; [assumption|]. cbn [items].
      rewrite <- (app_nil_r il') in Hai1 |- * at 1.
      rewrite (@find_at_absent _ _ Less ctx SWO il' [] x Hai1);
        [now rewrite Hl | assumption | constructor].
Qed.

Lemma lower_child m n i c :
  lower m n -> index (children n) i = Ret c ->
  m <= len (items c) /\ lower m c.
Proof.
  intros Hl%lower_unfold Hc%index_In. rewrite Forall_forall in Hl. auto.
Qed.

(** C2. On a balanced, ordered node whose children hold at least
    [minItems] items, when [remove] selects a child with no more than
    [minItems] items, [growChild] returns, [growChildAndRemove] retries
    [remove] on the rewritten node, and the child the retry selects
    holds more than [minItems] items.  So [remove] on the node is
    [remove] on the rewritten node, and that retry is the branch past
    the test: it pulls the predecessor out of the selected child or goes
    on in it, and does not call [growChildAndRemove] on the node again. *)
Theorem grow_then_retry_descends h n m f item typ i found c :
  shape (S h) n -> asc (toList n) -> lower m n ->
  0 <= m -> 1 <= len (items n) ->
  removeTarget Less n item typ ctx = Ret (Descend i found) ->
  index (children n) i = Ret c -> len (items c) <= m ->
  exists n1 f1 i' found' c',
    growChild n i m f = Ret (n1, f1) /\
    (forall fuel,
        growChildAndRemove Less (S fuel) n i item m typ ctx f
        = remove Less fuel n1 item m typ ctx f1) /\
    removeTarget Less n1 item typ ctx = Ret (Descend i' found') /\
    index (children n1) i' = Ret c' /\
    (len (items c') <=? m) = false /\
    (forall fuel,
        remove Less (S (S fuel)) n item m typ ctx f
        = remove Less fuel n1 item m typ ctx f1) /\
    (forall fuel,
        remove Less (S fuel) n1 item m typ ctx f1
        = if found' then
            out <- index (items n1) i' ;;
            '(pred, child', f') <-
               remove Less fuel c' None m removeMax ctx f1 ;;
            match pred with
            | Some p =>
                its <- assign (items n1) i' p ;;
                chs <- assign (children n1) i' child' ;;
                Ret (Some out, Node its chs, f')
            | None => Panic NilStored
            end
          else
            '(out, child', f') <-
               remove Less fuel c' item m typ ctx f1 ;;
            chs <- assign (children n1) i' child' ;;
            Ret (out, Node (items n1) chs, f')).
Proof.
  intros Hn Ha Hlow Hm Hne Ht Hc Hsmall.
  destruct (@growChild_outcome h n i c m f Hn Hc Hm Hne)
    as (n1 & f1 & i' & Hg & G).
  destruct (@grown_target h m n i found item typ n1 i' Hn Ha Ht G)
    as (found' & Ht').
  destruct (@grown_child _ m n i n1 i' c G Hc) as (c' & Hc' & Hlen).
  destruct (@lower_child m n i c Hlow Hc) as [Hge _].
  assert (Hchk : (len (items c) <=? m) = true) by (apply Z.leb_le; lia).
  assert (Hchk' : (len (items c') <=? m) = false) by (apply Z.leb_gt; lia).
  exists n1, f1, i', found', c'.
  split; [assumption|].
  split; [|split; [assumption|split; [assumption|split; [assumption|split]]]].
  - intros fuel. cbn [growChildAndRemove]. now rewrite Hg.
  - intros fuel. cbn [remove]. rewrite Ht; cbn [bind]. rewrite Hc; cbn [bind].
    rewrite Hchk. cbn [growChildAndRemove]. now rewrite Hg.
  - intros fuel. cbn [remove]. rewrite Ht'; cbn [bind]. rewrite Hc'; cbn [bind].
    now rewrite Hchk'.
Qed.

(** ** The walk down to a leaf *)

(** The modes in which [remove] walks down without finding the item in a
    node on its way: the two extremum modes, and [removeItem] for an item
    that no stored item is equivalent to. *)
Definition walkMode (typ : toRemove) (item : option Item) l : Prop :=
  typ = removeMax \/ typ = removeMin \/
  (typ = removeItem /\
   exists x, item = Some x /\ forall z, In z l -> ~ equiv z x).

(** What the walk does to the traversal and what it returns. *)
Definition rmSpec (typ : toRemove) l (out : option Item) l' : Prop :=
  (typ = removeMax /\ exists p, out = Some p /\ l = l' ++ [p]) \/
  (typ = removeMin /\ exists p, out = Some p /\ l = p :: l') \/
  (typ = removeItem /\ out = None /\ l' = l).

Lemma removeTarget_leaf_max n item l p :
  children n = [] -> items n = l ++ [p] ->
  removeTarget Less n item removeMax ctx = Ret (Done (Some p) (Node l [])).
Proof.
  intros Hc Hi. unfold removeTarget. cbn [removeMax Z.eqb Pos.eqb].
  rewrite Hc, Hi. cbn [len length Z.of_nat Z.eqb].
  now rewrite pop_snoc.
Qed.

Lemma removeTarget_leaf_min n item l p :
  children n = [] -> items n = p :: l ->
  removeTarget Less n item removeMin ctx = Ret (Done (Some p) (Node l [])).
Proof.
  intros Hc Hi. unfold removeTarget. cbn [removeMax removeMin Z.eqb Pos.eqb].
  rewrite Hc, Hi. cbn [len length Z.of_nat Z.eqb].
  now rewrite removeAt_front.
Qed.

Lemma removeTarget_leaf_absent n item i :
  children n = [] -> find Less (items n) item ctx = Ret (i, false) ->
  removeTarget Less n item removeItem ctx = Ret (Done None n).
Proof.
  intros Hc Hf. unfold removeTarget.
  cbn [removeMax removeMin removeItem Z.eqb Pos.eqb].
  rewrite Hf, Hc. reflexivity.
Qed.

Lemma find_absent (s : list Item) x :
  asc s -> (forall z, In z s -> ~ equiv z x) ->
  exists i, find Less s (Some x) ctx = Ret (i, false) /\ 0 <= i <= len s.
Proof.
  intros Hs Hab.
  destruct (@find_correct _ _ Less ctx SWO s x Hs)
    as (i & found & Hf & Hi & Hiff & _).
  destruct found.
  - destruct (proj1 Hiff eq_refl) as (z & Hz & Hzx). now destruct (Hab z Hz).
  - eauto.
Qed.

Lemma grown_items_len m n i n1 i' :
  grown m n i n1 i' -> len (items n) - 1 <= len (items n1).
Proof. intros G; destruct G; cbn [items]; lens. Qed.

Lemma typ_distinct :
  removeMax <> removeMin /\ removeMax <> removeItem /\ removeMin <> removeItem.
Proof. repeat split; discriminate. Qed.

(** The walk at a leaf. *)
Lemma remove_walk_leaf m n typ item f fuel :
  shape 0 n -> asc (toList n) -> walkMode typ item (toList n) ->
  1 <= len (items n) -> (1 <= fuel)%nat ->
  exists out n' f',
    remove Less fuel n item m typ ctx f = Ret (out, n', f') /\
    rmSpec typ (toList n) out (toList n') /\
    lower m n' /\ len (items n) - 1 <= len (items n').
Proof.
  intros Hn Ha Hmode Hne Hfuel. simpl in Hn.
  destruct fuel as [|fuel]; [lia|]. cbn [remove].
  assert (Et : toList n = items n) by (rewrite toList_eta, Hn; reflexivity).
  rewrite Et in *.
  destruct Hmode as [->|[->|(-> & x & -> & Hab)]].
  - destruct (snoc_cases (items n)) as [E|(l & p & E)];
      [rewrite E in Hne; exfalso; lens|].
    rewrite (@removeTarget_leaf_max n item l p Hn E); cbn [bind].
    do 3 eexists. split; [reflexivity|]. rewrite toList_Node, E.
    cbn [map interleave].
    split; [left; eauto|]. split; [exact I | cbn [items]; lens].
  - destruct (items n) as [|p l] eqn:E; [exfalso; lens|].
    rewrite (@removeTarget_leaf_min n item l p Hn E); cbn [bind].
    do 3 eexists. split; [reflexivity|]. rewrite toList_Node.
    cbn [map interleave].
    split; [right; left; eauto|]. split; [exact I | cbn [items]; lens].
  - destruct (@find_absent (items n) x Ha Hab) as (i & Hf & _).
    rewrite (@removeTarget_leaf_absent n (Some x) i Hn Hf); cbn [bind].
    do 3 eexists. split; [reflexivity|]. rewrite Et.
    split; [right; right; auto|].
    split; [|lia]. apply lower_unfold. rewrite Hn. constructor.
Qed.

(** The statement of the walk at height [h]: [remove] returns, and does
    to the traversal what [rmSpec] says. *)
Definition walks m (h : nat) : Prop :=
  forall n typ item f fuel,
    shape h n -> asc (toList n) -> lower m n ->
    walkMode typ item (toList n) -> 1 <= len (items n) ->
    (3 * h + 1 <= fuel)%nat ->
    exists out n' f',
      remove Less fuel n item m typ ctx f = Ret (out, n', f') /\
      rmSpec typ (toList n) out (toList n') /\
      lower m n' /\ len (items n) - 1 <= len (items n').

(** One step down, into a child that can spare an item. *)
Lemma remove_walk_big m h :
  1 <= m -> walks m h ->
  forall n typ item f fuel i c,
    shape (S h) n -> asc (toList n) -> lower m n ->
    walkMode typ item (toList n) ->
    removeTarget Less n item typ ctx = Ret (Descend i false) ->
    index (children n) i = Ret c -> m < len (items c) ->
    (3 * h + 2 <= fuel)%nat ->
    exists out n' f',
      remove Less fuel n item m typ ctx f = Ret (out, n', f') /\
      rmSpec typ (toList n) out (toList n') /\
      lower m n' /\ len (items n') = len (items n).
Proof.
  intros Hm IH n typ item f fuel i c Hn Ha Hlow Hmode Ht Hc Hbig Hfuel.
  destruct fuel as [|fuel]; [lia|]. cbn [remove].
  rewrite Ht; cbn [bind]. rewrite Hc; cbn [bind].
  assert (Hchk : (len (items c) <=? m) = false) by (apply Z.leb_gt; lia).
  rewrite Hchk.
  destruct (@removeTarget_inv n item typ i false Ht) as [_ Hsel].
  destruct (@shape_focus _ h n i c Hn Hc)
    as (il & ir & cl & cr & -> & Hil & Hcl & Hlr).
  cbn [items children] in *.
  assert (Hlc : len il = len cl) by lia.
  rewrite (toList_child_focus il ir cl c cr Hlc) in *.
  destruct Hn as [_ Hch]. cbn [children] in Hch.
  apply Forall_mid in Hch as (_ & Hcs & _).
  apply lower_Node in Hlow. apply Forall_mid in Hlow as (Hl1 & [Hcm Hcl'] & Hl2).
  assert (Hac : asc (toList c)) by exact (asc_app_l _ _ (asc_app_r _ _ Ha)).
  assert (Hmode_c : walkMode typ item (toList c)).
  { destruct Hmode as [?|[?|(? & x & ? & Hab)]];
      [now left | now right; left | right; right].
    split; [assumption|]. exists x. split; [assumption|].
    intros z Hz. apply Hab. apply in_or_app. right. apply in_or_app. now left. }
  destruct (IH c typ item f fuel Hcs Hac Hcl' Hmode_c)
    as (out & c' & f' & Hrem & Hspec & Hlow' & Hlen'); [lia | lia |].
  rewrite Hrem; cbn [bind].
  rewrite (assign_app_mid cl c c' cr Hcl); cbn [bind].
  do 3 eexists. split; [reflexivity|].
  rewrite (toList_child_focus il ir cl c' cr Hlc).
  pose proof typ_distinct as (D1 & D2 & D3).
  split; [|split].
  - destruct Hspec as [(-> & p & -> & Ec)|[(-> & p & -> & Ec)|(-> & -> & Ec)]].
    + destruct Hsel as [(_ & Hi & _)|[(Hbad & _)|(Hbad & _)]]; try congruence.
      assert (ir = []) by (apply len_zero; lens). subst ir.
      assert (cr = []) by (apply len_zero; lens). subst cr.
      left. split; [reflexivity|]. exists p. split; [reflexivity|].
      rewrite Ec. cbn [map interleave concat app].
      rewrite !app_nil_r. now rewrite app_assoc.
    + destruct Hsel as [(Hbad & _)|[(_ & Hi & _)|(Hbad & _)]]; try congruence.
      assert (il = []) by (apply len_zero; lens). subst il.
      assert (cl = []) by (apply len_zero; lens). subst cl.
      right; left. split; [reflexivity|]. exists p. split; [reflexivity|].
      rewrite Ec. reflexivity.
    + right; right. rewrite Ec. auto.
  - apply lower_Node. apply Forall_mid.
    split; [assumption|]. split; [|assumption]. split; [lia | assumption].
  - reflexivity.
Qed.

Lemma find_true_In (s : list Item) x i :
  asc s -> find Less s (Some x) ctx = Ret (i, true) ->
  exists y, In y s /\ equiv y x.
Proof.
  intros Hs Hf.
  destruct (@find_decomp _ _ Less ctx SWO s x i true Hs Hf)
    as (il & ir & -> & _ & _ & y & ir' & -> & Hyx & _).
  exists y. split; [apply in_elt | assumption].
Qed.

(** The walk returns at every height. *)
Lemma remove_walk m : 1 <= m -> forall h, walks m h.
Proof.
  intros Hm. induction h as [|h IH];
    intros n typ item f fuel Hn Ha Hlow Hmode Hne Hfuel.
  - apply remove_walk_leaf; try assumption; lia.
  - assert (Hch : len (children n) <> 0) by (destruct Hn; lens).
    assert (Hsel : exists i,
               removeTarget Less n item typ ctx = Ret (Descend i false) /\
               0 <= i <= len (items n)).
    { destruct Hmode as [->|[->|(-> & x & -> & Hab)]].
      - eexists. split; [now apply removeTarget_max|]. lens.
      - eexists. split; [now apply removeTarget_min|]. lens.
      - destruct (@find_absent (items n) x (asc_items _ Ha)) as (i & Hf & Hi).
        { intros z Hz. apply Hab. now apply items_In_toList. }
        exists i. split; [now apply removeTarget_item | assumption]. }
    destruct Hsel as (i & Ht & Hi).
    destruct (@index_in_range _ (children n) i) as (c & Hc);
      [destruct Hn; lens|].
    destruct (Z.lt_ge_cases m (len (items c))) as [Hbig|Hsmall].
    + destruct (@remove_walk_big m h Hm IH n typ item f fuel i c
                  Hn Ha Hlow Hmode Ht Hc Hbig)
        as (out & n' & f' & H1 & H2 & H3 & H4); [lia|].
      exists out, n', f'. repeat split; try assumption. lia.
    + destruct (@growChild_outcome h n i c m f Hn Hc) as (n1 & f1 & i' & Hg & G);
        [lia | lia |].
      pose proof (grown_shape Hn G) as Hn1.
      pose proof (grown_toList Hn G) as Et.
      pose proof (grown_lower Hlow G) as Hlow1.
      pose proof (grown_items_len G) as Hlen1.
      destruct (@grown_child _ m n i n1 i' c G Hc) as (c' & Hc' & Hlen).
      destruct (@lower_child m n i c Hlow Hc) as [Hge _].
      destruct (@grown_target h m n i false item typ n1 i' Hn Ha Ht G)
        as (found' & Ht').
      assert (Ha1 : asc (toList n1)) by (now rewrite Et).
      assert (Hf' : found' = false).
      { destruct (@removeTarget_inv n1 item typ i' found' Ht')
          as [_ [(_ & _ & ->)|[(_ & _ & ->)|(Htyp & Hfind)]]];
          try reflexivity.
        destruct found'; [exfalso | reflexivity].
        pose proof typ_distinct as (D1 & D2 & D3).
        destruct Hmode as [->|[->|(_ & x & -> & Hab)]]; try congruence.
        destruct (@find_true_In (items n1) x i' (asc_items _ Ha1) Hfind)
          as (y & Hy & Hyx).
        apply (Hab y); [|assumption]. rewrite <- Et.
        now apply items_In_toList. }
      subst found'.
      destruct fuel as [|[|fuel]]; try lia. cbn [remove].
      rewrite Ht; cbn [bind]. rewrite Hc; cbn [bind].
      assert (Hchk : (len (items c) <=? m) = true) by (apply Z.leb_le; lia).
      rewrite Hchk. cbn [growChildAndRemove]. rewrite Hg; cbn [bind].
      assert (Hmode1 : walkMode typ item (toList n1)) by (now rewrite Et).
      destruct (@remove_walk_big m h Hm IH n1 typ item f1 fuel i' c'
                  Hn1 Ha1 Hlow1 Hmode1 Ht' Hc')
        as (out & n' & f' & H1 & H2 & H3 & H4); [lia | lia |].
      exists out, n', f'. rewrite <- Et. repeat split; try assumption. lia.
Qed.

(** ** Deleting an absent item *)

(** Lower bounds of a tree: the root holds an item, every other node at
    least [minItems]. *)
Definition treeLower t : Prop :=
  match bt_root t with
  | None => True
  | Some r => lower (minItems t) r /\ 1 <= len (items r)
  end.

(** C7. On a tree that satisfies the invariants, deleting an item that no
    stored item is equivalent to returns nil and leaves the ascending
    sequence and the length as they were. *)
Theorem delete_absent_unchanged t x fuel :
  treeShape t -> bt_ctx t = ctx -> asc (treeItems t) -> treeLower t ->
  2 <= bt_degree t ->
  (forall z, In z (treeItems t) -> ~ equiv z x) ->
  (3 * treeHeight t + 1 <= fuel)%nat ->
  exists t',
    Delete Less fuel t (Some x) = Ret (None, t') /\
    treeItems t' = treeItems t /\
    bt_length t' = bt_length t.
Proof.
  intros [Hf Hr] Hctx Ha Hlow Hd Hab Hfuel.
  unfold Delete, deleteInternal, treeItems, treeLower, treeHeight in *.
  destruct (bt_root t) as [r|] eqn:Eroot; [|exists t; rewrite Eroot; auto].
  destruct Hr as (h & Hr). destruct Hlow as [Hlow Hne].
  rewrite (shape_height _ _ Hr) in Hfuel. rewrite Hctx.
  assert (Hm : 1 <= minItems t) by (unfold minItems; lia).
  assert (Hmode : walkMode removeItem (Some x) (toList r)).
  { right; right. split; [reflexivity|]. eauto. }
  destruct (@remove_walk (minItems t) Hm h r removeItem (Some x) (bt_freelist t)
              fuel Hr Ha Hlow Hmode Hne Hfuel)
    as (out & r1 & f1 & Hrem & Hspec & _ & _).
  pose proof typ_distinct as (D1 & D2 & D3).
  destruct Hspec as [(Hbad & _)|[(Hbad & _)|(_ & -> & Et)]]; try congruence.
  destruct (proj1 (@remove_shape _ _ Less (minItems t) fuel)
                  h r (Some x) removeItem ctx (bt_freelist t) None r1 f1
                  Hr Hf Hrem) as [Hr1 _].
  rewrite Hrem; cbn [bind].
  destruct (len (items r1) =? 0) eqn:Ez.
  - apply Z.eqb_eq, len_zero in Ez.
    destruct h as [|h].
    + simpl in Hr1. rewrite Hr1. cbn [len length Z.of_nat Z.ltb Z.compare bind].
      eexists. split; [reflexivity|]. cbn [bt_root bt_length].
      split; [|reflexivity]. rewrite <- Et, toList_eta, Hr1, Ez. reflexivity.
    + destruct Hr1 as [Hl1 _]. rewrite Ez in Hl1.
      destruct (children r1) as [|c [|c' cs]] eqn:Ec; try (exfalso; lens).
      cbn [len length Z.of_nat Z.ltb Z.compare Pos.of_succ_nat bind index Z.leb
           Z.to_nat nth_error].
      eexists. split; [reflexivity|]. cbn [bt_root bt_length].
      split; [|reflexivity]. rewrite <- Et, (toList_eta r1), Ec, Ez.
      cbn [map]. now rewrite interleave_single.
  - cbn [bind]. eexists. split; [reflexivity|]. cbn [bt_root bt_length]. auto.
Qed.

(** ** Pulling the predecessor *)

Lemma assign_in_range (A : Type) (s : list A) i (a b : A) :
  index s i = Ret a ->
  exists (s1 s2 : list A), s = s1 ++ a :: s2 /\ len s1 = i /\
                            assign s i b = Ret (s1 ++ b :: s2).
Proof.
  intros (s1 & s2 & -> & Hl)%index_focus. exists s1, s2.
  split; [reflexivity|]. split; [assumption|]. now apply assign_app_mid.
Qed.

(** C3. When [remove] in mode [removeItem] finds the item at index [i]
    of the node's own items and child [i] holds more than [minItems]
    items, it calls [remove] on that child in mode [removeMax] with a nil
    item, stores the returned item at [items[i]], and returns the item
    that was stored there.  On an ordered child that call returns the
    last item of the child's traversal, the predecessor. *)
Theorem remove_found_pulls_predecessor n x m f i child :
  find Less (items n) (Some x) ctx = Ret (i, true) ->
  index (children n) i = Ret child ->
  m < len (items child) ->
  exists y,
    index (items n) i = Ret y /\
    (forall fuel pred child' f',
        remove Less fuel child None m removeMax ctx f
        = Ret (Some pred, child', f') ->
        exists its chs,
          assign (items n) i pred = Ret its /\
          assign (children n) i child' = Ret chs /\
          remove Less (S fuel) n (Some x) m removeItem ctx f
          = Ret (Some y, Node its chs, f')) /\
    (forall h fuel,
        1 <= m -> shape h child -> asc (toList child) -> lower m child ->
        (3 * h + 1 <= fuel)%nat ->
        exists pred child' f',
          remove Less fuel child None m removeMax ctx f
          = Ret (Some pred, child', f') /\
          toList child = toList child' ++ [pred]).
Proof.
  intros Hfind Hc Hbig.
  destruct (find_true_index _ _ Hfind) as (y & Hy).
  exists y. split; [assumption|]. split.
  - intros fuel pred child' f' Hrem.
    destruct (@assign_in_range _ (items n) i y pred Hy) as (il & ir & Hits & Hil & Hai).
    destruct (@assign_in_range _ (children n) i child child' Hc)
      as (cl & cr & Hchs & Hcl & Hac).
    do 2 eexists. split; [exact Hai|]. split; [exact Hac|].
    cbn [remove].
    rewrite (@removeTarget_item n (Some x) i true); [|rewrite Hchs; lens|assumption].
    cbn [bind]. rewrite Hc; cbn [bind].
    assert (Hchk : (len (items child) <=? m) = false) by (apply Z.leb_gt; lia).
    rewrite Hchk, Hy; cbn [bind]. rewrite Hrem; cbn [bind].
    rewrite Hai; cbn [bind]. rewrite Hac; cbn [bind]. reflexivity.
  - intros h fuel Hm Hs Ha Hlow Hfuel.
    assert (Hmode : walkMode removeMax None (toList child)) by now left.
    destruct (@remove_walk m Hm h child removeMax None f fuel Hs Ha Hlow Hmode)
      as (out & c' & f' & Hrem & Hspec & _); [lia | assumption |].
    pose proof typ_distinct as (D1 & D2 & D3).
    destruct Hspec as [(_ & p & -> & Et)|[(Hbad & _)|(Hbad & _)]];
      try congruence.
    eauto.
Qed.
(** ** Removing a stored item *)

(** What the removal of an item equivalent to [x] does to the traversal:
    the stored item [y] is returned and leaves the sequence. *)
Definition delSpec x l (out : option Item) l' : Prop :=
  exists y l1 l2,
    out = Some y /\ equiv y x /\ l = l1 ++ y :: l2 /\ l' = l1 ++ l2.

Lemma delSpec_frame x l out l' P Q :
  delSpec x l out l' -> delSpec x (P ++ l ++ Q) out (P ++ l' ++ Q).
Proof.
  intros (y & l1 & l2 & -> & Hy & -> & ->).
  exists y, (P ++ l1), (l2 ++ Q). split; [reflexivity|]. split; [assumption|].
  split; repeat rewrite <- app_assoc; reflexivity.
Qed.

Lemma removeTarget_leaf_present n x il y ir :
  children n = [] -> items n = il ++ y :: ir ->
  find Less (items n) (Some x) ctx = Ret (len il, true) ->
  removeTarget Less n (Some x) removeItem ctx
  = Ret (Done (Some y) (Node (il ++ ir) [])).
Proof.
  intros Hc Hi Hf. unfold removeTarget.
  cbn [removeMax removeMin removeItem Z.eqb Pos.eqb].
  rewrite Hf, Hc; cbn [bind len length Z.of_nat Z.eqb].
  rewrite Hi, (removeAt_app_mid il y ir eq_refl). reflexivity.
Qed.

(** An item equivalent to the probe that is not among the items of the
    node lies in the child that [find] points to. *)
Lemma present_in_child il ir cl c cr x y :
  len il = len cl -> len cr = len ir ->
  asc (toList (Node (il ++ ir) (cl ++ c :: cr))) ->
  Forall (fun z => lt z x) il -> Forall (lt x) ir ->
  In y (toList (Node (il ++ ir) (cl ++ c :: cr))) -> equiv y x ->
  In y (toList c).
Proof.
  intros Hl Hr Ha Hlow Hhigh Hy Hyx.
  rewrite (toList_child_focus il ir cl c cr Hl) in Ha, Hy.
  assert (HP : Forall (fun z => lt z x) (interleave (flat cl) il)).
  { apply prefix_below; [|exact (asc_app_l _ _ Ha)|assumption].
    rewrite length_map. symmetry. now apply length_len. }
  assert (HQ : Forall (lt x) (interleave ([] :: flat cr) ir)).
  { apply suffix_above; [|exact (asc_app_r _ _ (asc_app_r _ _ Ha))|assumption].
    rewrite length_map. now apply length_len. }
  rewrite Forall_forall in HP, HQ.
  apply in_app_or in Hy as [Hy|Hy]; [now destruct (lt_neqv (HP _ Hy))|].
  apply in_app_or in Hy as [Hy|Hy]; [assumption|].
  now destruct (lt_neqv' (HQ _ Hy)).
Qed.

(** The removal at a leaf. *)
Lemma remove_item_leaf m n x f fuel :
  shape 0 n -> asc (toList n) ->
  (exists y, In y (toList n) /\ equiv y x) -> (1 <= fuel)%nat ->
  exists out n' f',
    remove Less fuel n (Some x) m removeItem ctx f = Ret (out, n', f') /\
    delSpec x (toList n) out (toList n') /\
    lower m n' /\ len (items n) - 1 <= len (items n').
Proof.
  intros Hn Ha (y0 & Hy0 & Hy0x) Hfuel. simpl in Hn.
  destruct fuel as [|fuel]; [lia|]. cbn [remove].
  assert (Et : toList n = items n) by (rewrite toList_eta, Hn; reflexivity).
  rewrite Et in *.
  destruct (@find_correct _ _ Less ctx SWO (items n) x Ha)
    as (i & found & Hf & _ & Hiff & _).
  assert (found = true) by (apply Hiff; eauto). subst found.
  destruct (@find_decomp _ _ Less ctx SWO (items n) x i true Ha Hf)
    as (il & ir0 & Hits & Hil & _ & y & ir & -> & Hyx & _).
  subst i.
  rewrite (@removeTarget_leaf_present n x il y ir Hn Hits Hf); cbn [bind].
  do 3 eexists. split; [reflexivity|]. rewrite toList_Node.
  cbn [map interleave items].
  split; [exists y, il, ir; auto|]. split; [exact I|].
  rewrite Hits. lens.
Qed.

(** The statement of the removal at height [h]: [remove] returns the
    stored item, which leaves the traversal. *)
Definition removes m (h : nat) : Prop :=
  forall n x f fuel,
    shape h n -> asc (toList n) -> lower m n ->
    (exists y, In y (toList n) /\ equiv y x) -> 1 <= len (items n) ->
    (3 * h + 1 <= fuel)%nat ->
    exists out n' f',
      remove Less fuel n (Some x) m removeItem ctx f = Ret (out, n', f') /\
      delSpec x (toList n) out (toList n') /\
      lower m n' /\ len (items n) - 1 <= len (items n').

(** One step of the removal at a node whose selected child can spare an
    item: either the item is in the node and the predecessor takes its
    place, or the removal goes on in the child. *)
Lemma remove_item_big m h :
  1 <= m -> removes m h ->
  forall n x f fuel i found c,
    shape (S h) n -> asc (toList n) -> lower m n ->
    (exists y, In y (toList n) /\ equiv y x) ->
    removeTarget Less n (Some x) removeItem ctx = Ret (Descend i found) ->
    index (children n) i = Ret c -> m < len (items c) ->
    (3 * h + 2 <= fuel)%nat ->
    exists out n' f',
      remove Less fuel n (Some x) m removeItem ctx f = Ret (out, n', f') /\
      delSpec x (toList n) out (toList n') /\
      lower m n' /\ len (items n') = len (items n).
Proof.
  intros Hm IH n x f fuel i found c Hn Ha Hlow (y0 & Hy0 & Hy0x) Ht Hc Hbig Hfuel.
  destruct fuel as [|fuel]; [lia|]. cbn [remove].
  rewrite Ht; cbn [bind]. rewrite Hc; cbn [bind].
  assert (Hchk : (len (items c) <=? m) = false) by (apply Z.leb_gt; lia).
  rewrite Hchk.
  pose proof typ_distinct as (D1 & D2 & D3).
  destruct (@removeTarget_inv n (Some x) removeItem i found Ht)
    as [_ [(Hbad & _)|[(Hbad & _)|(_ & Hfind)]]]; try congruence.
  destruct (@find_decomp _ _ Less ctx SWO (items n) x i found
              (asc_items _ Ha) Hfind)
    as (il & ir & Hits & Hil & Hbelow & Habove).
  destruct (@shape_focus _ h n i c Hn Hc)
    as (il0 & ir0 & cl & cr & -> & Hil0 & Hcl & Hlr).
  cbn [items children] in *.
  apply app_len_inj in Hits as [-> ->]; [|lia].
  assert (Hlc : len il = len cl) by lia.
  destruct Hn as [_ Hch]. cbn [children] in Hch.
  apply Forall_mid in Hch as (_ & Hcs & _).
  apply lower_Node in Hlow. apply Forall_mid in Hlow as (Hl1 & [Hcm Hcl'] & Hl2).
  assert (Hac : asc (toList c)).
  { rewrite (toList_child_focus il ir cl c cr Hlc) in Ha.
    exact (asc_app_l _ _ (asc_app_r _ _ Ha)). }
  destruct found.
  - (* the item is in this node *)
    destruct Habove as (y & ir' & -> & Hyx & _).
    rewrite (index_app_mid il y ir' Hil); cbn [bind].
    assert (Hmode : walkMode removeMax None (toList c)) by now left.
    destruct (@remove_walk m Hm h c removeMax None f fuel Hcs Hac Hcl' Hmode)
      as (out & c' & f' & Hrem & Hspec & Hlow' & Hlen'); [lia | lia |].
    destruct Hspec as [(_ & p & -> & Ec)|[(Hbad & _)|(Hbad & _)]];
      try congruence.
    rewrite Hrem; cbn [bind].
    rewrite (assign_app_mid il y p ir' Hil); cbn [bind].
    rewrite (assign_app_mid cl c c' cr Hcl); cbn [bind].
    do 3 eexists. split; [reflexivity|].
    split; [|split].
    + rewrite (toList_child_focus il (y :: ir') cl c cr Hlc).
      rewrite (toList_child_focus il (p :: ir') cl c' cr Hlc).
      rewrite Ec. cbn [interleave app].
      exists y, (interleave (flat cl) il ++ toList c' ++ [p]),
             (interleave (flat cr) ir').
      split; [reflexivity|]. split; [assumption|].
      split; repeat rewrite <- app_assoc; reflexivity.
    + apply lower_Node. apply Forall_mid.
      split; [assumption|]. split; [|assumption]. split; [lia | assumption].
    + cbn [items]. lens.
  - (* the item is below, in the child *)
    assert (Hyc : In y0 (toList c))
      by exact (@present_in_child il ir cl c cr x y0 Hlc Hlr Ha Hbelow Habove
                                  Hy0 Hy0x).
    destruct (IH c x f fuel Hcs Hac Hcl')
      as (out & c' & f' & Hrem & Hspec & Hlow' & Hlen'); [eauto | lia | lia |].
    rewrite Hrem; cbn [bind].
    rewrite (assign_app_mid cl c c' cr Hcl); cbn [bind].
    do 3 eexists. split; [reflexivity|].
    split; [|split].
    + rewrite (toList_child_focus il ir cl c cr Hlc).
      rewrite (toList_child_focus il ir cl c' cr Hlc).
      now apply delSpec_frame.
    + apply lower_Node. apply Forall_mid.
      split; [assumption|]. split; [|assumption]. split; [lia | assumption].
    + reflexivity.
Qed.

(** The removal of a stored item returns at every height. *)
Lemma remove_item m : 1 <= m -> forall h, removes m h.
Proof.
  intros Hm. induction h as [|h IH];
    intros n x f fuel Hn Ha Hlow Hin Hne Hfuel.
  - apply remove_item_leaf; try assumption; lia.
  - assert (Hch : len (children n) <> 0) by (destruct Hn; lens).
    destruct (@find_correct _ _ Less ctx SWO (items n) x (asc_items _ Ha))
      as (i & found & Hfind & Hi & _).
    pose proof (@removeTarget_item n (Some x) i found Hch Hfind) as Ht.
    destruct (@index_in_range _ (children n) i) as (c & Hc);
      [destruct Hn; lens|].
    destruct (Z.lt_ge_cases m (len (items c))) as [Hbig|Hsmall].
    + destruct (@remove_item_big m h Hm IH n x f fuel i found c
                  Hn Ha Hlow Hin Ht Hc Hbig)
        as (out & n' & f' & H1 & H2 & H3 & H4); [lia|].
      exists out, n', f'.
      split; [assumption|]. split; [assumption|]. split; [assumption | lia].
    + destruct (@growChild_outcome h n i c m f Hn Hc) as (n1 & f1 & i' & Hg & G);
        [lia | lia |].
      pose proof (grown_shape Hn G) as Hn1.
      pose proof (grown_toList Hn G) as Et.
      pose proof (grown_lower Hlow G) as Hlow1.
      pose proof (grown_items_len G) as Hlen1.
      destruct (@grown_child _ m n i n1 i' c G Hc) as (c' & Hc' & Hlen).
      destruct (@lower_child m n i c Hlow Hc) as [Hge _].
      destruct (@grown_target h m n i found (Some x) removeItem n1 i' Hn Ha Ht G)
        as (found' & Ht').
      assert (Ha1 : asc (toList n1)) by (now rewrite Et).
      destruct fuel as [|[|fuel]]; try lia. cbn [remove].
      rewrite Ht; cbn [bind]. rewrite Hc; cbn [bind].
      assert (Hchk : (len (items c) <=? m) = true) by (apply Z.leb_le; lia).
      rewrite Hchk. cbn [growChildAndRemove]. rewrite Hg; cbn [bind].
      assert (Hin1 : exists y, In y (toList n1) /\ equiv y x)
        by (now rewrite Et).
      destruct (@remove_item_big m h Hm IH n1 x f1 fuel i' found' c'
                  Hn1 Ha1 Hlow1 Hin1 Ht' Hc')
        as (out & n' & f' & H1 & H2 & H3 & H4); [lia | lia |].
      exists out, n', f'. rewrite <- Et.
      split; [assumption|]. split; [assumption|]. split; [assumption | lia].
Qed.

Lemma asc_remove l1 y l2 : asc (l1 ++ y :: l2) -> asc (l1 ++ l2).
Proof.
  intros (H1 & [_ H2] & H3)%asc_app.
  apply asc_app. split; [assumption|]. split; [assumption|].
  intros a b Ha Hb. apply H3; [assumption | now right].
Qed.

(** X2. On a balanced, ordered subtree whose nodes below the top hold at
    least [minItems] items, [remove] in mode [removeItem] of an item that
    has an equivalent stored item returns that stored item, and the
    traversal of the resulting subtree is the old one without it.  The
    result is balanced at the same height, ordered, and keeps the lower
    bound; the top node loses at most one item. *)
Theorem remove_stored_item h n x m f fuel :
  1 <= m -> shape h n -> asc (toList n) -> lower m n -> blankPool f ->
  1 <= len (items n) ->
  (exists y, In y (toList n) /\ equiv y x) ->
  (3 * h + 1 <= fuel)%nat ->
  exists y n' f' l1 l2,
    remove Less fuel n (Some x) m removeItem ctx f = Ret (Some y, n', f') /\
    equiv y x /\ toList n = l1 ++ y :: l2 /\ toList n' = l1 ++ l2 /\
    asc (toList n') /\ shape h n' /\ lower m n' /\
    len (items n) - 1 <= len (items n') /\ blankPool f'.
Proof.
  intros Hm Hn Ha Hlow Hf Hne Hin Hfuel.
  destruct (@remove_item m Hm h n x f fuel Hn Ha Hlow Hin Hne Hfuel)
    as (out & n' & f' & Hrem & (y & l1 & l2 & -> & Hyx & E & E') & Hlow' & Hlen).
  destruct (proj1 (@remove_shape _ _ Less m fuel)
                  h n (Some x) removeItem ctx f (Some y) n' f' Hn Hf Hrem)
    as [Hn' Hf'].
  exists y, n', f', l1, l2.
  split; [assumption|]. split; [assumption|]. split; [assumption|].
  split; [assumption|].
  split; [rewrite E'; rewrite E in Ha; exact (asc_remove _ _ _ Ha)|].
  split; [assumption|]. split; [assumption|]. split; assumption.
Qed.

(** X3. On such a subtree, [remove] in mode [removeItem] of an item that
    no stored item is equivalent to returns nil; the traversal is
    unchanged and the invariants are kept, though children may have been
    merged or refilled on the way down. *)
Theorem remove_absent_item h n x m f fuel :
  1 <= m -> shape h n -> asc (toList n) -> lower m n -> blankPool f ->
  1 <= len (items n) ->
  (forall z, In z (toList n) -> ~ equiv z x) ->
  (3 * h + 1 <= fuel)%nat ->
  exists n' f',
    remove Less fuel n (Some x) m removeItem ctx f = Ret (None, n', f') /\
    toList n' = toList n /\ shape h n' /\ lower m n' /\
    len (items n) - 1 <= len (items n') /\ blankPool f'.
Proof.
  intros Hm Hn Ha Hlow Hf Hne Hab Hfuel.
  assert (Hmode : walkMode removeItem (Some x) (toList n)).
  { right; right. split; [reflexivity|]. eauto. }
  destruct (@remove_walk m Hm h n removeItem (Some x) f fuel
              Hn Ha Hlow Hmode Hne Hfuel)
    as (out & n' & f' & Hrem & Hspec & Hlow' & Hlen).
  pose proof typ_distinct as (D1 & D2 & D3).
  destruct Hspec as [(Hbad & _)|[(Hbad & _)|(_ & -> & Et)]]; try congruence.
  destruct (proj1 (@remove_shape _ _ Less m fuel)
                  h n (Some x) removeItem ctx f None n' f' Hn Hf Hrem)
    as [Hn' Hf'].
  exists n', f'.
  split; [assumption|]. split; [assumption|]. split; [assumption|].
  split; [assumption|]. split; assumption.
Qed.

(** X4. On such a subtree, whatever the item argument, [remove] in mode
    [removeMin] returns the first item of the traversal and in mode
    [removeMax] the last one; the other items stay in their order and the
    invariants are kept. *)
Theorem remove_min_max h n item m f fuel :
  1 <= m -> shape h n -> asc (toList n) -> lower m n -> blankPool f ->
  1 <= len (items n) ->
  (3 * h + 1 <= fuel)%nat ->
  (exists p n' f',
      remove Less fuel n item m removeMin ctx f = Ret (Some p, n', f') /\
      toList n = p :: toList n' /\
      shape h n' /\ lower m n' /\ blankPool f') /\
  (exists p n' f',
      remove Less fuel n item m removeMax ctx f = Ret (Some p, n', f') /\
      toList n = toList n' ++ [p] /\
      shape h n' /\ lower m n' /\ blankPool f').
Proof.
  intros Hm Hn Ha Hlow Hf Hne Hfuel.
  pose proof typ_distinct as (D1 & D2 & D3).
  split.
  - assert (Hmode : walkMode removeMin item (toList n)) by (right; now left).
    destruct (@remove_walk m Hm h n removeMin item f fuel
                Hn Ha Hlow Hmode Hne Hfuel)
      as (out & n' & f' & Hrem & Hspec & Hlow' & _).
    destruct Hspec as [(Hbad & _)|[(_ & p & -> & Et)|(Hbad & _)]];
      try congruence.
    destruct (proj1 (@remove_shape _ _ Less m fuel)
                    h n item removeMin ctx f (Some p) n' f' Hn Hf Hrem)
      as [Hn' Hf'].
    exists p, n', f'.
    split; [assumption|]. split; [assumption|]. split; [assumption|].
    split; assumption.
  - assert (Hmode : walkMode removeMax item (toList n)) by now left.
    destruct (@remove_walk m Hm h n removeMax item f fuel
                Hn Ha Hlow Hmode Hne Hfuel)
      as (out & n' & f' & Hrem & Hspec & Hlow' & _).
    destruct Hspec as [(_ & p & -> & Et)|[(Hbad & _)|(Hbad & _)]];
      try congruence.
    destruct (proj1 (@remove_shape _ _ Less m fuel)
                    h n item removeMax ctx f (Some p) n' f' Hn Hf Hrem)
      as [Hn' Hf'].
    exists p, n', f'.
    split; [assumption|]. split; [assumption|]. split; [assumption|].
    split; assumption.
Qed.

(** ** Lookup *)

Lemma eqv_refl x : equiv x x.
Proof. exact (@equiv_refl _ _ Less ctx SWO x). Qed.

(** Two equivalent items of an ascending sequence are the same item. *)
Lemma asc_equiv_unique l a b :
  asc l -> In a l -> In b l -> equiv a b -> a = b.
Proof.
  intros Ha Hin Hb Hab.
  apply in_split in Hin as (l1 & l2 & ->).
  apply asc_mid in Ha as (H1 & H2 & _). rewrite Forall_forall in H1, H2.
  apply in_app_or in Hb as [Hb|[Hb|Hb]].
  - now destruct (lt_neqv' (H1 _ Hb)).
  - assumption.
  - now destruct (lt_neqv (H2 _ Hb)).
Qed.

(** [get] on an ordered, balanced subtree returns the stored item that is
    equivalent to the key, or nil when there is none. *)
Lemma get_correct x : forall fuel h n,
  shape h n -> asc (toList n) -> (h < fuel)%nat ->
  exists out,
    get Less fuel n (Some x) ctx = Ret out /\
    ((exists y, out = Some y /\ In y (toList n) /\ equiv y x) \/
     (out = None /\ forall z, In z (toList n) -> ~ equiv z x)).
Proof.
  induction fuel as [|fuel IH]; intros h n Hn Ha Hfuel; [lia|].
  pose proof (asc_items _ Ha) as Hai.
  destruct (@find_correct _ _ Less ctx SWO (items n) x Hai)
    as (i & found & Hfind & Hi & Hiff & _).
  destruct (@find_decomp _ _ Less ctx SWO (items n) x i found Hai Hfind)
    as (il & ir & Hits & Hil & Hbelow & Habove).
  cbn [get]. rewrite Hfind; cbn [bind].
  destruct found.
  - destruct Habove as (y & ir' & -> & Hyx & _).
    rewrite Hits, (index_app_mid il y ir' Hil); cbn [bind].
    eexists. split; [reflexivity|]. left. exists y.
    split; [reflexivity|]. split; [|assumption].
    apply items_In_toList. rewrite Hits. apply in_elt.
  - destruct h as [|h].
    + simpl in Hn. rewrite Hn. cbn [len length Z.of_nat Z.ltb Z.compare].
      eexists. split; [reflexivity|]. right. split; [reflexivity|].
      intros z Hz Hzx. rewrite toList_eta, Hn in Hz. cbn [map interleave] in Hz.
      assert (Hbad : false = true) by (apply Hiff; eauto). discriminate.
    + assert (Hpos : (0 <? len (children n)) = true)
        by (apply Z.ltb_lt; destruct Hn; lens).
      rewrite Hpos.
      destruct (@index_in_range _ (children n) i) as (c & Hc);
        [destruct Hn; lens|].
      rewrite Hc.
      destruct (@shape_focus _ h n i c Hn Hc)
        as (il0 & ir0 & cl & cr & -> & Hil0 & Hcl & Hlr).
      cbn [items children] in *.
      apply app_len_inj in Hits as [-> ->]; [|lia].
      assert (Hlc : len il = len cl) by lia.
      destruct Hn as [_ Hch]. cbn [children] in Hch.
      apply Forall_mid in Hch as (_ & Hcs & _).
      assert (Hac : asc (toList c)).
      { rewrite (toList_child_focus il ir cl c cr Hlc) in Ha.
        exact (asc_app_l _ _ (asc_app_r _ _ Ha)). }
      destruct (IH h c Hcs Hac) as (out & Hget & Hcase); [lia|].
      exists out. split; [exact Hget|].
      destruct Hcase as [(y & -> & Hy & Hyx)|(-> & Hab)].
      * left. exists y. split; [reflexivity|]. split; [|assumption].
        rewrite (toList_child_focus il ir cl c cr Hlc).
        apply in_or_app; right; apply in_or_app; now left.
      * right. split; [reflexivity|]. intros z Hz Hzx.
        apply (Hab z); [|assumption].
        exact (@present_in_child il ir cl c cr x z Hlc Hlr Ha Hbelow Habove
                                 Hz Hzx).
Qed.

(** [get] with a stored item as the key returns that item. *)
Lemma get_member h n x fuel :
  shape h n -> asc (toList n) -> (h < fuel)%nat -> In x (toList n) ->
  get Less fuel n (Some x) ctx = Ret (Some x).
Proof.
  intros Hn Ha Hfuel Hx.
  destruct (@get_correct x fuel h n Hn Ha Hfuel) as (out & Hget & Hcase).
  destruct Hcase as [(y & -> & Hy & Hyx)|(-> & Hab)].
  - now rewrite (@asc_equiv_unique (toList n) y x Ha Hy Hx Hyx) in Hget.
  - destruct (Hab x Hx). apply eqv_refl.
Qed.

(** X6. On an ordered, balanced subtree, [get] returns the stored item
    equivalent to the key when there is one, and nil when there is none;
    it never panics there. *)
Theorem get_spec h n x fuel :
  shape h n -> asc (toList n) -> (h < fuel)%nat ->
  ((exists y, In y (toList n) /\ equiv y x) ->
   exists y, get Less fuel n (Some x) ctx = Ret (Some y) /\
             In y (toList n) /\ equiv y x) /\
  ((forall z, In z (toList n) -> ~ equiv z x) ->
   get Less fuel n (Some x) ctx = Ret None) /\
  (In x (toList n) -> get Less fuel n (Some x) ctx = Ret (Some x)).
Proof.
  intros Hn Ha Hfuel.
  destruct (@get_correct x fuel h n Hn Ha Hfuel) as (out & Hget & Hcase).
  split; [|split].
  - intros (y0 & Hy0 & Hy0x).
    destruct Hcase as [(y & -> & Hy & Hyx)|(-> & Hab)]; [eauto|].
    now destruct (Hab y0).
  - intros Hab.
    destruct Hcase as [(y & -> & Hy & Hyx)|(-> & _)]; [|assumption].
    now destruct (Hab y).
  - now apply (@get_member h).
Qed.

Lemma insSpec_keeps x l out l' y :
  insSpec x l out l' -> In y l -> ~ equiv y x -> In y l'.
Proof.
  intros (l1 & l2 & _ & _ & [(_ & -> & ->)|(y0 & _ & Hy0 & -> & ->)]) Hy Hn.
  - apply in_app_or in Hy as [Hy|Hy]; apply in_or_app; [now left|].
    right. now right.
  - apply in_app_or in Hy as [Hy|[<-|Hy]]; [| contradiction |];
      apply in_or_app; [now left|]. right. now right.
Qed.

Lemma insSpec_from x l out l' y :
  insSpec x l out l' -> In y l' -> ~ equiv y x -> In y l.
Proof.
  intros (l1 & l2 & _ & _ & [(_ & -> & ->)|(y0 & _ & Hy0 & -> & ->)]) Hy Hn;
    apply in_app_or in Hy as [Hy|[<-|Hy]];
    try (destruct Hn; apply eqv_refl);
    apply in_or_app; [now left | now right | now left | right; now right].
Qed.

Lemma insSpec_In x l out l' : insSpec x l out l' -> In x l'.
Proof.
  intros (l1 & l2 & _ & _ & [(_ & _ & ->)|(y0 & _ & _ & _ & ->)]);
    apply in_elt.
Qed.

(** X7. After [insert] of [x] into an ordered, balanced subtree, [get]
    with key [x] returns [x] itself, and [get] with a key that is not
    equivalent to [x] returns what it returned before. *)
Theorem get_after_insert h n x mx f fuel :
  1 <= mx -> shape h n -> asc (toList n) -> blankPool f -> (h < fuel)%nat ->
  exists out n' f',
    insert Less fuel n x mx ctx f = Ret (out, n', f') /\
    get Less fuel n' (Some x) ctx = Ret (Some x) /\
    (forall z, ~ equiv z x ->
               get Less fuel n' (Some z) ctx = get Less fuel n (Some z) ctx).
Proof.
  intros Hmx Hn Ha Hf Hfuel.
  destruct (@insert_spec x mx Hmx fuel h n f Hn Ha Hf Hfuel)
    as (out & n' & f' & Hins & Hspec).
  destruct (@insert_shape _ _ Less fuel h n x mx ctx f out n' f' Hn Hf Hins)
    as [Hn' _].
  pose proof (insSpec_asc Ha Hspec) as Ha'.
  exists out, n', f'. split; [assumption|]. split.
  - apply (@get_member h n' x fuel Hn' Ha' Hfuel).
    exact (insSpec_In Hspec).
  - intros z Hzx.
    destruct (@get_correct z fuel h n Hn Ha Hfuel) as (o & Hg & Hc).
    destruct (@get_correct z fuel h n' Hn' Ha' Hfuel) as (o' & Hg' & Hc').
    rewrite Hg, Hg'. f_equal.
    assert (Hne : forall y, equiv y z -> ~ equiv y x).
    { intros y Hyz Hyx. apply Hzx.
      exact (eqv_trans (eqv_sym Hyz) Hyx). }
    destruct Hc as [(y & -> & Hy & Hyz)|(-> & Hab)];
      destruct Hc' as [(y' & -> & Hy' & Hy'z)|(-> & Hab')].
    + f_equal. apply (@asc_equiv_unique (toList n') y' y Ha' Hy').
      * exact (insSpec_keeps Hspec Hy (Hne y Hyz)).
      * exact (eqv_trans Hy'z (eqv_sym Hyz)).
    + destruct (Hab' y); [|assumption].
      exact (insSpec_keeps Hspec Hy (Hne y Hyz)).
    + destruct (Hab y'); [|assumption].
      exact (insSpec_from Hspec Hy' (Hne y' Hy'z)).
    + reflexivity.
Qed.

(** ** Insertion: results and bounds *)

(** X8. [insert] into an ordered, balanced subtree returns (no panic,
    with fuel above the height), and the resulting subtree is balanced
    at the same height and ordered.  When no stored item is equivalent to
    [x], nil is returned and [x] enters the traversal at its place; when
    [y] is, [y] is returned and [x] takes its place. *)
Theorem insert_sorted h n x mx f fuel :
  1 <= mx -> shape h n -> asc (toList n) -> blankPool f -> (h < fuel)%nat ->
  exists out n' f',
    insert Less fuel n x mx ctx f = Ret (out, n', f') /\
    shape h n' /\ asc (toList n') /\ blankPool f' /\
    ((forall z, In z (toList n) -> ~ equiv z x) ->
     out = None /\
     exists l1 l2, toList n = l1 ++ l2 /\ toList n' = l1 ++ x :: l2) /\
    (forall y, In y (toList n) -> equiv y x ->
     out = Some y /\
     exists l1 l2, toList n = l1 ++ y :: l2 /\ toList n' = l1 ++ x :: l2).
Proof.
  intros Hmx Hn Ha Hf Hfuel.
  destruct (@insert_spec x mx Hmx fuel h n f Hn Ha Hf Hfuel)
    as (out & n' & f' & Hins & Hspec).
  destruct (@insert_shape _ _ Less fuel h n x mx ctx f out n' f' Hn Hf Hins)
    as [Hn' Hf'].
  exists out, n', f'.
  split; [assumption|]. split; [assumption|].
  split; [exact (insSpec_asc Ha Hspec)|]. split; [assumption|]. split.
  - intros Hab.
    destruct Hspec as (l1 & l2 & _ & _ & [(-> & E & E')|(y & _ & Hy & E & _)]).
    + split; [reflexivity|]. eauto.
    + destruct (Hab y); [|assumption]. rewrite E. apply in_elt.
  - intros y Hy Hyx. exact (insSpec_present Hspec Hy Hyx).
Qed.

(** Every node below the root of the subtree holds at least [m] and at
    most [mx] items. *)
Fixpoint bounded (m mx : Z) n : Prop :=
  match n with
  | Node _ chs =>
      fold_right (fun c P => (m <= len (items c) <= mx /\ bounded m mx c) /\ P)
                 True chs
  end.

Lemma bounded_unfold m mx n :
  bounded m mx n <->
  Forall (fun c => m <= len (items c) <= mx /\ bounded m mx c) (children n).
Proof.
  destruct n as [its chs]. simpl.
  apply (fold_right_and_Forall
           (fun c => m <= len (items c) <= mx /\ bounded m mx c)).
Qed.

Lemma bounded_Node m mx (its : list Item) chs :
  bounded m mx (Node its chs) <->
  Forall (fun c => m <= len (items c) <= mx /\ bounded m mx c) chs.
Proof. apply (bounded_unfold m mx (Node its chs)). Qed.

Lemma bounded_lower m mx : forall h n, shape h n -> bounded m mx n -> lower m n.
Proof.
  induction h as [|h IH]; intros n Hn Hb.
  - simpl in Hn. apply lower_unfold. rewrite Hn. constructor.
  - destruct Hn as [_ Hch]. apply bounded_unfold in Hb. apply lower_unfold.
    rewrite Forall_forall in *. intros c Hc.
    destruct (Hb c Hc) as [Hlen Hbc]. split; [lia|]. apply IH; auto.
Qed.

Lemma half_bounds m mx :
  1 <= mx -> 2 * m + 1 <= mx ->
  0 <= Z.quot mx 2 < mx /\ m <= Z.quot mx 2 /\ m <= mx - Z.quot mx 2 - 1.
Proof.
  intros H1 H2. rewrite Z.quot_div_nonneg by lia.
  pose proof (Z.div_mod mx 2). pose proof (Z.mod_pos_bound mx 2). lia.
Qed.

(** [insert] into a node that is not full keeps the bounds on the number
    of items of every node. *)
Lemma insert_bounded m mx :
  1 <= mx -> 2 * m + 1 <= mx ->
  forall fuel n x f out n' f',
    bounded m mx n -> len (items n) < mx -> blankPool f ->
    insert Less fuel n x mx ctx f = Ret (out, n', f') ->
    bounded m mx n' /\ len (items n) <= len (items n') <= mx /\ blankPool f'.
Proof.
  intros Hmx Hm. destruct (@half_bounds m mx Hmx Hm) as (Hq & Hq1 & Hq2).
  induction fuel as [|fuel IH]; intros n x f out n' f' Hb Hlen Hf H;
    [discriminate|].
  cbn [insert] in H. bind_inv H. destruct a as [i found].
  destruct found.
  { bind_inv H. bind_inv H. injection H as _ <- <-.
    apply assign_inv in E1 as (l1 & y & l2 & E1 & -> & _).
    split; [apply bounded_Node; now apply bounded_unfold in Hb|].
    split; [|assumption]. cbn [items]. rewrite E1 in *. lens. }
  destruct (len (children n) =? 0) eqn:Eleaf.
  { bind_inv H. injection H as _ <- <-.
    apply insertAt_inv in E0 as (l1 & l2 & E0 & -> & _).
    split; [apply bounded_Node; now apply bounded_unfold in Hb|].
    split; [|assumption]. cbn [items]. rewrite E0 in *. lens. }
  bind_inv H. destruct a as [[didSplit n1] f1].
  assert (Hdescend : forall j o n2 f2,
    bounded m mx n1 -> blankPool f1 ->
    (forall cj, index (children n1) j = Ret cj -> len (items cj) < mx) ->
    (child <- index (children n1) j ;;
     '(out, child', f2) <- insert Less fuel child x mx ctx f1 ;;
     chs <- assign (children n1) j child' ;;
     Ret (out, Node (items n1) chs, f2)) = Ret (o, n2, f2) ->
    bounded m mx n2 /\ len (items n2) = len (items n1) /\ blankPool f2).
  { clear H. intros j o n2 f2 Hb1 Hf1 Hcj Hj. bind_inv Hj. bind_inv Hj.
    destruct a0 as [[o' c'] f3]. bind_inv Hj. injection Hj as _ <- <-.
    apply assign_inv in E3 as (l1 & y & l2 & E3 & -> & Hl1).
    apply bounded_unfold in Hb1. rewrite E3 in Hb1, E1.
    rewrite (index_app_mid l1 y l2 Hl1) in E1. injection E1 as ->.
    apply Forall_mid in Hb1 as (B1 & [Bc Bc'] & B2).
    assert (Hlt : len (items a) < mx).
    { apply Hcj. rewrite E3. now apply index_app_mid. }
    destruct (IH _ _ _ _ _ _ Bc' Hlt Hf1 E2) as (Hc1 & Hc2 & Hf3).
    split; [|split; [reflexivity | assumption]].
    apply bounded_Node. apply Forall_mid.
    split; [assumption|]. split; [|assumption]. split; [lia | assumption]. }
  destruct (maybeSplitChild_inv _ _ _ _ E0)
    as (cl & c & cr & Hch & Hcl & [(-> & -> & -> & Hsmall)|
                                    (-> & Hfull & x0 & c2 & c1 & il & ir &
                                     Hs & Hits & Hil & ->)]).
  - (* the child is not full *)
    destruct (Hdescend i out n' f' Hb Hf) as (B & L & F); [|exact H|].
    + intros cj Hj. rewrite Hch, (index_app_mid cl c cr Hcl) in Hj.
      now injection Hj as <-.
    + split; [assumption|]. split; [lia | assumption].
  - (* the child was split *)
    apply bounded_unfold in Hb. rewrite Hch in Hb.
    apply Forall_mid in Hb as (B1 & [Bc Bc'] & B2).
    destruct (split_inv _ _ Hf Hs) as (sl & sr & Ec & Hsl & Hf1 & Hkind).
    assert (Hc12 : (m <= len (items c1) < mx /\ bounded m mx c1) /\
                   (m <= len (items c2) < mx /\ bounded m mx c2)).
    { apply bounded_unfold in Bc'. rewrite Ec in *.
      destruct Hkind as [(_ & -> & ->)|(cl' & cr' & Ecc & _ & -> & ->)];
        cbn [items].
      - split; (split; [lens | exact I]).
      - rewrite Ecc in Bc'. apply Forall_app in Bc' as [Bl Br].
        split; (split; [lens | now apply bounded_Node]). }
    destruct Hc12 as [[L1 Bc1] [L2 Bc2]].
    assert (Hb1 : bounded m mx (Node (il ++ x0 :: ir) (cl ++ c1 :: c2 :: cr))).
    { apply bounded_Node. apply Forall_mid. split; [assumption|].
      split; [split; [lia | assumption]|].
      constructor; [split; [lia | assumption] | assumption]. }
    assert (Hi0 : forall cj,
               index (children (Node (il ++ x0 :: ir) (cl ++ c1 :: c2 :: cr))) i
               = Ret cj -> len (items cj) < mx).
    { intros cj Hj. cbn [children] in Hj.
      rewrite (index_app_mid cl c1 (c2 :: cr) Hcl) in Hj.
      injection Hj as <-. lia. }
    assert (Hi1 : forall cj,
               index (children (Node (il ++ x0 :: ir) (cl ++ c1 :: c2 :: cr)))
                     (i + 1)
               = Ret cj -> len (items cj) < mx).
    { intros cj Hj. cbn [children] in Hj.
      replace (cl ++ c1 :: c2 :: cr) with ((cl ++ [c1]) ++ c2 :: cr) in Hj
        by (now rewrite <- app_assoc).
      rewrite (index_app_mid (cl ++ [c1]) c2 cr) in Hj by lens.
      injection Hj as <-. lia. }
    assert (Hlen1 : len (items n) + 1 = len (il ++ x0 :: ir))
      by (rewrite Hits; lens).
    bind_inv H. destruct (Less x a ctx).
    { destruct (Hdescend i out n' f' Hb1 Hf1 Hi0 H) as (B & L & F).
      cbn [items] in L. split; [assumption|]. split; [lia | assumption]. }
    destruct (Less a x ctx).
    { destruct (Hdescend (i + 1) out n' f' Hb1 Hf1 Hi1 H) as (B & L & F).
      cbn [items] in L. split; [assumption|]. split; [lia | assumption]. }
    bind_inv H. bind_inv H. injection H as _ <- <-.
    apply assign_inv in E3 as (l1 & y & l2 & E3 & -> & _).
    cbn [items children] in *.
    split; [apply bounded_Node; now apply bounded_Node in Hb1|].
    split; [|assumption]. rewrite E3 in Hlen1.
    lens.
Qed.

(** X9. [insert] into an ordered, balanced subtree whose top node is not
    full keeps the bounds of a B-tree: with [2 * m + 1 <= mx] (as for
    [m = d - 1] and [mx = 2 * d - 1]), every node below the top still
    holds between [m] and [mx] items, and the top node holds at most
    [mx], one more than before at most. *)
Theorem insert_keeps_bounds h n x m mx f fuel :
  1 <= mx -> 2 * m + 1 <= mx ->
  shape h n -> asc (toList n) -> blankPool f -> (h < fuel)%nat ->
  bounded m mx n -> len (items n) < mx ->
  exists out n' f',
    insert Less fuel n x mx ctx f = Ret (out, n', f') /\
    bounded m mx n' /\ len (items n) <= len (items n') <= mx.
Proof.
  intros Hmx Hm Hn Ha Hf Hfuel Hb Hlen.
  destruct (@insert_spec x mx Hmx fuel h n f Hn Ha Hf Hfuel)
    as (out & n' & f' & Hins & _).
  destruct (@insert_bounded m mx Hmx Hm fuel n x f out n' f' Hb Hlen Hf Hins)
    as (Hb' & Hlen' & _).
  eauto 6.
Qed.

(** ** Removal: the upper bound *)

(** [growChild] on a child with no more than [m] items keeps every node
    at [mx] items at most, when two minimal nodes and a separator fit
    into one node. *)
Lemma grown_upper m mx n i n1 i' c :
  2 * m + 1 <= mx -> 0 <= m ->
  grown m n i n1 i' -> index (children n) i = Ret c -> len (items c) <= m ->
  bounded 0 mx n -> bounded 0 mx n1.
Proof.
  intros Hmx Hm0 G Hc Hcm Hb.
  destruct G as [il' sep ir cl' L c0 cr sl s lc' cc' Hl Hits Hm Hk
                |il sep ir' cl c0 R cr' s sr rc' cc' Hl Hits Hm Hk
                |il sep ir' cl c0 R cr' Hl Hm
                |il' sep cl' L c0 Hl Hm];
    cbn [children] in Hc; apply bounded_Node in Hb; apply bounded_Node.
  - rewrite (index_snoc_next cl' L c0 cr (len cl' + 1)) in Hc by lia.
    injection Hc as <-.
    apply Forall_mid in Hb as (H1 & [HL1 HL2] & Hb).
    inversion Hb as [|? ? [Hc1 Hc2] Hcr]; subst.
    apply bounded_unfold in HL2, Hc2.
    apply Forall_mid. split; [assumption|]. split.
    + split; [cbn [items]; rewrite Hits in HL1; lens|].
      apply bounded_Node.
      destruct Hk as [(_ & -> & _)|(k & Hk & _)]; [constructor|].
      rewrite Hk in HL2. now apply Forall_app in HL2 as [? _].
    + constructor; [|assumption].
      split; [cbn [items]; lens|]. apply bounded_Node.
      destruct Hk as [(_ & _ & ->)|(k & Hk & ->)]; [assumption|].
      rewrite Hk in HL2. apply Forall_app in HL2 as [_ HL2].
      inversion HL2; subst. now constructor.
  - rewrite (index_app_mid cl c0 (R :: cr') eq_refl) in Hc.
    injection Hc as <-.
    apply Forall_mid in Hb as (H1 & [Hc1 Hc2] & Hb).
    inversion Hb as [|? ? [HR1 HR2] Hcr]; subst.
    apply bounded_unfold in HR2, Hc2.
    apply Forall_mid. split; [assumption|]. split.
    + split; [cbn [items]; lens|]. apply bounded_Node.
      destruct Hk as [(_ & _ & ->)|(k & Hk & ->)]; [assumption|].
      rewrite Hk in HR2. inversion HR2; subst.
      apply Forall_app. split; [assumption | now constructor].
    + constructor; [|assumption].
      split; [cbn [items]; rewrite Hits in HR1; lens|]. apply bounded_Node.
      destruct Hk as [(_ & -> & _)|(k & Hk & _)]; [constructor|].
      rewrite Hk in HR2. now inversion HR2.
  - rewrite (index_app_mid cl c0 (R :: cr') eq_refl) in Hc.
    injection Hc as <-.
    apply Forall_mid in Hb as (H1 & [Hc1 Hc2] & Hb).
    inversion Hb as [|? ? [HR1 HR2] Hcr]; subst.
    apply bounded_unfold in HR2, Hc2.
    apply Forall_mid. split; [assumption|]. split; [|assumption].
    split; [cbn [items]; lens|]. apply bounded_Node. now apply Forall_app.
  - rewrite (index_snoc_next cl' L c0 [] (len cl' + 1)) in Hc by lia.
    injection Hc as <-.
    apply Forall_mid in Hb as (H1 & [HL1 HL2] & Hb).
    inversion Hb as [|? ? [Hc1 Hc2] Hcr]; subst.
    apply bounded_unfold in HL2, Hc2.
    apply Forall_mid. split; [assumption|]. split; [|constructor].
    split; [cbn [items]; lens|]. apply bounded_Node. now apply Forall_app.
Qed.

Lemma removeTarget_Done_items n item typ out n' :
  removeTarget Less n item typ ctx = Ret (Done out n') ->
  children n' = children n /\ len (items n') <= len (items n).
Proof.
  intros H. unfold removeTarget in H.
  destruct (typ =? removeMax); [|destruct (typ =? removeMin);
                                 [|destruct (typ =? removeItem); [|discriminate]]].
  - destruct (len (children n) =? 0); [|discriminate].
    bind_inv H. destruct a. injection H as _ <-.
    apply pop_inv in E. rewrite E. cbn [items children]. split; [reflexivity | lens].
  - destruct (len (children n) =? 0); [|discriminate].
    bind_inv H. destruct a. injection H as _ <-.
    apply removeAt_inv in E as (l1 & l2 & -> & -> & _).
    cbn [items children]. split; [reflexivity | lens].
  - bind_inv H. destruct a as [i found].
    destruct (len (children n) =? 0); [|discriminate]. destruct found.
    + bind_inv H. destruct a. injection H as _ <-.
      apply removeAt_inv in E0 as (l1 & l2 & -> & -> & _).
      cbn [items children]. split; [reflexivity | lens].
    + injection H as _ <-. split; [reflexivity | lia].
Qed.

Lemma grown_items_le m n i n1 i' :
  grown m n i n1 i' -> len (items n1) <= len (items n).
Proof. intros G; destruct G; cbn [items]; lens. Qed.

(** [remove] never lets a node exceed [mx] items, and never adds an item
    to the node it is called on. *)
Lemma remove_upper m mx : 2 * m + 1 <= mx -> 0 <= m -> forall fuel,
  (forall h n item typ f out n' f',
      shape h n -> bounded 0 mx n ->
      remove Less fuel n item m typ ctx f = Ret (out, n', f') ->
      bounded 0 mx n' /\ len (items n') <= len (items n)) /\
  (forall h n i item typ f out n' f' c,
      shape h n -> bounded 0 mx n ->
      index (children n) i = Ret c -> len (items c) <= m ->
      growChildAndRemove Less fuel n i item m typ ctx f = Ret (out, n', f') ->
      bounded 0 mx n' /\ len (items n') <= len (items n)).
Proof.
  intros Hmx Hm0.
  induction fuel as [|fuel [IHr IHg]]; [split; intros; discriminate|].
  split.
  - intros h n item typ f out n' f' Hn Hb H.
    cbn [remove] in H. bind_inv H. destruct a as [o n0|i found].
    + injection H as _ <- <-.
      destruct (removeTarget_Done_items _ _ _ E) as [Ec El].
      split; [|assumption]. apply bounded_unfold. rewrite Ec.
      now apply bounded_unfold.
    + bind_inv H. destruct (len (items a) <=? m) eqn:Em.
      { apply Z.leb_le in Em. eapply IHg; eassumption. }
      destruct (@shape_child _ h n i a Hn E0) as (h' & -> & Hc).
      assert (Ha : 0 <= len (items a) <= mx /\ bounded 0 mx a).
      { apply bounded_unfold in Hb. rewrite Forall_forall in Hb.
        apply Hb. eapply index_In; eassumption. }
      destruct Ha as [Ha1 Ha2].
      destruct found.
      * bind_inv H. bind_inv H. destruct a1 as [[pred c'] f1].
        destruct pred as [p|]; [|discriminate].
        bind_inv H. bind_inv H. injection H as _ <- <-.
        destruct (IHr _ _ _ _ _ _ _ _ Hc Ha2 E2) as [Hc' Hl'].
        apply assign_inv in E3 as (l1 & y & l2 & E3 & -> & _).
        apply assign_inv in E4 as (k1 & z & k2 & E4 & -> & Hk).
        rewrite E4 in E0. rewrite (index_app_mid k1 z k2 Hk) in E0.
        injection E0 as ->.
        apply bounded_unfold in Hb. rewrite E4 in Hb.
        apply Forall_mid in Hb as (B1 & _ & B2).
        split; [|cbn [items]; rewrite E3; lens].
        apply bounded_Node. apply Forall_mid.
        split; [assumption|]. split; [|assumption]. split; [|assumption].
        pose proof (len_nonneg (items c')). lia.
      * bind_inv H. destruct a0 as [[o c'] f1]. bind_inv H.
        injection H as _ <- <-.
        destruct (IHr _ _ _ _ _ _ _ _ Hc Ha2 E1) as [Hc' Hl'].
        apply assign_inv in E2 as (k1 & z & k2 & E2 & -> & Hk).
        rewrite E2 in E0. rewrite (index_app_mid k1 z k2 Hk) in E0.
        injection E0 as ->.
        apply bounded_unfold in Hb. rewrite E2 in Hb.
        apply Forall_mid in Hb as (B1 & _ & B2).
        split; [|cbn [items]; lia].
        apply bounded_Node. apply Forall_mid.
        split; [assumption|]. split; [|assumption]. split; [|assumption].
        pose proof (len_nonneg (items c')). lia.
  - intros h n i item typ f out n' f' c Hn Hb Hc Hcm H.
    cbn [growChildAndRemove] in H. bind_inv H. destruct a as [n1 f1].
    destruct (@shape_child _ h n i c Hn Hc) as (h' & -> & _).
    destruct (@growChild_inv _ h' n i m f n1 f1 Hn E) as (i' & G & _).
    pose proof (grown_shape Hn G) as Hn1.
    pose proof (@grown_upper m mx n i n1 i' c Hmx Hm0 G Hc Hcm Hb) as Hb1.
    pose proof (grown_items_le G) as Hle.
    destruct (IHr _ _ _ _ _ _ _ _ Hn1 Hb1 H) as [Hb' Hl'].
    split; [assumption | lia].
Qed.

Lemma bounded_weaken m mx : 0 <= m ->
  forall h n, shape h n -> bounded m mx n -> bounded 0 mx n.
Proof.
  intros Hm0. induction h as [|h IH]; intros n Hn Hb.
  - simpl in Hn. apply bounded_unfold. rewrite Hn. constructor.
  - destruct Hn as [_ Hch]. apply bounded_unfold in Hb. apply bounded_unfold.
    rewrite Forall_forall in *. intros c Hc.
    destruct (Hb c Hc) as [Hlen Hbc]. split; [lia|]. apply IH; auto.
Qed.

Lemma bounded_combine m mx :
  forall h n, shape h n -> lower m n -> bounded 0 mx n -> bounded m mx n.
Proof.
  induction h as [|h IH]; intros n Hn Hl Hb.
  - simpl in Hn. apply bounded_unfold. rewrite Hn. constructor.
  - destruct Hn as [_ Hch]. apply bounded_unfold in Hb. apply lower_unfold in Hl.
    apply bounded_unfold.
    rewrite Forall_forall in *. intros c Hc.
    destruct (Hb c Hc) as [Hlen Hbc]. destruct (Hl c Hc) as [Hlen' Hlc].
    split; [lia|]. apply IH; auto.
Qed.

(** In each of its modes, [remove] returns on a subtree that satisfies
    the invariants, and the result is ordered and keeps the lower bound. *)
Lemma remove_returns h n item typ m f fuel :
  1 <= m -> shape h n -> asc (toList n) -> lower m n ->
  1 <= len (items n) ->
  typ = removeMin \/ typ = removeMax \/ (typ = removeItem /\ item <> None) ->
  (3 * h + 1 <= fuel)%nat ->
  exists out n' f',
    remove Less fuel n item m typ ctx f = Ret (out, n', f') /\
    asc (toList n') /\ lower m n' /\ len (items n) - 1 <= len (items n').
Proof.
  intros Hm Hn Ha Hlow Hne Htyp Hfuel.
  assert (Hwalk : walkMode typ item (toList n) ->
                  exists out n' f',
                    remove Less fuel n item m typ ctx f = Ret (out, n', f') /\
                    asc (toList n') /\ lower m n' /\
                    len (items n) - 1 <= len (items n')).
  { intros Hmode.
    destruct (@remove_walk m Hm h n typ item f fuel Hn Ha Hlow Hmode Hne Hfuel)
      as (out & n' & f' & Hrem & Hspec & Hlow' & Hlen).
    exists out, n', f'. split; [assumption|]. split; [|split; assumption].
    destruct Hspec as [(_ & p & _ & E)|[(_ & p & _ & E)|(_ & _ & E)]].
    - rewrite E in Ha. exact (asc_app_l _ _ Ha).
    - rewrite E in Ha. exact (proj2 Ha).
    - now rewrite E. }
  destruct Htyp as [->|[->|(-> & Hsome)]].
  - apply Hwalk. right. now left.
  - apply Hwalk. now left.
  - destruct item as [x|]; [|contradiction].
    destruct (@get_correct x (S h) h n Hn Ha (Nat.lt_succ_diag_r h))
      as (o & _ & [(y & _ & Hy & Hyx)|(_ & Hab)]).
    + destruct (@remove_item m Hm h n x f fuel Hn Ha Hlow) as
        (out & n' & f' & Hrem & (y' & l1 & l2 & _ & _ & E & E') & Hlow' & Hlen);
        [eauto | assumption | assumption |].
      exists out, n', f'. split; [assumption|]. split; [|split; assumption].
      rewrite E'. rewrite E in Ha. exact (asc_remove _ _ _ Ha).
    + apply Hwalk. right; right. split; [reflexivity|]. eauto.
Qed.

(** X10. On a balanced, ordered subtree whose nodes below the top hold
    between [m] and [mx] items, with [1 <= m] and [2 * m + 1 <= mx],
    [remove] returns in each of its three modes (the item not nil in mode
    [removeItem]), and the resulting subtree is balanced at the same
    height, ordered, within the same bounds, with at most one item less
    in its top node and none more. *)
Theorem remove_keeps_invariants h n item typ m mx f fuel :
  1 <= m -> 2 * m + 1 <= mx ->
  shape h n -> asc (toList n) -> bounded m mx n -> blankPool f ->
  1 <= len (items n) ->
  typ = removeMin \/ typ = removeMax \/ (typ = removeItem /\ item <> None) ->
  (3 * h + 1 <= fuel)%nat ->
  exists out n' f',
    remove Less fuel n item m typ ctx f = Ret (out, n', f') /\
    shape h n' /\ asc (toList n') /\ bounded m mx n' /\ blankPool f' /\
    len (items n) - 1 <= len (items n') <= len (items n).
Proof.
  intros Hm Hmx Hn Ha Hb Hf Hne Htyp Hfuel.
  pose proof (@bounded_lower m mx h n Hn Hb) as Hlow.
  assert (Hm0 : 0 <= m) by lia.
  pose proof (@bounded_weaken m mx Hm0 h n Hn Hb) as Hb0.
  destruct (@remove_returns h n item typ m f fuel Hm Hn Ha Hlow Hne Htyp Hfuel)
    as (out & n' & f' & Hrem & Ha' & Hlow' & Hlen).
  destruct (proj1 (@remove_shape _ _ Less m fuel)
                  h n item typ ctx f out n' f' Hn Hf Hrem) as [Hn' Hf'].
  destruct (proj1 (@remove_upper m mx Hmx Hm0 fuel)
                  h n item typ f out n' f' Hn Hb0 Hrem) as [Hb' Hle].
  exists out, n', f'.
  split; [assumption|]. split; [assumption|]. split; [assumption|].
  split; [exact (@bounded_combine m mx h n' Hn' Hlow' Hb')|].
  split; [assumption | lia].
Qed.

(** ** The extremal items *)

Lemma min_loop_leaf n fuel : children n = [] -> min_loop fuel n = Ret n.
Proof. intros H. destruct fuel; cbn [min_loop]; rewrite H; reflexivity. Qed.

Lemma max_loop_leaf n fuel : children n = [] -> max_loop fuel n = Ret n.
Proof. intros H. destruct fuel; cbn [max_loop]; rewrite H; reflexivity. Qed.

(** The loop of [min] ends in the leaf that holds the first item of the
    traversal. *)
Lemma min_loop_spec : forall h n fuel,
  shape h n -> lower 1 n -> 1 <= len (items n) -> (h <= fuel)%nat ->
  exists lf p its rest,
    min_loop fuel n = Ret lf /\ items lf = p :: its /\ toList n = p :: rest.
Proof.
  induction h as [|h IH]; intros n fuel Hn Hlow Hne Hfuel.
  - simpl in Hn. rewrite (@min_loop_leaf n fuel Hn).
    destruct (items n) as [|p its] eqn:E; [exfalso; lens|].
    exists n, p, its, its. split; [reflexivity|]. split; [assumption|].
    rewrite toList_eta, Hn, E. reflexivity.
  - destruct fuel as [|fuel]; [lia|]. cbn [min_loop].
    destruct Hn as [Hl Hch].
    assert (Hpos : (0 <? len (children n)) = true)
      by (apply Z.ltb_lt; lens).
    rewrite Hpos. apply lower_unfold in Hlow.
    destruct (children n) as [|c cs] eqn:Ec; [exfalso; lens|].
    assert (Hi : index (c :: cs) 0 = Ret c) by reflexivity.
    rewrite Hi; cbn [bind].
    inversion Hch as [|? ? Hc _]; subst.
    inversion Hlow as [|? ? [Hc1 Hc2] _]; subst.
    destruct (IH c fuel Hc Hc2 Hc1) as (lf & p & its & rest & Hloop & Hits & Ht);
      [lia|].
    exists lf, p, its. eexists. split; [assumption|]. split; [assumption|].
    rewrite (toList_eta n), Ec. cbn [map]. rewrite interleave_cons, Ht.
    reflexivity.
Qed.

(** The loop of [max] ends in the leaf that holds the last item of the
    traversal. *)
Lemma max_loop_spec : forall h n fuel,
  shape h n -> lower 1 n -> 1 <= len (items n) -> (h <= fuel)%nat ->
  exists lf p its rest,
    max_loop fuel n = Ret lf /\ items lf = its ++ [p] /\ toList n = rest ++ [p].
Proof.
  induction h as [|h IH]; intros n fuel Hn Hlow Hne Hfuel.
  - simpl in Hn. rewrite (@max_loop_leaf n fuel Hn).
    destruct (snoc_cases (items n)) as [E|(its & p & E)];
      [rewrite E in Hne; exfalso; lens|].
    exists n, p, its, its. split; [reflexivity|]. split; [assumption|].
    rewrite toList_eta, Hn, E. reflexivity.
  - destruct fuel as [|fuel]; [lia|]. cbn [max_loop].
    destruct Hn as [Hl Hch].
    assert (Hpos : (0 <? len (children n)) = true)
      by (apply Z.ltb_lt; lens).
    rewrite Hpos. apply lower_unfold in Hlow.
    destruct n as [nits chs]; cbn [items children] in *.
    destruct (snoc_cases chs) as [->|(cs & c & ->)]; [exfalso; lens|].
    rewrite (index_app_mid cs c []) by lens. cbn [bind].
    apply Forall_mid in Hch as (_ & Hc & _).
    apply Forall_mid in Hlow as (_ & [Hc1 Hc2] & _).
    destruct (IH c fuel Hc Hc2 Hc1) as (lf & p & its & rest & Hloop & Hits & Ht);
      [lia|].
    exists lf, p, its, (interleave (flat cs) nits ++ rest).
    split; [assumption|]. split; [assumption|].
    rewrite <- (app_nil_r nits) at 1.
    rewrite (toList_focus nits [] cs [c]) by lens.
    cbn [map]. rewrite interleave_single, Ht. now rewrite app_assoc.
Qed.

(** X5. [min] and [max] return nil for a nil node and for a leaf without
    items.  On a balanced subtree in which every node holds an item they
    return the first and the last item of the traversal. *)
Theorem min_max_spec :
  (forall fuel, @min Item fuel None = Ret None /\
                @max Item fuel None = Ret None) /\
  (forall fuel, @min Item fuel (Some (Node [] [])) = Ret None /\
                @max Item fuel (Some (Node [] [])) = Ret None) /\
  (forall h n fuel,
      shape h n -> lower 1 n -> 1 <= len (items n) -> (h <= fuel)%nat ->
      exists p q rest rest',
        min fuel (Some n) = Ret (Some p) /\ toList n = p :: rest /\
        max fuel (Some n) = Ret (Some q) /\ toList n = rest' ++ [q]).
Proof.
  split; [|split].
  - intros fuel. split; reflexivity.
  - intros fuel. split; destruct fuel; reflexivity.
  - intros h n fuel Hn Hlow Hne Hfuel.
    destruct (@min_loop_spec h n fuel Hn Hlow Hne Hfuel)
      as (lf & p & its & rest & Hloop & Hits & Ht).
    destruct (@max_loop_spec h n fuel Hn Hlow Hne Hfuel)
      as (lf' & q & its' & rest' & Hloop' & Hits' & Ht').
    exists p, q, rest, rest'.
    split; [|split; [assumption|split; [|assumption]]].
    + unfold min. rewrite Hloop; cbn [bind]. rewrite Hits.
      destruct (len (p :: its) =? 0) eqn:E;
        [apply Z.eqb_eq in E; exfalso; lens | reflexivity].
    + unfold max. rewrite Hloop'; cbn [bind]. rewrite Hits'.
      destruct (len (its' ++ [q]) =? 0) eqn:E;
        [apply Z.eqb_eq in E; exfalso; lens|].
      rewrite (index_app_mid its' q []) by lens. reflexivity.
Qed.

(** ** Rewritings that keep the traversal *)

(** X11. On a balanced node, [maybeSplitChild] returns; it changes the
    node only when child [i] holds [maxItems] items or more, and then the
    child is cut around its item of index [maxItems / 2], which moves up
    into the node between the two halves.  In both cases the traversal
    and the balance of the node are kept. *)
Theorem maybeSplitChild_keeps_traversal h n i c mx f :
  1 <= mx -> shape (S h) n -> blankPool f -> index (children n) i = Ret c ->
  exists b n' f',
    maybeSplitChild n i mx f = Ret (b, n', f') /\
    toList n' = toList n /\ shape (S h) n' /\ blankPool f' /\
    (len (items c) < mx -> b = false /\ n' = n /\ f' = f) /\
    (mx <= len (items c) ->
     b = true /\ len (items n') = len (items n) + 1 /\
     exists x c1 c2,
       index (items n') i = Ret x /\
       index (children n') i = Ret c1 /\
       index (children n') (i + 1) = Ret c2 /\
       len (items c1) = Z.quot mx 2 /\
       toList c = toList c1 ++ x :: toList c2).
Proof.
  intros Hmx Hn Hf Hc.
  destruct (@shape_focus _ h n i c Hn Hc)
    as (il & ir & cl & cr & -> & Hil & Hcl & Hlr).
  assert (Hcc : shape h c).
  { destruct Hn as [_ Hch]. cbn [children] in Hch.
    now apply Forall_mid in Hch as (_ & Hcc & _). }
  destruct (Z.lt_ge_cases (len (items c)) mx) as [Hlt|Hge].
  - exists false, (Node (il ++ ir) (cl ++ c :: cr)), f.
    split; [exact (maybeSplitChild_no (il ++ ir) cl c cr f Hcl Hlt)|].
    split; [reflexivity|]. split; [assumption|]. split; [assumption|].
    split; [auto | lia].
  - destruct (@split_total h c (Z.quot mx 2) f Hcc Hf
                (quot_half_range Hmx Hge)) as (pv & c2 & c1 & f1 & Hs).
    destruct (@split_shape _ h c _ f pv c2 c1 f1 Hcc Hf Hs)
      as (S2 & S1 & Hf1 & _ & Hlen1 & Ht).
    pose proof (@maybeSplitChild_yes il ir cl c cr i mx f pv c2 c1 f1
                  Hil Hcl Hge Hs) as Hyes.
    destruct (@maybeSplitChild_shape _ (S h) _ i mx f _ _ _ Hn Hf Hyes)
      as (Hn' & _ & Et).
    do 3 eexists. split; [exact Hyes|].
    split; [assumption|]. split; [assumption|]. split; [assumption|].
    split; [lia|]. intros _. split; [reflexivity|].
    split; [cbn [items]; lens|].
    exists pv, c1, c2. cbn [items children].
    split; [now apply index_app_mid|]. split; [now apply index_app_mid|].
    split; [apply index_snoc_next; lia|]. split; assumption.
Qed.

(** X12. On a balanced node that holds an item, the rewriting that
    [growChildAndRemove] makes before it calls [remove] again (a steal
    from the left or the right sibling, or a merge) does not panic, keeps
    the traversal and the balance, takes at most one item from the node,
    and keeps the lower bound of the nodes below. *)
Theorem growChild_keeps_traversal h n i c m f item typ :
  0 <= m -> shape (S h) n -> 1 <= len (items n) -> blankPool f ->
  index (children n) i = Ret c ->
  exists n1 f1,
    growChild n i m f = Ret (n1, f1) /\
    toList n1 = toList n /\ shape (S h) n1 /\ blankPool f1 /\
    len (items n) - 1 <= len (items n1) <= len (items n) /\
    (lower m n -> lower m n1) /\
    (forall fuel,
        growChildAndRemove Less (S fuel) n i item m typ ctx f
        = remove Less fuel n1 item m typ ctx f1).
Proof.
  intros Hm Hn Hne Hf Hc.
  destruct (@growChild_outcome h n i c m f Hn Hc Hm Hne)
    as (n1 & f1 & i' & Hg & G).
  exists n1, f1. split; [assumption|].
  split; [exact (grown_toList Hn G)|].
  split; [exact (grown_shape Hn G)|].
  split; [exact (growChild_blankPool _ _ _ Hf Hg)|].
  split; [split; [exact (grown_items_len G) | exact (grown_items_le G)]|].
  split; [intros Hlow; exact (grown_lower Hlow G)|].
  intros fuel. cbn [growChildAndRemove]. now rewrite Hg.
Qed.

(** ** Insertion and removal undo each other *)

Lemma delSpec_keeps x l out l' z :
  delSpec x l out l' -> In z l -> ~ equiv z x -> In z l'.
Proof.
  intros (y & l1 & l2 & _ & Hy & -> & ->) Hz Hn.
  apply in_app_or in Hz as [Hz|[<-|Hz]]; [| contradiction |];
    apply in_or_app; auto.
Qed.

Lemma delSpec_from x l out l' z :
  delSpec x l out l' -> In z l' -> In z l.
Proof.
  intros (y & l1 & l2 & _ & Hy & -> & ->) Hz.
  apply in_app_or in Hz as [Hz|Hz]; apply in_or_app; [now left|].
  right. now right.
Qed.

(** Nothing equivalent to the removed item is left. *)
Lemma delSpec_gone x l out l' z :
  asc l -> delSpec x l out l' -> In z l' -> ~ equiv z x.
Proof.
  intros Ha (y & l1 & l2 & _ & Hy & -> & ->) Hz Hzx.
  destruct (@asc_equiv_cut l1 y l2 x Ha Hy) as [H1 H2].
  rewrite Forall_forall in H1, H2.
  apply in_app_or in Hz as [Hz|Hz].
  - exact (lt_neqv (H1 _ Hz) Hzx).
  - exact (lt_neqv' (H2 _ Hz) Hzx).
Qed.

(** A sequence is cut at [x] in one way only, when [x] is above all that
    comes before it. *)
Lemma mid_unique x : forall l1 l2 k1 k2,
  Forall (fun z => lt z x) l1 -> Forall (fun z => lt z x) k1 ->
  l1 ++ x :: l2 = k1 ++ x :: k2 -> l1 = k1 /\ l2 = k2.
Proof.
  induction l1 as [|a l1 IH]; intros l2 k1 k2 H1 K1 E.
  - destruct k1 as [|b k1].
    + injection E as <-. now split.
    + exfalso. injection E as <- _. inversion K1; subst.
      now apply (@lt_irr x).
  - destruct k1 as [|b k1].
    + exfalso. injection E as -> _. inversion H1; subst.
      now apply (@lt_irr x).
    + injection E as <- E. inversion H1; subst. inversion K1; subst.
      destruct (IH l2 k1 k2) as [-> ->]; auto.
Qed.

(** A sequence is cut below and above [x] in one way only. *)
Lemma cut_unique x : forall l1 l2 k1 k2,
  Forall (fun z => lt z x) l1 -> Forall (lt x) l2 ->
  Forall (fun z => lt z x) k1 -> Forall (lt x) k2 ->
  l1 ++ l2 = k1 ++ k2 -> l1 = k1 /\ l2 = k2.
Proof.
  induction l1 as [|a l1 IH]; intros l2 k1 k2 H1 H2 K1 K2 E.
  - destruct k1 as [|b k1]; [now split|]. exfalso.
    simpl in E. subst l2. inversion H2; subst. inversion K1; subst.
    apply (@lt_irr x). eapply ltT; eassumption.
  - destruct k1 as [|b k1].
    + exfalso. simpl in E. subst k2. inversion K2; subst. inversion H1; subst.
      apply (@lt_irr x). eapply ltT; eassumption.
    + injection E as <- E. inversion H1; subst. inversion K1; subst.
      destruct (IH l2 k1 k2) as [-> ->]; auto.
Qed.

(** X18. Inserting an item that has no equivalent in the subtree and
    then removing it gives back the traversal: the insertion returns
    nil, the removal returns the inserted item, and the items of the
    subtree are those it had, in their order.  The nodes themselves may
    differ, after splits. *)
Theorem insert_then_remove h n x m mx f fuel :
  1 <= m -> 2 * m + 1 <= mx ->
  shape h n -> asc (toList n) -> blankPool f ->
  bounded m mx n -> 1 <= len (items n) < mx ->
  (forall z, In z (toList n) -> ~ equiv z x) ->
  (3 * h + 1 <= fuel)%nat ->
  exists n1 f1 n2 f2,
    insert Less fuel n x mx ctx f = Ret (None, n1, f1) /\
    remove Less fuel n1 (Some x) m removeItem ctx f1 = Ret (Some x, n2, f2) /\
    toList n2 = toList n.
Proof.
  intros Hm Hmx Hn Ha Hf Hb Hlen Hab Hfuel.
  assert (Hmx1 : 1 <= mx) by lia.
  destruct (@insert_spec x mx Hmx1 fuel h n f Hn Ha Hf) as
    (out & n1 & f1 & Hins & Hspec); [lia|].
  destruct (@insert_shape _ _ Less fuel h n x mx ctx f out n1 f1 Hn Hf Hins)
    as [Hn1 Hf1].
  destruct (@insert_bounded m mx Hmx1 Hmx fuel n x f out n1 f1 Hb
              (proj2 Hlen) Hf Hins) as (Hb1 & Hlen1 & _).
  pose proof (insSpec_asc Ha Hspec) as Ha1.
  pose proof (insSpec_In Hspec) as Hx1.
  destruct (@remove_item m Hm h n1 x f1 fuel Hn1 Ha1
              (@bounded_lower m mx h n1 Hn1 Hb1))
    as (out' & n2 & f2 & Hrem & Hdel & _);
    [exists x; split; [assumption | apply eqv_refl] | lia | assumption |].
  destruct Hspec as (l1 & l2 & H1 & H2 & [(-> & E & E1)|(y & _ & Hy & E & _)]).
  2:{ destruct (Hab y); [|assumption]. rewrite E. apply in_elt. }
  destruct Hdel as (y & k1 & k2 & -> & Hyx & E2 & E3).
  assert (y = x).
  { apply (@asc_equiv_unique (toList n1) y x Ha1); try assumption.
    rewrite E2. apply in_elt. }
  subst y. exists n1, f1, n2, f2.
  split; [assumption|]. split; [assumption|].
  pose proof Ha1 as Hk. rewrite E2 in Hk.
  destruct (@asc_equiv_cut k1 x k2 x Hk (eqv_refl x)) as [K1 _].
  rewrite E1 in E2.
  destruct (@mid_unique x l1 l2 k1 k2 H1 K1 E2) as [-> ->].
  now rewrite E3, E.
Qed.

(** X19. Removing a stored item and then inserting it again gives back
    the traversal: the removal returns the item, the insertion returns
    nil, and the items of the subtree are those it had, in their order. *)
Theorem remove_then_insert h n x m mx f fuel :
  1 <= m -> 1 <= mx ->
  shape h n -> asc (toList n) -> lower m n -> blankPool f ->
  1 <= len (items n) -> In x (toList n) ->
  (3 * h + 1 <= fuel)%nat ->
  exists n1 f1 n2 f2,
    remove Less fuel n (Some x) m removeItem ctx f = Ret (Some x, n1, f1) /\
    insert Less fuel n1 x mx ctx f1 = Ret (None, n2, f2) /\
    toList n2 = toList n.
Proof.
  intros Hm Hmx Hn Ha Hlow Hf Hne Hx Hfuel.
  destruct (@remove_item m Hm h n x f fuel Hn Ha Hlow)
    as (out & n1 & f1 & Hrem & (y & l1 & l2 & -> & Hyx & E & E1) & _);
    [exists x; split; [assumption | apply eqv_refl] | assumption | assumption |].
  assert (y = x).
  { apply (@asc_equiv_unique (toList n) y x Ha); try assumption.
    rewrite E. apply in_elt. }
  subst y.
  destruct (proj1 (@remove_shape _ _ Less m fuel)
                  h n (Some x) removeItem ctx f (Some x) n1 f1 Hn Hf Hrem)
    as [Hn1 Hf1].
  rewrite E in Ha.
  destruct (@asc_equiv_cut l1 x l2 x Ha (eqv_refl x)) as [L1 L2].
  pose proof (asc_remove _ _ _ Ha) as Ha1. rewrite <- E1 in Ha1.
  destruct (@insert_spec x mx Hmx fuel h n1 f1 Hn1 Ha1 Hf1) as
    (out & n2 & f2 & Hins & (k1 & k2 & K1 & K2 & Hcase)); [lia|].
  destruct Hcase as [(-> & E2 & E3)|(y & _ & Hy & E2 & _)].
  - exists n1, f1, n2, f2.
    split; [assumption|]. split; [assumption|].
    rewrite E1 in E2.
    destruct (@cut_unique x l1 l2 k1 k2 L1 L2 K1 K2 E2) as [-> ->].
    now rewrite E3, E.
  - exfalso. rewrite E1 in E2.
    assert (Hin : In y (l1 ++ l2)) by (rewrite E2; apply in_elt).
    rewrite Forall_forall in L1, L2.
    apply in_app_or in Hin as [Hin|Hin].
    + exact (lt_neqv (L1 _ Hin) Hy).
    + exact (lt_neqv' (L2 _ Hin) Hy).
Qed.

(** X20. After the removal of a stored item from an ordered, balanced
    subtree, [get] with that item as the key returns nil, and [get] with
    a key that is not equivalent to it returns what it returned before. *)
Theorem get_after_remove h n x m f fuel :
  1 <= m -> shape h n -> asc (toList n) -> lower m n -> blankPool f ->
  1 <= len (items n) ->
  (exists y, In y (toList n) /\ equiv y x) ->
  (3 * h + 1 <= fuel)%nat ->
  exists y n' f',
    remove Less fuel n (Some x) m removeItem ctx f = Ret (Some y, n', f') /\
    get Less fuel n' (Some x) ctx = Ret None /\
    (forall z, ~ equiv z x ->
               get Less fuel n' (Some z) ctx = get Less fuel n (Some z) ctx).
Proof.
  intros Hm Hn Ha Hlow Hf Hne Hin Hfuel.
  destruct (@remove_item m Hm h n x f fuel Hn Ha Hlow Hin Hne Hfuel)
    as (out & n' & f' & Hrem & Hdel & _).
  pose proof Hdel as (y & l1 & l2 & -> & Hyx & E & E').
  destruct (proj1 (@remove_shape _ _ Less m fuel)
                  h n (Some x) removeItem ctx f (Some y) n' f' Hn Hf Hrem)
    as [Hn' _].
  assert (Ha' : asc (toList n')).
  { rewrite E'. rewrite E in Ha. exact (asc_remove _ _ _ Ha). }
  assert (Hfuel' : (h < fuel)%nat) by lia.
  exists y, n', f'. split; [assumption|]. split.
  - destruct (@get_correct x fuel h n' Hn' Ha' Hfuel') as (o & Hg & Hc).
    destruct Hc as [(y' & -> & Hy' & Hy'x)|(-> & _)]; [|assumption].
    now destruct (@delSpec_gone x (toList n) (Some y) (toList n') y' Ha Hdel Hy').
  - intros z Hzx.
    destruct (@get_correct z fuel h n Hn Ha Hfuel') as (o & Hg & Hc).
    destruct (@get_correct z fuel h n' Hn' Ha' Hfuel') as (o' & Hg' & Hc').
    rewrite Hg, Hg'. f_equal.
    assert (Hne' : forall w, equiv w z -> ~ equiv w x).
    { intros w Hwz Hwx. apply Hzx. exact (eqv_trans (eqv_sym Hwz) Hwx). }
    destruct Hc as [(w & -> & Hw & Hwz)|(-> & Hab)];
      destruct Hc' as [(w' & -> & Hw' & Hw'z)|(-> & Hab')].
    + f_equal. apply (@asc_equiv_unique (toList n') w' w Ha' Hw').
      * exact (delSpec_keeps Hdel Hw (Hne' w Hwz)).
      * exact (eqv_trans Hw'z (eqv_sym Hwz)).
    + destruct (Hab' w); [|assumption].
      exact (delSpec_keeps Hdel Hw (Hne' w Hwz)).
    + destruct (Hab w'); [|assumption].
      exact (@delSpec_from x (toList n) (Some y) (toList n') w' Hdel Hw').
    + reflexivity.
Qed.

End Correctness.

(** * Slices, the free list and the edges of [find] and [remove] *)

Section SliceRoundTrips.
Variable A : Type.
Implicit Types (s : list A) (i k : Z) (x y : A).

(** X13. [insertAt] at an index from [0] to [len s] returns a slice one
    longer that holds [x] at that index, with the elements before it at
    their indices and the elements from it on one index higher;
    [removeAt] at the same index gives back [x] and the slice as it was,
    and so does [pop] when the index was [len s]. *)
Theorem insertAt_removeAt s i x :
  0 <= i <= len s ->
  exists s',
    insertAt s i x = Ret s' /\ len s' = len s + 1 /\ index s' i = Ret x /\
    removeAt s' i = Ret (x, s) /\
    (forall k y, index s k = Ret y ->
                 (k < i -> index s' k = Ret y) /\
                 (i <= k -> index s' (k + 1) = Ret y)) /\
    (i = len s -> pop s' = Ret (x, s)).
Proof.
  intros Hi. destruct (cut_at s Hi) as (l1 & l2 & -> & Hl).
  exists (l1 ++ x :: l2).
  split; [now apply insertAt_app|]. split; [lens|].
  split; [now apply index_app_mid|].
  split; [now apply removeAt_app_mid|]. split.
  - intros k y Hk. pose proof (index_range _ _ Hk) as Hr. split; intros Hki.
    + unfold index, len in *. destruct (0 <=? k); [|discriminate].
      rewrite nth_error_app1 in Hk |- * by lia. exact Hk.
    + unfold index, len in *.
      destruct (0 <=? k) eqn:E; [|discriminate]. apply Z.leb_le in E.
      replace (0 <=? k + 1) with true by (symmetry; apply Z.leb_le; lia).
      rewrite nth_error_app2 in Hk |- * by lia.
      replace (Z.to_nat (k + 1) - length l1)%nat
        with (S (Z.to_nat k - length l1)) by lia.
      exact Hk.
  - intros He. assert (l2 = []) by (apply len_zero; lens). subst l2.
    rewrite app_nil_r. apply pop_snoc.
Qed.

End SliceRoundTrips.

Section Edges.
Variables Item Ctx : Type.
Variable Less : Item -> Item -> Ctx -> bool.
Variable ctx : Ctx.
Implicit Types (n : node Item) (f : FreeList Item) (s : list Item).

(** X15. The free list is a stack: a node released while the list is
    below its capacity is the node the next [newNode] returns, as it was
    released, and the list is then as before.  [NewFreeList] with a
    negative size panics. *)
Theorem freelist_lifo f n :
  (len (freelist f) < capacity f -> newNode (freeNode f n) = (n, f)) /\
  (forall size, size < 0 -> NewFreeList Item size = Panic MakeSliceOutOfRange).
Proof.
  split.
  - intros H. rewrite (freeNode_push _ _ H), newNode_pop. now destruct f.
  - intros size H. unfold NewFreeList. now apply Z.ltb_lt in H as ->.
Qed.

(** The loop of [find] stays between its bounds, whatever [Less] is. *)
Lemma find_loop_bounds s x : forall fuel i j,
  0 <= i <= j -> j <= len s -> (Z.to_nat (j - i) <= fuel)%nat ->
  exists r, find_loop Less fuel s (Some x) ctx i j = Ret r /\ i <= r <= j.
Proof.
  induction fuel as [|fuel IH]; intros i j Hij Hj Hfuel.
  - assert (i = j) by lia. subst j. exists i. simpl.
    rewrite Z.ltb_irrefl. split; [reflexivity | lia].
  - cbn [find_loop]. destruct (i <? j) eqn:E.
    2:{ exists i. split; [reflexivity|]. apply Z.ltb_ge in E. lia. }
    apply Z.ltb_lt in E.
    assert (Hh : i <= i + Z.quot (j - i) 2 < j).
    { rewrite Z.quot_div_nonneg by lia.
      pose proof (Z.div_mod (j - i) 2). pose proof (Z.mod_pos_bound (j - i) 2).
      lia. }
    destruct (@index_in_range _ s (i + Z.quot (j - i) 2)) as (sh & Hsh); [lia|].
    rewrite Hsh; cbn [bind callLess].
    destruct (negb (Less x sh ctx)).
    + destruct (IH (i + Z.quot (j - i) 2 + 1) j) as (r & Hr & Hb); try lia.
      exists r. split; [assumption | lia].
    + destruct (IH i (i + Z.quot (j - i) 2)) as (r & Hr & Hb); try lia.
      exists r. split; [assumption | lia].
Qed.

(** X16. Whatever the comparison function and whatever the order of the
    slice, [find] with a non-nil item returns an index between [0] and
    the length, never panics, and when it reports the item found, the
    index is that of an element that is not less than the item.  With a
    nil item it panics on every slice but the empty one. *)
Theorem find_in_bounds s x :
  (exists i found,
      find Less s (Some x) ctx = Ret (i, found) /\ 0 <= i <= len s /\
      (found = true ->
       exists y, index s i = Ret y /\ Less y x ctx = false)) /\
  (s <> [] -> find Less s None ctx = Panic NilDereference).
Proof.
  split; [|apply find_nil_probe].
  pose proof (len_nonneg s) as Hs.
  destruct (@find_loop_bounds s x (length s) 0 (len s)) as (r & Hr & Hb);
    [lia | lia | unfold len; lia |].
  unfold find. rewrite Hr; cbn [bind].
  destruct (0 <? r) eqn:E.
  - apply Z.ltb_lt in E.
    destruct (@index_in_range _ s (r - 1)) as (prev & Hp); [lia|].
    rewrite Hp; cbn [bind].
    destruct (Less prev x ctx) eqn:El; cbn [negb].
    + exists r, false. split; [reflexivity|]. split; [lia | discriminate].
    + exists (r - 1), true. split; [reflexivity|]. split; [lia|]. eauto.
  - exists r, false. split; [reflexivity|]. split; [lia | discriminate].
Qed.

(** X17. The edges of [remove]: a mode other than the three panics with
    [invalid type]; on a leaf without items the modes [removeMin] and
    [removeMax] panic with an index out of range, and [removeItem]
    returns nil and leaves the node alone, for a nil item as well; on a
    node that holds items, [removeItem] with a nil item panics on the
    call of [Less] through nil. *)
Theorem remove_edge_cases n item m typ f fuel :
  (typ <> removeItem -> typ <> removeMin -> typ <> removeMax ->
   remove Less (S fuel) n item m typ ctx f = Panic InvalidType) /\
  (items n = [] -> children n = [] ->
   remove Less (S fuel) n item m removeMin ctx f = Panic IndexOutOfRange /\
   remove Less (S fuel) n item m removeMax ctx f = Panic IndexOutOfRange /\
   remove Less (S fuel) n item m removeItem ctx f = Ret (None, n, f)) /\
  (items n <> [] ->
   remove Less (S fuel) n None m removeItem ctx f = Panic NilDereference).
Proof.
  split; [|split].
  - intros H0 H1 H2. cbn [remove]. unfold removeTarget.
    apply Z.eqb_neq in H0, H1, H2. now rewrite H2, H1, H0.
  - intros Hi Hc. cbn [remove]. unfold removeTarget.
    rewrite Hi, Hc. repeat split.
  - intros Hi. cbn [remove]. unfold removeTarget.
    cbn [removeMax removeMin removeItem Z.eqb Pos.eqb].
    now rewrite (find_nil_probe Less ctx Hi).
Qed.
End Edges.

(** * The tree at integer items *)

(** Integers ordered by [<], with a context that is not looked at. *)
Definition ZLess (a b : Z) (_ : unit) : bool := a <? b.

Lemma ZLess_swo : StrictWeakOrder ZLess tt.
Proof.
  split; unfold lessThan, equivalent, ZLess.
  - intros a. rewrite Z.ltb_irrefl. discriminate.
  - intros a b c H1%Z.ltb_lt H2%Z.ltb_lt. apply Z.ltb_lt. lia.
  - intros a b c [H1%Z.ltb_ge H2%Z.ltb_ge] [H3%Z.ltb_ge H4%Z.ltb_ge].
    split; apply Z.ltb_ge; lia.
Qed.

(** The tree of degree 2 that holds 1 to 10 after they were inserted in
    ascending order. *)
Definition root10 : node Z :=
  Node [4]
       [Node [2] [Node [1] []; Node [3] []];
        Node [6; 8] [Node [5] []; Node [7] []; Node [9; 10] []]].

Definition tree10 : BTree Z unit :=
  mkBTree 2 10 (Some root10) (mkFreeList [] 32) tt.

(** A node whose children can each spare an item. *)
Definition fatNode : node Z := Node [5] [Node [1; 3] []; Node [7; 9] []].

(** Closes the invariants of a concrete tree. *)
Ltac concrete :=
  repeat first
    [ reflexivity
    | lia
    | progress cbn
    | progress unfold blankPool, isBlank, lessThan, treeShape, treeLower,
        nodeArity, treeArity
    | match goal with
      | |- _ /\ _ => split
      | |- Forall _ _ => constructor
      | |- True => exact I
      | |- exists h : nat, shape h _ => exists 2%nat
      end ].

Example build_1_to_10 :
  (t0 <- New Z 2 tt ;;
   runTreeOps ZLess 5 t0
     (map (fun k => OpReplaceOrInsert (Some k)) [1; 2; 3; 4; 5; 6; 7; 8; 9; 10]))
  = Ret tree10.
Proof. vm_compute. reflexivity. Qed.

Example delete_sequence :
  (t <- runTreeOps ZLess 9 tree10
          (map (fun k => OpDelete (Some k) removeItem) [4; 5; 6; 3; 7]) ;;
   Ret (treeItems t, bt_length t))
  = Ret ([1; 2; 8; 9; 10], 5).
Proof. vm_compute. reflexivity. Qed.

Example delete_min_drains :
  (t <- runTreeOps ZLess 9 tree10
          (repeat (OpDelete None removeMin) 10) ;;
   Ret (bt_root t, bt_length t))
  = Ret (None, 0).
Proof. vm_compute. reflexivity. Qed.

Example get_present : get ZLess 3 root10 (Some 7) tt = Ret (Some 7).
Proof. vm_compute. reflexivity. Qed.

Example get_absent : get ZLess 3 root10 (Some 11) tt = Ret None.
Proof. vm_compute. reflexivity. Qed.

Lemma tree10_shape : treeShape tree10.
Proof. unfold treeShape. concrete. Qed.

Lemma tree10_ascending : ascending ZLess tt (treeItems tree10).
Proof. concrete. Qed.

Lemma tree10_lower : treeLower tree10.
Proof. unfold treeLower. concrete. Qed.

(** A node whose two children are a leaf and an internal node: every node
    in it has the right arity, but it is not balanced. *)
Definition lopsided : node Z :=
  Node [50] [Node [10] [];
             Node [70; 80; 90]
                  [Node [60; 65] []; Node [75] []; Node [85] []; Node [95] []]].

(** X1. Balance is needed for [remove] and [growChildAndRemove] to keep the
    arity: on [lopsided] the leaf steals an item together with a child
    from its internal sibling. *)
Example remove_needs_balance :
  arity lopsided /\
  exists n' f',
    remove ZLess 5 lopsided (Some 5) 1 removeItem tt (mkFreeList [] 32)
    = Ret (None, n', f') /\
    growChildAndRemove ZLess 4 lopsided 0 (Some 5) 1 removeItem tt
                       (mkFreeList [] 32)
    = Ret (None, n', f') /\
    n' = Node [70] [Node [10; 50] [Node [60; 65] []];
                    Node [80; 90] [Node [75] []; Node [85] []; Node [95] []]] /\
    ~ arity n'.
Proof.
  split; [concrete|].
  eexists. eexists.
  split; [vm_compute; reflexivity|].
  split; [vm_compute; reflexivity|].
  split; [reflexivity|].
  cbn. unfold nodeArity. cbn. intros [_ [[[H|H] _] _]]; lia.
Qed.

(** * The theorems at concrete inputs *)

Lemma arity_invariant_witness : treeArity tree10.
Proof.
  apply (proj1 (@arity_invariant Z unit ZLess)
               2 (mkFreeList [] 32) tt 5%nat
               (map (fun k => OpReplaceOrInsert (Some k))
                    [1; 2; 3; 4; 5; 6; 7; 8; 9; 10])
               (mkBTree 2 0 None (mkFreeList [] 32) tt) tree10).
  - constructor.
  - reflexivity.
  - vm_compute. reflexivity.
Defined.

Lemma grow_then_retry_descends_witness :
  exists n1 f1 i' found' c',
    growChild root10 0 1 (mkFreeList [] 32) = Ret (n1, f1) /\
    (forall fuel,
        growChildAndRemove ZLess (S fuel) root10 0 (Some 1) 1 removeItem tt
                           (mkFreeList [] 32)
        = remove ZLess fuel n1 (Some 1) 1 removeItem tt f1) /\
    removeTarget ZLess n1 (Some 1) removeItem tt = Ret (Descend i' found') /\
    index (children n1) i' = Ret c' /\
    (len (items c') <=? 1) = false /\
    (forall fuel,
        remove ZLess (S (S fuel)) root10 (Some 1) 1 removeItem tt
               (mkFreeList [] 32)
        = remove ZLess fuel n1 (Some 1) 1 removeItem tt f1) /\
    (forall fuel,
        remove ZLess (S fuel) n1 (Some 1) 1 removeItem tt f1
        = if found' then
            out <- index (items n1) i' ;;
            '(pred, child', f') <-
               remove ZLess fuel c' None 1 removeMax tt f1 ;;
            match pred with
            | Some p =>
                its <- assign (items n1) i' p ;;
                chs <- assign (children n1) i' child' ;;
                Ret (Some out, Node its chs, f')
            | None => Panic NilStored
            end
          else
            '(out, child', f') <-
               remove ZLess fuel c' (Some 1) 1 removeItem tt f1 ;;
            chs <- assign (children n1) i' child' ;;
            Ret (out, Node (items n1) chs, f')).
Proof.
  apply (@grow_then_retry_descends Z unit ZLess tt ZLess_swo 1%nat root10 1
           (mkFreeList [] 32) (Some 1) removeItem 0 false
           (Node [2] [Node [1] []; Node [3] []])).
  - concrete.
  - concrete.
  - concrete.
  - lia.
  - vm_compute. discriminate.
  - reflexivity.
  - reflexivity.
  - vm_compute. discriminate.
Defined.

Lemma remove_found_pulls_predecessor_witness :
  exists y,
    index (items fatNode) 0 = Ret y /\
    (forall fuel pred child' f',
        remove ZLess fuel (Node [1; 3] []) None 1 removeMax tt (mkFreeList [] 32)
        = Ret (Some pred, child', f') ->
        exists its chs,
          assign (items fatNode) 0 pred = Ret its /\
          assign (children fatNode) 0 child' = Ret chs /\
          remove ZLess (S fuel) fatNode (Some 5) 1 removeItem tt (mkFreeList [] 32)
          = Ret (Some y, Node its chs, f')) /\
    (forall h fuel,
        1 <= 1 -> shape h (Node [1; 3] []) ->
        ascending ZLess tt (toList (Node [1; 3] [])) ->
        lower 1 (Node [1; 3] []) ->
        (3 * h + 1 <= fuel)%nat ->
        exists pred child' f',
          remove ZLess fuel (Node [1; 3] []) None 1 removeMax tt (mkFreeList [] 32)
          = Ret (Some pred, child', f') /\
          toList (Node [1; 3] []) = toList child' ++ [pred]).
Proof.
  apply (@remove_found_pulls_predecessor Z unit ZLess tt ZLess_swo fatNode 5 1
           (mkFreeList [] 32) 0 (Node [1; 3] [])).
  - reflexivity.
  - reflexivity.
  - vm_compute. reflexivity.
Defined.

Lemma split_spec_witness :
  exists x f',
    index [1; 2; 3] 1 = Ret x /\
    split (Node [1; 2; 3] []) 1 (mkFreeList [] 32)
    = Ret (x, Node [3] [], Node [1] [], f') /\
    blankPool f' /\
    (forall d, len [1; 2; 3] = 2 * d - 1 -> 1 = Z.quot (2 * d - 1) 2 ->
               len [3] = d - 1 /\ len [1] = d - 1).
Proof.
  apply (@split_spec Z (Node [1; 2; 3] []) 1 (mkFreeList [] 32)).
  - constructor.
  - left. reflexivity.
  - vm_compute. split; [discriminate | reflexivity].
Defined.

Lemma find_spec_witness :
  exists i found,
    find ZLess [1; 3; 5] (Some 3) tt = Ret (i, found) /\
    0 <= i <= len [1; 3; 5] /\
    (found = true <-> exists z, In z [1; 3; 5] /\ equivalent ZLess tt z 3) /\
    (found = true ->
     exists y, index [1; 3; 5] i = Ret y /\ equivalent ZLess tt y 3 /\
               forall k z, index [1; 3; 5] k = Ret z ->
                           equivalent ZLess tt z 3 -> i <= k) /\
    (found = false ->
     forall k z, index [1; 3; 5] k = Ret z ->
                 (lessThan ZLess tt 3 z <-> i <= k)).
Proof.
  apply (proj2 (@find_spec Z unit ZLess tt ZLess_swo) [1; 3; 5] 3).
  concrete.
Defined.

Lemma insert_existing_replaces_witness :
  (forall y, In y (treeItems tree10) -> equivalent ZLess tt y 4 ->
     exists t' l1 l2,
       ReplaceOrInsert ZLess 5 tree10 (Some 4) = Ret (Some y, t') /\
       treeItems tree10 = l1 ++ y :: l2 /\
       treeItems t' = l1 ++ 4 :: l2 /\
       bt_length t' = bt_length tree10) /\
  (exists out t1 t2,
     ReplaceOrInsert ZLess 5 tree10 (Some 4) = Ret (out, t1) /\
     In 4 (treeItems t1) /\
     ReplaceOrInsert ZLess 5 t1 (Some 4) = Ret (Some 4, t2) /\
     treeItems t2 = treeItems t1 /\
     bt_length t2 = bt_length t1).
Proof.
  apply (@insert_existing_replaces Z unit ZLess tt ZLess_swo tree10 4 5%nat).
  - exact tree10_shape.
  - reflexivity.
  - exact tree10_ascending.
  - vm_compute. discriminate.
  - vm_compute. lia.
Defined.

Lemma delete_absent_unchanged_witness :
  exists t',
    Delete ZLess 7 tree10 (Some 100) = Ret (None, t') /\
    treeItems t' = treeItems tree10 /\
    bt_length t' = bt_length tree10.
Proof.
  apply (@delete_absent_unchanged Z unit ZLess tt ZLess_swo tree10 100 7%nat).
  - exact tree10_shape.
  - reflexivity.
  - exact tree10_ascending.
  - exact tree10_lower.
  - vm_compute. discriminate.
  - intros z Hz [H _]. cbn in Hz.
    repeat (destruct Hz as [<-|Hz]; [vm_compute in H; discriminate|]).
    exact Hz.
  - vm_compute. lia.
Defined.

Lemma New_degree_check_witness :
  New Z 1 tt = Panic BadDegree /\
  New Z 2 tt = Ret (mkBTree 2 0 None (mkFreeList [] 32) tt).
Proof.
  split.
  - apply (proj1 (@New_degree_check Z unit 1 tt)). lia.
  - apply (proj1 (proj2 (@New_degree_check Z unit 2 tt))). lia.
Defined.

Lemma freelist_blank_and_bounded_witness :
  let f := fold_left (@runPoolOp Z)
                     [OpFreeNode root10; OpFreeNode fatNode; OpNewNode Z]
                     (mkFreeList [] 1) in
  blankPool f /\
  len (freelist f) <= capacity f /\
  capacity f = 1 /\
  isBlank (fst (newNode f)) /\
  (len (freelist f) = 0 -> newNode f = (blank Z, f)) /\
  (forall n, len (freelist f) < capacity f ->
             freeNode f n = mkFreeList (freelist f ++ [n]) (capacity f)) /\
  (forall n, capacity f <= len (freelist f) -> freeNode f n = f).
Proof.
  apply (@freelist_blank_and_bounded Z 1 (mkFreeList [] 1)
           [OpFreeNode root10; OpFreeNode fatNode; OpNewNode Z]).
  reflexivity.
Defined.

(** ** Further theorems at concrete inputs *)

Definition pool32 : FreeList Z := mkFreeList [] 32.

Definition fullChild : node Z := Node [4] [Node [1; 2; 3] []; Node [6] []].

Lemma root10_shape : shape 2 root10.
Proof. concrete. Qed.

Lemma root10_ascending : ascending ZLess tt (toList root10).
Proof. concrete. Qed.

Lemma root10_lower : lower 1 root10.
Proof. concrete. Qed.

Lemma root10_bounded : bounded 1 3 root10.
Proof. concrete. Qed.

Lemma pool32_blank : blankPool pool32.
Proof. constructor. Qed.

Lemma root10_absent x :
  10 < x -> forall z, In z (toList root10) -> ~ equivalent ZLess tt z x.
Proof.
  intros Hx z Hz [H _]. cbn in Hz. unfold ZLess in H. apply Z.ltb_ge in H.
  repeat (destruct Hz as [<-|Hz]; [lia|]). exact Hz.
Qed.

Lemma remove_stored_item_witness :
  exists y n' f' l1 l2,
    remove ZLess 7 root10 (Some 6) 1 removeItem tt pool32
    = Ret (Some y, n', f') /\
    equivalent ZLess tt y 6 /\ toList root10 = l1 ++ y :: l2 /\
    toList n' = l1 ++ l2 /\
    ascending ZLess tt (toList n') /\ shape 2 n' /\ lower 1 n' /\
    len (items root10) - 1 <= len (items n') /\ blankPool f'.
Proof.
  apply (@remove_stored_item Z unit ZLess tt ZLess_swo 2%nat root10 6 1
           pool32 7%nat).
  - lia.
  - exact root10_shape.
  - exact root10_ascending.
  - exact root10_lower.
  - exact pool32_blank.
  - vm_compute. discriminate.
  - exists 6. split; [cbn; tauto | split; reflexivity].
  - lia.
Defined.

Lemma remove_absent_item_witness :
  exists n' f',
    remove ZLess 7 root10 (Some 11) 1 removeItem tt pool32
    = Ret (None, n', f') /\
    toList n' = toList root10 /\ shape 2 n' /\ lower 1 n' /\
    len (items root10) - 1 <= len (items n') /\ blankPool f'.
Proof.
  apply (@remove_absent_item Z unit ZLess tt ZLess_swo 2%nat root10 11 1
           pool32 7%nat).
  - lia.
  - exact root10_shape.
  - exact root10_ascending.
  - exact root10_lower.
  - exact pool32_blank.
  - vm_compute. discriminate.
  - apply root10_absent. lia.
  - lia.
Defined.

Lemma remove_min_max_witness :
  (exists p n' f',
      remove ZLess 7 root10 None 1 removeMin tt pool32 = Ret (Some p, n', f') /\
      toList root10 = p :: toList n' /\
      shape 2 n' /\ lower 1 n' /\ blankPool f') /\
  (exists p n' f',
      remove ZLess 7 root10 None 1 removeMax tt pool32 = Ret (Some p, n', f') /\
      toList root10 = toList n' ++ [p] /\
      shape 2 n' /\ lower 1 n' /\ blankPool f').
Proof.
  apply (@remove_min_max Z unit ZLess tt ZLess_swo 2%nat root10 None 1
           pool32 7%nat).
  - lia.
  - exact root10_shape.
  - exact root10_ascending.
  - exact root10_lower.
  - exact pool32_blank.
  - vm_compute. discriminate.
  - lia.
Defined.

Lemma get_spec_witness :
  ((exists y, In y (toList root10) /\ equivalent ZLess tt y 7) ->
   exists y, get ZLess 3 root10 (Some 7) tt = Ret (Some y) /\
             In y (toList root10) /\ equivalent ZLess tt y 7) /\
  ((forall z, In z (toList root10) -> ~ equivalent ZLess tt z 7) ->
   get ZLess 3 root10 (Some 7) tt = Ret None) /\
  (In 7 (toList root10) -> get ZLess 3 root10 (Some 7) tt = Ret (Some 7)).
Proof.
  apply (@get_spec Z unit ZLess tt ZLess_swo 2%nat root10 7 3%nat).
  - exact root10_shape.
  - exact root10_ascending.
  - lia.
Defined.

Lemma get_after_insert_witness :
  exists out n' f',
    insert ZLess 3 root10 11 3 tt pool32 = Ret (out, n', f') /\
    get ZLess 3 n' (Some 11) tt = Ret (Some 11) /\
    (forall z, ~ equivalent ZLess tt z 11 ->
               get ZLess 3 n' (Some z) tt = get ZLess 3 root10 (Some z) tt).
Proof.
  apply (@get_after_insert Z unit ZLess tt ZLess_swo 2%nat root10 11 3
           pool32 3%nat).
  - lia.
  - exact root10_shape.
  - exact root10_ascending.
  - exact pool32_blank.
  - lia.
Defined.

Lemma insert_sorted_witness :
  exists out n' f',
    insert ZLess 3 root10 11 3 tt pool32 = Ret (out, n', f') /\
    shape 2 n' /\ ascending ZLess tt (toList n') /\ blankPool f' /\
    ((forall z, In z (toList root10) -> ~ equivalent ZLess tt z 11) ->
     out = None /\
     exists l1 l2, toList root10 = l1 ++ l2 /\ toList n' = l1 ++ 11 :: l2) /\
    (forall y, In y (toList root10) -> equivalent ZLess tt y 11 ->
     out = Some y /\
     exists l1 l2, toList root10 = l1 ++ y :: l2 /\
                   toList n' = l1 ++ 11 :: l2).
Proof.
  apply (@insert_sorted Z unit ZLess tt ZLess_swo 2%nat root10 11 3
           pool32 3%nat).
  - lia.
  - exact root10_shape.
  - exact root10_ascending.
  - exact pool32_blank.
  - lia.
Defined.

Lemma insert_keeps_bounds_witness :
  exists out n' f',
    insert ZLess 3 root10 11 3 tt pool32 = Ret (out, n', f') /\
    bounded 1 3 n' /\ len (items root10) <= len (items n') <= 3.
Proof.
  apply (@insert_keeps_bounds Z unit ZLess tt ZLess_swo 2%nat root10 11 1 3
           pool32 3%nat).
  - lia.
  - lia.
  - exact root10_shape.
  - exact root10_ascending.
  - exact pool32_blank.
  - lia.
  - exact root10_bounded.
  - vm_compute. reflexivity.
Defined.

Lemma remove_keeps_invariants_witness :
  exists out n' f',
    remove ZLess 7 root10 (Some 4) 1 removeItem tt pool32 = Ret (out, n', f') /\
    shape 2 n' /\ ascending ZLess tt (toList n') /\ bounded 1 3 n' /\
    blankPool f' /\
    len (items root10) - 1 <= len (items n') <= len (items root10).
Proof.
  apply (@remove_keeps_invariants Z unit ZLess tt ZLess_swo 2%nat root10
           (Some 4) removeItem 1 3 pool32 7%nat).
  - lia.
  - lia.
  - exact root10_shape.
  - exact root10_ascending.
  - exact root10_bounded.
  - exact pool32_blank.
  - vm_compute. discriminate.
  - right. right. split; [reflexivity | discriminate].
  - lia.
Defined.

Lemma maybeSplitChild_keeps_traversal_witness :
  exists b n' f',
    maybeSplitChild fullChild 0 3 pool32 = Ret (b, n', f') /\
    toList n' = toList fullChild /\ shape 1 n' /\ blankPool f' /\
    (len (items (Node [1; 2; 3] [])) < 3 ->
     b = false /\ n' = fullChild /\ f' = pool32) /\
    (3 <= len (items (Node [1; 2; 3] [])) ->
     b = true /\ len (items n') = len (items fullChild) + 1 /\
     exists x c1 c2,
       index (items n') 0 = Ret x /\
       index (children n') 0 = Ret c1 /\
       index (children n') (0 + 1) = Ret c2 /\
       len (items c1) = Z.quot 3 2 /\
       toList (Node [1; 2; 3] []) = toList c1 ++ x :: toList c2).
Proof.
  apply (@maybeSplitChild_keeps_traversal Z 0%nat fullChild 0
           (Node [1; 2; 3] []) 3 pool32).
  - lia.
  - concrete.
  - exact pool32_blank.
  - reflexivity.
Defined.

Lemma growChild_keeps_traversal_witness :
  exists n1 f1,
    growChild root10 0 1 pool32 = Ret (n1, f1) /\
    toList n1 = toList root10 /\ shape 2 n1 /\ blankPool f1 /\
    len (items root10) - 1 <= len (items n1) <= len (items root10) /\
    (lower 1 root10 -> lower 1 n1) /\
    (forall fuel,
        growChildAndRemove ZLess (S fuel) root10 0 (Some 1) 1 removeItem tt
                           pool32
        = remove ZLess fuel n1 (Some 1) 1 removeItem tt f1).
Proof.
  apply (@growChild_keeps_traversal Z unit ZLess tt 1%nat root10 0
           (Node [2] [Node [1] []; Node [3] []]) 1 pool32 (Some 1) removeItem).
  - lia.
  - exact root10_shape.
  - vm_compute. discriminate.
  - exact pool32_blank.
  - reflexivity.
Defined.

Lemma insertAt_removeAt_witness :
  exists s',
    insertAt [1; 2; 4] 2 3 = Ret s' /\ len s' = len [1; 2; 4] + 1 /\
    index s' 2 = Ret 3 /\
    removeAt s' 2 = Ret (3, [1; 2; 4]) /\
    (forall k y, index [1; 2; 4] k = Ret y ->
                 (k < 2 -> index s' k = Ret y) /\
                 (2 <= k -> index s' (k + 1) = Ret y)) /\
    (2 = len [1; 2; 4] -> pop s' = Ret (3, [1; 2; 4])).
Proof.
  apply (@insertAt_removeAt Z [1; 2; 4] 2 3).
  vm_compute. split; discriminate.
Defined.

Lemma insert_then_remove_witness :
  exists n1 f1 n2 f2,
    insert ZLess 7 root10 11 3 tt pool32 = Ret (None, n1, f1) /\
    remove ZLess 7 n1 (Some 11) 1 removeItem tt f1 = Ret (Some 11, n2, f2) /\
    toList n2 = toList root10.
Proof.
  apply (@insert_then_remove Z unit ZLess tt ZLess_swo 2%nat root10 11 1 3
           pool32 7%nat).
  - lia.
  - lia.
  - exact root10_shape.
  - exact root10_ascending.
  - exact pool32_blank.
  - exact root10_bounded.
  - vm_compute. split; [discriminate | reflexivity].
  - apply root10_absent. lia.
  - lia.
Defined.

Lemma remove_then_insert_witness :
  exists n1 f1 n2 f2,
    remove ZLess 7 root10 (Some 6) 1 removeItem tt pool32
    = Ret (Some 6, n1, f1) /\
    insert ZLess 7 n1 6 3 tt f1 = Ret (None, n2, f2) /\
    toList n2 = toList root10.
Proof.
  apply (@remove_then_insert Z unit ZLess tt ZLess_swo 2%nat root10 6 1 3
           pool32 7%nat).
  - lia.
  - lia.
  - exact root10_shape.
  - exact root10_ascending.
  - exact root10_lower.
  - exact pool32_blank.
  - vm_compute. discriminate.
  - cbn. tauto.
  - lia.
Defined.

Lemma get_after_remove_witness :
  exists y n' f',
    remove ZLess 7 root10 (Some 6) 1 removeItem tt pool32
    = Ret (Some y, n', f') /\
    get ZLess 7 n' (Some 6) tt = Ret None /\
    (forall z, ~ equivalent ZLess tt z 6 ->
               get ZLess 7 n' (Some z) tt = get ZLess 7 root10 (Some z) tt).
Proof.
  apply (@get_after_remove Z unit ZLess tt ZLess_swo 2%nat root10 6 1
           pool32 7%nat).
  - lia.
  - exact root10_shape.
  - exact root10_ascending.
  - exact root10_lower.
  - exact pool32_blank.
  - vm_compute. discriminate.
  - exists 6. split; [cbn; tauto | split; reflexivity].
  - lia.
Defined.

Lemma min_max_spec_witness :
  exists p q rest rest',
    min 2 (Some root10) = Ret (Some p) /\ toList root10 = p :: rest /\
    max 2 (Some root10) = Ret (Some q) /\ toList root10 = rest' ++ [q].
Proof.
  apply (proj2 (proj2 (min_max_spec Z)) 2%nat root10 2%nat).
  - exact root10_shape.
  - exact root10_lower.
  - vm_compute. discriminate.
  - lia.
Defined.

Lemma freelist_lifo_witness :
  newNode (freeNode pool32 fatNode) = (fatNode, pool32).
Proof.
  apply (proj1 (freelist_lifo pool32 fatNode)). vm_compute. reflexivity.
Defined.

Lemma find_in_bounds_witness :
  find ZLess [3; 1; 2] None tt = Panic NilDereference.
Proof.
  apply (proj2 (find_in_bounds ZLess tt [3; 1; 2] 0)). discriminate.
Defined.

Lemma remove_edge_cases_witness :
  remove ZLess 1 (Node [] []) None 1 removeMin tt pool32
  = Panic IndexOutOfRange /\
  remove ZLess 1 (Node [] []) None 1 removeMax tt pool32
  = Panic IndexOutOfRange /\
  remove ZLess 1 (Node [] []) None 1 removeItem tt pool32
  = Ret (None, Node [] [], pool32).
Proof.
  apply (proj1 (proj2 (remove_edge_cases ZLess tt (Node [] []) None 1
                                          removeItem pool32 0%nat)));
    reflexivity.
Defined.
